(** * Scrape manager of discovery-crawler (src/services/scrapeManager.js)

    Shallow embedding of the in-memory scheduler ([jobQueue], [activeJobs],
    [completedJobs], [queueJob], [processNextJob], [processJob], [cancelJob],
    [emitSocketEvent]) and of the extraction pipeline run by each worker.

    Modelling choices:
    - a job object is shared between the queue, [activeJobs],
      [completedJobs] and its worker; job ids are unique, so the shared
      objects are kept in one heap keyed by [jobId], and the queues and maps
      hold ids (references);
    - every [await] of [processJob] and of [cancelJob] is an interleaving
      point: a suspended call is a [Thread] that a scheduler step resumes;
    - the external collaborators (repository, discovery service, page
      fetcher, extractors, socket.io) are an oracle record [Services]: a
      call returns [None] when it throws;
    - timestamps ([startedAt], [completedAt], [scrapedAt]) and info-level
      logging are left out: no property here depends on them; error-level
      log lines are kept as the list [logs]. *)

From stdpp Require Import base gmap strings list.
From Stdlib Require Import ZArith.

Set Warnings "-register-all".

(** ** Data model *)

Inductive Priority := High | Normal | Low.

Global Instance Priority_eq_dec : EqDecision Priority.
Proof. solve_decision. Defined.

Inductive Status := Queued | Processing | Complete | Failed | Cancelled.

Global Instance Status_eq_dec : EqDecision Status.
Proof. solve_decision. Defined.

Record Job := mkJob {
  jobId : string;
  domain : string;
  depth : nat;
  priority : Priority;
  maxPages : option nat;
  status : Status;
  progress : nat;
  message : string
}.

Definition job_with_status (s : Status) (j : Job) : Job :=
  mkJob (jobId j) (domain j) (depth j) (priority j) (maxPages j) s (progress j) (message j).
Definition job_with_progress (p : nat) (j : Job) : Job :=
  mkJob (jobId j) (domain j) (depth j) (priority j) (maxPages j) (status j) p (message j).
Definition job_with_message (m : string) (j : Job) : Job :=
  mkJob (jobId j) (domain j) (depth j) (priority j) (maxPages j) (status j) (progress j) m.

(** JSON values: the aggregate result and the extractors' outputs.
    [JNull] also stands for [undefined]. *)
Inductive json :=
  | JNull
  | JBool (b : bool)
  | JNum (n : Z)
  | JStr (s : string)
  | JArr (l : list json)
  | JObj (fields : list (string * json)).

(** JavaScript truthiness, used by [x || default]. *)
Definition truthy (v : json) : bool :=
  match v with
  | JNull => false
  | JBool b => b
  | JNum n => negb (Z.eqb n 0)
  | JStr s => negb (String.eqb s "")
  | JArr _ | JObj _ => true
  end.

Definition js_or (v : option json) (dflt : json) : json :=
  match v with
  | Some x => if truthy x then x else dflt
  | None => dflt
  end.

Fixpoint jget (k : string) (fs : list (string * json)) : option json :=
  match fs with
  | [] => None
  | (k', v) :: fs' => if String.eqb k k' then Some v else jget k fs'
  end.

(** [v.k1.k2...] *)
Fixpoint jpath (ks : list string) (v : json) : option json :=
  match ks with
  | [] => Some v
  | k :: ks' =>
      match v with
      | JObj fs => match jget k fs with Some v' => jpath ks' v' | None => None end
      | _ => None
      end
  end.

(** Decimal rendering of a number, for template strings. *)
Fixpoint digits (fuel n : nat) (acc : string) : string :=
  match fuel with
  | 0 => acc
  | S f =>
      let acc' := String (Ascii.ascii_of_nat (48 + n mod 10)) acc in
      if n <? 10 then acc' else digits f (n / 10) acc'
  end.
Definition nat_to_string (n : nat) : string := digits (S n) n "".

(** A discovered page and a page handed to the extractors. *)
Record Page := mkPage { url : string; title : option string }.
Record PageContent := mkPageContent {
  pc_url : string; pc_title : option string; pc_content : string }.

(** Options passed to [discoveryService.discoverPages]. *)
Record DiscoverOptions := mkDiscoverOptions {
  opt_maxPages : nat; bypassCooldown : bool; cooldownMinutes : nat }.

(** The extractors [processJob] runs, in the order it awaits them. *)
Inductive Extractor :=
  | EnhancedImage | SocialMedia | BlogEx | ColorEx | GeneralEx | IsbnEx.

Definition extractor_order : list Extractor :=
  [EnhancedImage; SocialMedia; BlogEx; ColorEx; GeneralEx; IsbnEx].

(** Payload of a [job-update] event. *)
Record Payload := mkPayload {
  p_jobId : string; p_status : Status; p_progress : nat; p_message : string }.

Record Event := mkEvent { ev_room : string; ev_name : string; ev_data : Payload }.

(** Successful writes to the repository (the durable record). *)
Inductive DbOp :=
  | DbSaveJob (j : Job)
  | DbJobStatus (id : string) (s : Status)
  | DbDomainInsert (d : string) (id : nat)
  | DbDomainData (id : nat) (r : json)
  | DbResults (id : string) (r : json).

(** External collaborators. A field returning [option] or [bool] answers
    [None] / [false] when the call throws. *)
Record Services := mkServices {
  (* [global.io]: [None] when unset; the function answers [false] when
     [io.to(room).emit(event, data)] throws *)
  io : option (string -> string -> Payload -> bool);
  saveJob_ok : Job -> bool;
  updateJobStatus_ok : string -> Status -> bool;
  canResumeJob : string -> option bool;
  (* SELECT id FROM domain_info WHERE domain = ?: [Some None] = no row *)
  query_select_domain : string -> option (option nat);
  (* INSERT INTO domain_info ...: the insertId *)
  query_insert_domain : string -> option nat;
  query_update_data_ok : nat -> json -> bool;
  discoverPages : string -> nat -> string -> DiscoverOptions -> option (list Page);
  (* the returned object's [content] field, [None] inside when absent *)
  extractPageContent : string -> option (option string);
  extract : Extractor -> list PageContent -> option json;
  saveResults_ok : string -> json -> bool
}.

(** ** Aggregate results *)

Definition jstrs (l : list string) : json := JArr (map JStr l).

(** The fixed default palette, shared by both result builders. *)
Definition default_colors : json :=
  JObj [("primaryColor", JStr "#4285f4");
        ("secondaryColors", jstrs ["#ea4335"; "#fbbc05"; "#34a853"]);
        ("palette", jstrs ["#4285f4"; "#ea4335"; "#fbbc05"; "#34a853"; "#ffffff"; "#000000"])].

Definition default_blog : json :=
  JObj [("hasBlog", JBool false); ("blogUrl", JNull); ("articles", JArr [])].

Definition default_isbn : json :=
  JObj [("isbns", JArr []); ("isbnImages", JArr [])].

(** [minimalResults], built when discovery returns no page (scrapedAt left out). *)
Definition minimalResults (d : string) : json :=
  JObj [
    ("domain", JStr d);
    ("general", JObj [
        ("siteStructure", JObj [
            ("title", JStr (d ++ " Website"));
            ("meta", JObj [("description", JStr ("Website for " ++ d));
                           ("keywords", JStr d)]);
            ("sections", JArr [])]);
        ("prominentLinks", JArr []);
        ("navigationStructure", JObj [("mainNav", JArr []); ("footerNav", JArr [])])]);
    ("blog", default_blog);
    ("images", JObj [
        ("all", JArr []); ("byCategory", JObj []); ("heroImages", JArr []);
        ("brandImages", JArr []); ("productImages", JArr []); ("contentImages", JArr []);
        ("backgroundImages", JArr []); ("bannerImages", JArr []); ("galleryImages", JArr []);
        ("socialProofImages", JArr []); ("teamImages", JArr []); ("otherImages", JArr [])]);
    ("colors", default_colors);
    ("isbn", default_isbn)].

(** The per-section defaults of the combined [results] object. *)
Definition default_general (d : string) : json :=
  JObj [
    ("siteStructure", JObj [("title", JStr d); ("meta", JObj []); ("sections", JArr [])]);
    ("prominentLinks", JArr []);
    ("navigationStructure", JObj [("mainNav", JArr []); ("footerNav", JArr [])])].

Definition default_images : json :=
  JObj [("all", JArr []); ("byCategory", JObj []); ("heroImages", JArr []);
        ("brandImages", JArr [])].

Definition default_socialMedia : json :=
  JObj [("links", JArr []); ("content", JObj [])].

Definition section_default (d : string) (e : Extractor) : json :=
  match e with
  | EnhancedImage => default_images
  | SocialMedia => default_socialMedia
  | BlogEx => default_blog
  | ColorEx => default_colors
  | GeneralEx => default_general d
  | IsbnEx => default_isbn
  end.

(** Outcome of the [k]-th extractor: the variable it assigned, [None] when
    the call threw (the variable keeps its initial [null]). *)
Definition out_of (outs : list (option json)) (e : Extractor) : option json :=
  match outs !! (match e with
                 | EnhancedImage => 0 | SocialMedia => 1 | BlogEx => 2
                 | ColorEx => 3 | GeneralEx => 4 | IsbnEx => 5 end) with
  | Some o => o
  | None => None
  end.

Definition section (d : string) (outs : list (option json)) (e : Extractor) : json :=
  js_or (out_of outs e) (section_default d e).

(** The combined [results] object of [processJob] (scrapedAt left out). *)
Definition assemble_results (d : string) (pageCount : nat) (outs : list (option json)) : json :=
  JObj [
    ("domain", JStr d);
    ("pageCount", JNum (Z.of_nat pageCount));
    ("general", section d outs GeneralEx);
    ("blog", section d outs BlogEx);
    ("images", section d outs EnhancedImage);
    ("colors", section d outs ColorEx);
    ("socialMedia", section d outs SocialMedia);
    ("isbn", section d outs IsbnEx)].

Definition section_key (e : Extractor) : string :=
  match e with
  | EnhancedImage => "images" | SocialMedia => "socialMedia" | BlogEx => "blog"
  | ColorEx => "colors" | GeneralEx => "general" | IsbnEx => "isbn"
  end.

(** ** Scheduler state *)

(** Local variables of a running [processJob] call. *)
Record Locals := mkLocals {
  l_domainInfoId : option nat;
  l_pages : list Page;
  l_contents : list (option string);   (* pageContents *)
  l_outs : list (option json)          (* extractor variables, in call order *)
}.

Definition locals0 : Locals := mkLocals None [] [] [].

(** The [await] a suspended [processJob] call is waiting on. *)
Inductive Stage :=
  | W_Status              (* updateJobStatus(jobId, 'processing') *)
  | W_CanResume           (* canResumeJob(jobId) *)
  | W_Select              (* SELECT id FROM domain_info *)
  | W_Insert              (* INSERT INTO domain_info *)
  | W_Discover            (* discoveryService.discoverPages *)
  | W_MinSave (r : json)  (* saveResults(jobId, minimalResults) *)
  | W_MinDone             (* updateJobStatus(..., 'complete') on the minimal path *)
  | W_Page (i : nat)      (* extractPageContent(pages[i].url) *)
  | W_Extract (k : nat)   (* the k-th extractor of [extractor_order] *)
  | W_StoreData (r : json)(* UPDATE domain_info SET data *)
  | W_Done.               (* updateJobStatus(..., 'complete') *)

(** A suspended asynchronous call. *)
Inductive Thread :=
  | Worker (jid : string) (l : Locals) (s : Stage)
  | CancelActive (jid : string).   (* cancelJob awaiting its status write *)

Definition thread_jid (t : Thread) : string :=
  match t with Worker jid _ _ => jid | CancelActive jid => jid end.

Record State := mkState {
  heap : gmap string Job;
  q_high : list string;
  q_normal : list string;
  q_low : list string;
  activeJobs : list string;      (* Map: keys in insertion order *)
  completedJobs : list string;
  threads : list Thread;
  events : list Event;           (* events delivered by the publisher *)
  db : list DbOp;
  logs : list string;            (* logger.error lines *)
  rejected : list string         (* processJob promises that rejected *)
}.

Definition with_heap (h : gmap string Job) (st : State) : State :=
  mkState h (q_high st) (q_normal st) (q_low st) (activeJobs st) (completedJobs st)
    (threads st) (events st) (db st) (logs st) (rejected st).
Definition with_queues (qh qn ql : list string) (st : State) : State :=
  mkState (heap st) qh qn ql (activeJobs st) (completedJobs st)
    (threads st) (events st) (db st) (logs st) (rejected st).
Definition with_active (a : list string) (st : State) : State :=
  mkState (heap st) (q_high st) (q_normal st) (q_low st) a (completedJobs st)
    (threads st) (events st) (db st) (logs st) (rejected st).
Definition with_completed (c : list string) (st : State) : State :=
  mkState (heap st) (q_high st) (q_normal st) (q_low st) (activeJobs st) c
    (threads st) (events st) (db st) (logs st) (rejected st).
Definition with_threads (ts : list Thread) (st : State) : State :=
  mkState (heap st) (q_high st) (q_normal st) (q_low st) (activeJobs st) (completedJobs st)
    ts (events st) (db st) (logs st) (rejected st).
Definition add_event (e : Event) (st : State) : State :=
  mkState (heap st) (q_high st) (q_normal st) (q_low st) (activeJobs st) (completedJobs st)
    (threads st) (events st ++ [e]) (db st) (logs st) (rejected st).
Definition add_db (o : DbOp) (st : State) : State :=
  mkState (heap st) (q_high st) (q_normal st) (q_low st) (activeJobs st) (completedJobs st)
    (threads st) (events st) (db st ++ [o]) (logs st) (rejected st).
Definition add_log (m : string) (st : State) : State :=
  mkState (heap st) (q_high st) (q_normal st) (q_low st) (activeJobs st) (completedJobs st)
    (threads st) (events st) (db st) (logs st ++ [m]) (rejected st).
Definition add_rejected (jid : string) (st : State) : State :=
  mkState (heap st) (q_high st) (q_normal st) (q_low st) (activeJobs st) (completedJobs st)
    (threads st) (events st) (db st) (logs st) (rejected st ++ [jid]).

Definition empty_state : State := mkState ∅ [] [] [] [] [] [] [] [] [] [].

(** [Map.prototype.set] and [delete] on the key list of a Map. *)
Definition map_set (k : string) (ks : list string) : list string :=
  if bool_decide (k ∈ ks) then ks else ks ++ [k].
Definition map_delete (k : string) (ks : list string) : list string :=
  filter (fun x => x ≠ k) ks.

Definition queue_ids (st : State) : list string := q_high st ++ q_normal st ++ q_low st.

(** [jobQueue[priority].push(jobId)] *)
Definition push_tier (p : Priority) (jid : string) (st : State) : State :=
  match p with
  | High => with_queues (q_high st ++ [jid]) (q_normal st) (q_low st) st
  | Normal => with_queues (q_high st) (q_normal st ++ [jid]) (q_low st) st
  | Low => with_queues (q_high st) (q_normal st) (q_low st ++ [jid]) st
  end.

(** Mutation of the shared job object. *)
Definition upd_job (jid : string) (f : Job -> Job) (st : State) : State :=
  with_heap (alter f jid (heap st)) st.

Definition set_pm (jid : string) (p : nat) (m : string) (st : State) : State :=
  upd_job jid (fun j => job_with_message m (job_with_progress p j)) st.

Definition spawn (t : Thread) (st : State) : State :=
  with_threads (threads st ++ [t]) st.

Definition room (jid : string) : string := "job-" ++ jid.

(** ** Operations of the scrape manager *)

Section Scheduler.

Variable svc : Services.
Variable MAX_CONCURRENT_JOBS : nat.

(** [emitSocketEvent]: publisher errors are caught and logged. *)
Definition emitSocketEvent (rm ev : string) (data : Payload) (st : State) : State :=
  match io svc with
  | None => st
  | Some emit =>
      if emit rm ev data then add_event (mkEvent rm ev data) st
      else add_log "Error emitting socket event" st
  end.

(** [emitSocketEvent(`job-${job.jobId}`, 'job-update', {jobId, status, progress, message: m})] *)
Definition emit_job_update_msg (jid m : string) (st : State) : State :=
  match heap st !! jid with
  | Some j =>
      emitSocketEvent (room (jobId j)) "job-update"
        (mkPayload (jobId j) (status j) (progress j) m) st
  | None => st
  end.

(** The same with [message: job.message]. *)
Definition emit_job_update (jid : string) (st : State) : State :=
  match heap st !! jid with
  | Some j => emit_job_update_msg jid (message j) st
  | None => st
  end.

(** The tier choice of [processNextJob]: high, then normal, then low. *)
Definition pop_next (st : State) : option (string * State) :=
  match q_high st, q_normal st, q_low st with
  | jid :: rest, qn, ql => Some (jid, with_queues rest qn ql st)
  | [], jid :: rest, ql => Some (jid, with_queues [] rest ql st)
  | [], [], jid :: rest => Some (jid, with_queues [] [] rest st)
  | [], [], [] => None
  end.

(** The synchronous prefix of [processJob], up to its first [await]. *)
Definition processJob_start (jid : string) (st : State) : State :=
  let st1 := upd_job jid (job_with_status Processing) st in
  let st2 := with_active (map_set jid (activeJobs st1)) st1 in
  spawn (Worker jid locals0 W_Status) st2.

(** [processNextJob]; each recursive call has popped a job, so
    [S (length (queue_ids st))] calls always suffice. *)
Fixpoint processNextJob_fuel (fuel : nat) (st : State) : State :=
  match fuel with
  | 0 => st
  | S f =>
      if MAX_CONCURRENT_JOBS <=? length (activeJobs st) then st
      else
        match pop_next st with
        | None => st
        | Some (jid, st1) =>
            let st2 := processJob_start jid st1 in
            if length (activeJobs st2) <? MAX_CONCURRENT_JOBS
            then processNextJob_fuel f st2 else st2
        end
  end.

Definition processNextJob (st : State) : State :=
  processNextJob_fuel (S (length (queue_ids st))) st.

Inductive QueueResult :=
  | QueueOk (jid : string) (s : Status)
  | QueueError (msg : string).

(** [queueJob]: the repository write comes first; when it throws nothing
    else happens and the call throws [Failed to queue job]. *)
Definition queueJob (j : Job) (st : State) : State * QueueResult :=
  if saveJob_ok svc j then
    let st1 := add_db (DbSaveJob j) st in
    let st2 := with_heap (<[jobId j := j]> (heap st1)) st1 in
    let st3 := push_tier (priority j) (jobId j) st2 in
    let st4 := if length (activeJobs st3) <? MAX_CONCURRENT_JOBS
               then processNextJob st3 else st3 in
    (st4, QueueOk (jobId j)
            (match heap st4 !! jobId j with Some j' => status j' | None => status j end))
  else (add_log "Error queueing job" st, QueueError "Failed to queue job").

(** Options [processJob] passes to [discoverPages]. *)
Definition discover_options (j : Job) : DiscoverOptions :=
  mkDiscoverOptions (match maxPages j with Some (S n) => S n | _ => 25 end) true 5.

(** [pagesWithContent]: [content: pageContents[index]?.content || ''] *)
Definition pages_with_content (pages : list Page) (contents : list (option string))
  : list PageContent :=
  imap (fun i p => mkPageContent (url p) (title p)
                     (match contents !! i with Some (Some s) => s | _ => "" end)) pages.

(** The outer [catch] of [processJob]: log, then reject its promise. *)
Definition reject (jid : string) (st : State) : State * option Thread :=
  (add_rejected jid (add_log "[JOB] Error processing job" st), None).

Definition complete_fields (jid m : string) (st : State) : State :=
  upd_job jid (fun j => job_with_message m (job_with_progress 100 (job_with_status Complete j))) st.

(** Completion tail: notify, leave [activeJobs], enter [completedJobs],
    [return processNextJob()]. *)
Definition finish_job (jid : string) (st : State) : State :=
  let st1 := emit_job_update jid st in
  let st2 := with_active (map_delete jid (activeJobs st1)) st1 in
  let st3 := with_completed (map_set jid (completedJobs st2)) st2 in
  processNextJob st3.

Definition with_domainInfoId (id : option nat) (l : Locals) : Locals :=
  mkLocals id (l_pages l) (l_contents l) (l_outs l).
Definition with_pages (ps : list Page) (l : Locals) : Locals :=
  mkLocals (l_domainInfoId l) ps (l_contents l) (l_outs l).
Definition with_contents (cs : list (option string)) (l : Locals) : Locals :=
  mkLocals (l_domainInfoId l) (l_pages l) cs (l_outs l).
Definition with_outs (os : list (option json)) (l : Locals) : Locals :=
  mkLocals (l_domainInfoId l) (l_pages l) (l_contents l) os.

(** Resume a suspended [processJob] call: the answer of the awaited call is
    read from [svc]; the result is the new state and the next [await], if
    any. Every branch mirrors the source between two [await]s. *)
Definition resume_worker (jid : string) (l : Locals) (s : Stage) (st : State)
  : State * option Thread :=
  match heap st !! jid with
  | None => (st, None)
  | Some j =>
  match s with
  | W_Status =>
      let st1 := if updateJobStatus_ok svc jid Processing
                 then add_db (DbJobStatus jid Processing) st
                 else add_log "Error updating job status" st in
      (st1, Some (Worker jid l W_CanResume))
  | W_CanResume =>
      match canResumeJob svc jid with
      | None => reject jid st
      | Some _ =>
          (emit_job_update jid (set_pm jid 10 "Discovering pages" st),
           Some (Worker jid l W_Select))
      end
  | W_Select =>
      match query_select_domain svc (domain j) with
      | None => (add_log "[JOB] Error creating domain_info entry" st, Some (Worker jid l W_Discover))
      | Some (Some id) => (st, Some (Worker jid (with_domainInfoId (Some id) l) W_Discover))
      | Some None => (st, Some (Worker jid l W_Insert))
      end
  | W_Insert =>
      match query_insert_domain svc (domain j) with
      | None => (add_log "[JOB] Error creating domain_info entry" st, Some (Worker jid l W_Discover))
      | Some id => (add_db (DbDomainInsert (domain j) id) st,
                    Some (Worker jid (with_domainInfoId (Some id) l) W_Discover))
      end
  | W_Discover =>
      match discoverPages svc (domain j) (depth j) jid (discover_options j) with
      | None => reject jid st
      | Some [] =>
          (emit_job_update jid (set_pm jid 90 "Saving minimal results" st),
           Some (Worker jid (with_pages [] l) (W_MinSave (minimalResults (domain j)))))
      | Some pages =>
          (emit_job_update jid (set_pm jid 30 "Extracting content" st),
           Some (Worker jid (with_pages pages l) (W_Page 0)))
      end
  | W_MinSave r =>
      if saveResults_ok svc jid r
      then (complete_fields jid "Scrape completed with minimal results" (add_db (DbResults jid r) st),
            Some (Worker jid l W_MinDone))
      else reject jid (add_log "[JOB] Error saving minimal results" st)
  | W_MinDone =>
      if updateJobStatus_ok svc jid Complete
      then (finish_job jid (add_db (DbJobStatus jid Complete) st), None)
      else reject jid (add_log "[JOB] Error saving minimal results" st)
  | W_Page i =>
      match l_pages l !! i with
      | None => (st, None)
      | Some p =>
          match extractPageContent svc (url p) with
          | None => reject jid st
          | Some c =>
              let contents := l_contents l ++ [c] in
              let n := length (l_pages l) in
              let k := length contents in
              (* Math.min(30 + Math.floor((k / n) * 30), 60), read over the rationals *)
              let st1 := upd_job jid (job_with_progress (Nat.min (30 + (k * 30) / n) 60)) st in
              let st2 := emit_job_update_msg jid
                           ("Extracted content from " ++ nat_to_string k ++ " of "
                            ++ nat_to_string n ++ " pages") st1 in
              let l' := with_contents contents l in
              if S i <? n then (st2, Some (Worker jid l' (W_Page (S i))))
              else (emit_job_update jid (set_pm jid 60 "Extracting detailed information" st2),
                    Some (Worker jid l' (W_Extract 0)))
          end
      end
  | W_Extract k =>
      match extractor_order !! k with
      | None => (st, None)
      | Some e =>
          (* each call sits in its own try/catch: a throw leaves the variable null *)
          let out := extract svc e (pages_with_content (l_pages l) (l_contents l)) in
          let st1 := match out with
                     | None => add_log "[JOB] Error extracting data" st
                     | Some _ => st
                     end in
          let l' := with_outs (l_outs l ++ [out]) l in
          if S k <? length extractor_order then (st1, Some (Worker jid l' (W_Extract (S k))))
          else
            let st2 := emit_job_update jid (set_pm jid 80 "Building final results" st1) in
            let r := assemble_results (domain j) (length (l_pages l)) (l_outs l') in
            match l_domainInfoId l with
            | Some (S id') => (st2, Some (Worker jid l' (W_StoreData r)))
            | _ => (complete_fields jid "Scrape completed" st2, Some (Worker jid l' W_Done))
            end
      end
  | W_StoreData r =>
      let id := match l_domainInfoId l with Some id => id | None => 0 end in
      let st1 := if query_update_data_ok svc id r then add_db (DbDomainData id r) st
                 else add_log "[JOB] Error storing website data" st in
      (complete_fields jid "Scrape completed" st1, Some (Worker jid l W_Done))
  | W_Done =>
      if updateJobStatus_ok svc jid Complete
      then (finish_job jid (add_db (DbJobStatus jid Complete) st), None)
      else reject jid st
  end
  end.

(** [jobQueue[p].findIndex(job => job.jobId === jobId)] and [splice(index, 1)]. *)
Fixpoint remove_first (jid : string) (q : list string) : option (list string) :=
  match q with
  | [] => None
  | x :: q' =>
      if String.eqb x jid then Some q'
      else match remove_first jid q' with Some r => Some (x :: r) | None => None end
  end.

Definition cancel_write (jid : string) (st : State) : State :=
  if updateJobStatus_ok svc jid Cancelled then add_db (DbJobStatus jid Cancelled) st
  else add_log "Error cancelling job" st.

(** [cancelJob]. The active branch mutates the job, then awaits its status
    write: the rest runs when the [CancelActive] thread resumes. The other
    branches have nothing left to do after their single [await]. *)
Definition cancelJob (jid : string) (st : State) : State :=
  if bool_decide (jid ∈ activeJobs st) then
    spawn (CancelActive jid)
      (upd_job jid (fun j => job_with_message "Job cancelled by user"
                               (job_with_progress 0 (job_with_status Cancelled j))) st)
  else
    match remove_first jid (q_high st) with
    | Some qh => cancel_write jid (with_queues qh (q_normal st) (q_low st) st)
    | None =>
    match remove_first jid (q_normal st) with
    | Some qn => cancel_write jid (with_queues (q_high st) qn (q_low st) st)
    | None =>
    match remove_first jid (q_low st) with
    | Some ql => cancel_write jid (with_queues (q_high st) (q_normal st) ql st)
    | None => cancel_write jid st
    end
    end
    end.

(** Rest of [cancelJob] for an active job. *)
Definition resume_cancel (jid : string) (st : State) : State :=
  if updateJobStatus_ok svc jid Cancelled then
    let st1 := add_db (DbJobStatus jid Cancelled) st in
    let st2 := with_active (map_delete jid (activeJobs st1)) st1 in
    let st3 := with_completed (map_set jid (completedJobs st2)) st2 in
    processNextJob st3
  else add_log "Error cancelling job" st.

Definition resume (t : Thread) (st : State) : State * option Thread :=
  match t with
  | Worker jid l s => resume_worker jid l s st
  | CancelActive jid => (resume_cancel jid st, None)
  end.

(** Resume the [i]-th suspended call. *)
Definition run_thread (i : nat) (st : State) : State :=
  match threads st !! i with
  | None => st
  | Some t =>
      let st0 := with_threads (delete i (threads st)) st in
      match resume t st0 with
      | (st1, Some t') => spawn t' st1
      | (st1, None) => st1
      end
  end.

(** [init]: pending jobs found [processing] are reset to [queued]. *)
Definition normalize_pending (j : Job) : Job :=
  if decide (status j = Processing) then job_with_status Queued j else j.

Definition enqueue_pending (st : State) (j : Job) : State :=
  let j' := normalize_pending j in
  push_tier (priority j') (jobId j') (with_heap (<[jobId j' := j']> (heap st)) st).

Definition init (pending : option (list Job)) : State :=
  match pending with
  | Some js => processNextJob (foldl enqueue_pending empty_state js)
  | None => processNextJob (add_log "Error initializing scrape manager" empty_state)
  end.

(** One scheduler step: a submission (the caller creates the job
    [queued], with a fresh id), a cancellation, or the resumption of a
    suspended call. *)
Inductive step : State -> State -> Prop :=
  | step_submit (j : Job) (st : State) :
      status j = Queued -> heap st !! jobId j = None -> step st (fst (queueJob j st))
  | step_cancel (jid : string) (st : State) : step st (cancelJob jid st)
  | step_resume (i : nat) (st : State) : i < length (threads st) -> step st (run_thread i st).

Definition reachable (st : State) : Prop :=
  ∃ pending : option (list Job),
    (match pending with Some js => NoDup (map jobId js) | None => True end) ∧
    rtc step (init pending) st.

(** Run the worker of [jid] alone until it returns or rejects. *)
Fixpoint find_worker (jid : string) (ts : list Thread) (i : nat) : option nat :=
  match ts with
  | [] => None
  | Worker jid' _ _ :: ts' => if String.eqb jid jid' then Some i else find_worker jid ts' (S i)
  | CancelActive _ :: ts' => find_worker jid ts' (S i)
  end.

Fixpoint run_job (fuel : nat) (jid : string) (st : State) : State :=
  match fuel with
  | 0 => st
  | S f =>
      match find_worker jid (threads st) 0 with
      | None => st
      | Some i => run_job f jid (run_thread i st)
      end
  end.

Definition add_trace (tr : list Stage) (r : State * list Stage) : State * list Stage :=
  (fst r, tr ++ snd r).

(** Resume the suspended calls of one [processJob] one after the other,
    with no other step in between; the stages resumed are recorded. *)
Fixpoint run_worker (fuel : nat) (jid : string) (l : Locals) (s : Stage) (st : State)
  : State * list Stage :=
  match fuel with
  | 0 => (st, [])
  | S f =>
      match resume_worker jid l s st with
      | (st1, Some (Worker jid' l' s')) => add_trace [s] (run_worker f jid' l' s' st1)
      | (st1, _) => (st1, [s])
      end
  end.

End Scheduler.

(** ** Status queries *)

(** [getJobStatus]: [activeJobs], then [completedJobs], then
    [domainDataRepository.getJobStatus(jobId)]. [store jid] is the
    repository's answer, [None] when it throws (the call then throws
    [Failed to get job status]); [Some None] is a null answer. *)
Definition getJobStatus (store : string -> option (option Job)) (jid : string) (st : State)
  : option (option Job) :=
  if bool_decide (jid ∈ activeJobs st) then Some (heap st !! jid)
  else if bool_decide (jid ∈ completedJobs st) then Some (heap st !! jid)
  else store jid.

(** ** The discovery engine's cooldown *)

(** Modelled from the spec: the discovery engine is not part of this
    repository. Its documented re-crawl cooldown: when the domain was
    crawled [age] minutes ago with [age < cooldownMinutes] and
    [bypassCooldown] is false, discovery yields the stored page set of that
    crawl (possibly empty) instead of crawling; otherwise it yields the
    fresh crawl. [last_crawl] is [Some (age, stored)] for a crawled domain. *)
Definition discover_spec (last_crawl : option (nat * list Page)) (fresh : list Page)
  (opts : DiscoverOptions) : list Page :=
  match last_crawl with
  | Some (age, stored) =>
      if (age <? cooldownMinutes opts) && negb (bypassCooldown opts) then stored else fresh
  | None => fresh
  end.

(** What the page loop of [processJob] collects for [pages]. *)
Definition contents_of (svc : Services) (pages : list Page) : list (option string) :=
  map (fun p => match extractPageContent svc (url p) with Some c => c | None => None end) pages.

(** The extractors' outcomes on [pcs], in [extractor_order]. *)
Definition outs_of (svc : Services) (pcs : list PageContent) (es : list Extractor) : list (option json) :=
  map (fun e => extract svc e pcs) es.

(** Between two stages of the worker of [jid]: the queue, [activeJobs],
    [completedJobs] and the repository are as in [st0], and the job object
    of [jid] is present with domain [d]. *)
Definition stage_frame (jid d : string) (st0 st : State) : Prop :=
  q_high st = q_high st0 ∧ q_normal st = q_normal st0 ∧ q_low st = q_low st0 ∧
  activeJobs st = activeJobs st0 ∧ completedJobs st = completedJobs st0 ∧ db st = db st0 ∧
  ∃ j, heap st !! jid = Some j ∧ domain j = d.

(** ** Concrete configurations used by the examples below *)

Definition ex_job (id : string) (p : Priority) : Job :=
  mkJob id ("www." ++ id ++ ".com") 1 p None Queued 0 "".

(** Services under which every call succeeds; discovery returns [pages],
    extractor [e] answers [ex e], and [updateJobStatus(_, 'complete')]
    answers [complete_ok]. *)
Definition ex_services (pages : list Page) (ex : Extractor -> option json)
  (complete_ok : bool) : Services :=
  mkServices (Some (fun _ _ _ => true)) (fun _ => true)
    (fun _ s => match s with Complete => complete_ok | _ => true end)
    (fun _ => Some false) (fun _ => Some (Some 7)) (fun _ => Some 7) (fun _ _ => true)
    (fun _ _ _ _ => Some pages) (fun _ => Some (Some "<html></html>")) (fun e _ => ex e)
    (fun _ _ => true).

Definition ex_pages : list Page := [mkPage "https://a.example/" None; mkPage "https://a.example/b" None].

Definition ex_all_ok : Extractor -> option json := fun _ => Some (JObj [("found", JBool true)]).

(** Job ids in the order [processJob] started them (its first status write). *)
Definition started_jobs (st : State) : list string :=
  omap (fun o => match o with DbJobStatus id Processing => Some id | _ => None end) (db st).

(** H1 (high), N1 (normal), H2 (high) submitted with one slot; every job then
    runs to its end. *)
Definition ex_priority_run : State :=
  let svc := ex_services ex_pages ex_all_ok true in
  let st1 := fst (queueJob svc 1 (ex_job "H1" High) empty_state) in
  let st2 := fst (queueJob svc 1 (ex_job "N1" Normal) st1) in
  let st3 := fst (queueJob svc 1 (ex_job "H2" High) st2) in
  let st4 := run_job svc 1 100 "H1" st3 in
  let st5 := run_job svc 1 100 "H2" st4 in
  run_job svc 1 100 "N1" st5.

(** Job J runs up to its first progress event, is cancelled, the cancel
    completes, and the worker carries on. *)
Definition ex_cancel_svc : Services := ex_services ex_pages ex_all_ok true.
Definition ex_cancel_before : State :=
  run_thread ex_cancel_svc 1 0
    (run_thread ex_cancel_svc 1 0 (fst (queueJob ex_cancel_svc 1 (ex_job "J" Normal) empty_state))).
Definition ex_cancel_after : State :=
  run_thread ex_cancel_svc 1 1 (cancelJob ex_cancel_svc "J" ex_cancel_before).
Definition ex_cancel_end : State := run_job ex_cancel_svc 1 100 "J" ex_cancel_after.

(** Job J whose final status write fails, with job K queued behind it. *)
Definition ex_fail_svc : Services := ex_services ex_pages ex_all_ok false.
Definition ex_fail_run : State :=
  let st1 := fst (queueJob ex_fail_svc 1 (ex_job "J" Normal) empty_state) in
  let st2 := fst (queueJob ex_fail_svc 1 (ex_job "K" Normal) st1) in
  run_job ex_fail_svc 1 100 "J" st2.

(** H1, H2 queued high and N1 queued normal, nothing running. *)
Definition ex_queued : State := with_queues ["H1"; "H2"] ["N1"] [] empty_state.

(** From an empty store, J then K submitted with one slot: J is
    processing, K waits in the normal tier. *)
Definition ex_two : State :=
  fst (queueJob ex_cancel_svc 1 (ex_job "K" Normal)
    (fst (queueJob ex_cancel_svc 1 (ex_job "J" Normal) (init 1 (Some []))))).

(** Discovery finds no page; J is submitted with one slot and its worker
    runs until it awaits [discoverPages]. *)
Definition ex_empty_svc : Services := ex_services [] ex_all_ok true.
Definition ex_empty_start : State :=
  Nat.iter 3 (run_thread ex_empty_svc 1 0)
    (fst (queueJob ex_empty_svc 1 (ex_job "J" Normal) empty_state)).

(** Two pages are discovered and every call succeeds except the colour
    extractor, which throws; J's worker runs until it awaits
    [discoverPages]. *)
Definition ex_colors_throw : Extractor -> option json :=
  fun e => match e with ColorEx => None | _ => ex_all_ok e end.
Definition ex_one_fail_svc : Services := ex_services ex_pages ex_colors_throw true.
Definition ex_one_fail_start : State :=
  Nat.iter 3 (run_thread ex_one_fail_svc 1 0)
    (fst (queueJob ex_one_fail_svc 1 (ex_job "J" Normal) empty_state)).

(** As above, but the general extractor returns [null] instead of its
    section; J runs from submission to its end. *)
Definition ex_null_general : Extractor -> option json :=
  fun e => match e with ColorEx => None | GeneralEx => Some JNull | _ => ex_all_ok e end.
Definition ex_null_svc : Services := ex_services ex_pages ex_null_general true.
Definition ex_null_run : State :=
  run_job ex_null_svc 1 100 "J" (fst (queueJob ex_null_svc 1 (ex_job "J" Normal) empty_state)).

(** Two slots, J submitted: J is processing and one slot is free. *)
Definition ex_free : State :=
  fst (queueJob ex_cancel_svc 2 (ex_job "J" Normal) (init 2 (Some []))).

(** One slot: J is submitted and runs to its end, then K is submitted. *)
Definition ex_done : State :=
  run_job ex_cancel_svc 1 100 "J"
    (fst (queueJob ex_cancel_svc 1 (ex_job "J" Normal) (init 1 (Some [])))).
Definition ex_done_next : State := fst (queueJob ex_cancel_svc 1 (ex_job "K" Normal) ex_done).

(** As [ex_cancel_svc], but [updateJobStatus(_, 'cancelled')] throws. *)
Definition ex_cancel_fail_svc : Services :=
  mkServices (Some (fun _ _ _ => true)) (fun _ => true)
    (fun _ s => match s with Cancelled => false | _ => true end)
    (fun _ => Some false) (fun _ => Some (Some 7)) (fun _ => Some 7) (fun _ _ => true)
    (fun _ _ _ _ => Some ex_pages) (fun _ => Some (Some "<html></html>")) (fun e _ => ex_all_ok e)
    (fun _ _ => true).

(** Services whose [saveJob] throws. *)
Definition ex_save_fail_svc : Services :=
  mkServices None (fun _ => false) (fun _ _ => true) (fun _ => Some false)
    (fun _ => Some None) (fun _ => Some 1) (fun _ _ => true) (fun _ _ _ _ => Some [])
    (fun _ => Some None) (fun _ _ => None) (fun _ _ => true).

(** ** Auxiliary predicates of the proofs *)

Definition start_all (h : gmap string Job) (ps : list string) : gmap string Job :=
  foldl (fun h k => alter (job_with_status Processing) k h) h ps.

(** Only the job [jid] changes, and its status either stays or becomes
    [Complete]; the scheduling structures are untouched. *)
Definition local_effect (jid : string) (st st' : State) : Prop :=
  q_high st' = q_high st ∧ q_normal st' = q_normal st ∧ q_low st' = q_low st ∧
  activeJobs st' = activeJobs st ∧ completedJobs st' = completedJobs st ∧
  threads st' = threads st ∧
  (∀ k, k ≠ jid -> heap st' !! k = heap st !! k) ∧
  match heap st !! jid, heap st' !! jid with
  | Some j, Some j' => status j' = status j ∨ status j' = Complete
  | None, None => True
  | _, _ => False
  end.

(** A suspended call whose resumption removes its job from [activeJobs]. *)
Definition deletes_on_resume (t : Thread) : bool :=
  match t with
  | Worker _ _ W_Done | Worker _ _ W_MinDone | CancelActive _ => true
  | _ => false
  end.

(** What the invariant needs of the call a resumption suspends on. *)
Definition next_ok (jid : string) (st : State) (o : option Thread) : Prop :=
  match o with
  | None => True
  | Some t' => thread_jid t' = jid ∧
      (deletes_on_resume t' = true -> ∀ j', heap st !! jid = Some j' -> status j' ≠ Processing)
  end.

Record Inv (L : nat) (st : State) : Prop := {
  inv_active_nodup : NoDup (activeJobs st);
  inv_active_len : length (activeJobs st) <= L;
  inv_queue_nodup : NoDup (queue_ids st);
  inv_queue_active : ∀ k, k ∈ queue_ids st -> k ∉ activeJobs st;
  inv_processing : ∀ k j, heap st !! k = Some j -> status j = Processing -> k ∈ activeJobs st;
  inv_queue_heap : ∀ k, k ∈ queue_ids st -> is_Some (heap st !! k);
  inv_active_heap : ∀ k, k ∈ activeJobs st -> is_Some (heap st !! k);
  inv_thread_heap : ∀ t, t ∈ threads st -> is_Some (heap st !! thread_jid t);
  inv_thread_queue : ∀ t, t ∈ threads st -> thread_jid t ∉ queue_ids st;
  inv_thread_del : ∀ t j, t ∈ threads st -> deletes_on_resume t = true ->
    heap st !! thread_jid t = Some j -> status j ≠ Processing
}.

(** The jobs whose status is [processing]. *)
Definition processing_jobs (st : State) : gmap string Job :=
  filter (fun kj : string * Job => status kj.2 = Processing) (heap st).

(** [jid] is known, off the queue, off [activeJobs], and has no suspended
    call left. *)
Definition settled (jid : string) (st : State) : Prop :=
  (jid ∉ queue_ids st) ∧ (jid ∉ activeJobs st) ∧
  (∀ t, t ∈ threads st -> thread_jid t ≠ jid) ∧ is_Some (heap st !! jid).

(** The completed-job cache: its jobs are known, and none of them is
    queued or active. *)
Record CInv (st : State) : Prop := {
  cinv_heap : ∀ k, k ∈ completedJobs st -> is_Some (heap st !! k);
  cinv_queue : ∀ k, k ∈ completedJobs st -> k ∉ queue_ids st;
  cinv_active : ∀ k, k ∈ completedJobs st -> k ∉ activeJobs st
}.

(** ** [extractContent] *)

(** The extractor modules [extractContent] calls, in its order. *)
Inductive ContentExtractor :=
  | CE_general | CE_blog | CE_enhancedImage | CE_color | CE_socialMedia
  | CE_video | CE_isbn | CE_app | CE_podcast.

(** [extractors.includes(x)] *)
Definition includes (xs : list string) (x : string) : bool := existsb (String.eqb x) xs.

(** Property read [v.k]: throws on [null]/[undefined], [undefined] when
    the property is absent. *)
Definition jprop (k : string) (v : json) : option json :=
  match v with
  | JNull => None
  | JObj fs => Some (match jget k fs with Some x => x | None => JNull end)
  | _ => Some JNull
  end.

Section ExtractContent.

Context {Pages : Type}.
(** [run ce pages]: the awaited [extract(pages)] of module [ce]; [None]
    when it throws. *)
Variable run : ContentExtractor -> Pages -> option json.

(** [if (extractors.includes(name)) results.key = await ce.extract(pages)] *)
Definition extract_if (b : bool) (ce : ContentExtractor) (key : string) (pages : Pages)
  (r : list (string * json)) : option (list (string * json)) :=
  if b then
    match run ce pages with
    | Some v => Some (r ++ [(key, v)])
    | None => None
    end
  else Some r.

(** [extractContent(domain, pages, extractors)]: the fields of [results] in
    insertion order; [None] when the call throws (the [catch] logs and
    rethrows). *)
Definition extractContent (domain : string) (pages : Pages) (extractors : list string)
  : option json :=
  r1 ← extract_if (includes extractors "general") CE_general "general" pages [("domain", JStr domain)];
  r2 ← extract_if (includes extractors "blog") CE_blog "blog" pages r1;
  r3 ← extract_if (includes extractors "images") CE_enhancedImage "images" pages r2;
  r4 ← extract_if (includes extractors "colors") CE_color "colors" pages r3;
  r5 ← extract_if (includes extractors "social") CE_socialMedia "socialMedia" pages r4;
  r6 ← extract_if (includes extractors "videos") CE_video "videos" pages r5;
  r7 ← (if includes extractors "isbn" then
          isbnData ← run CE_isbn pages;
          isbns ← jprop "isbns" isbnData;
          images ← jprop "images" isbnData;
          Some (r6 ++ [("isbnData", isbns); ("isbnImages", images)])
        else Some r6);
  r8 ← extract_if (includes extractors "apps") CE_app "apps" pages r7;
  r9 ← extract_if (includes extractors "rss" || includes extractors "podcast") CE_podcast
         "podcastInfo" pages r8;
  Some (JObj r9).

End ExtractContent.

(** Per module, read off [extractContent]: whether the call asks for it,
    and the keys it sets. *)
Definition ce_requested (es : list string) (ce : ContentExtractor) : bool :=
  match ce with
  | CE_general => includes es "general"
  | CE_blog => includes es "blog"
  | CE_enhancedImage => includes es "images"
  | CE_color => includes es "colors"
  | CE_socialMedia => includes es "social"
  | CE_video => includes es "videos"
  | CE_isbn => includes es "isbn"
  | CE_app => includes es "apps"
  | CE_podcast => includes es "rss" || includes es "podcast"
  end.

Definition ce_key (ce : ContentExtractor) : string :=
  match ce with
  | CE_general => "general" | CE_blog => "blog" | CE_enhancedImage => "images"
  | CE_color => "colors" | CE_socialMedia => "socialMedia" | CE_video => "videos"
  | CE_isbn => "isbnData" | CE_app => "apps" | CE_podcast => "podcastInfo"
  end.

Definition ce_keys (ce : ContentExtractor) : list string :=
  match ce with CE_isbn => ["isbnData"; "isbnImages"] | _ => [ce_key ce] end.

Definition ce_order : list ContentExtractor :=
  [CE_general; CE_blog; CE_enhancedImage; CE_color; CE_socialMedia; CE_video; CE_isbn;
   CE_app; CE_podcast].

(** One module's block of [extractContent], and the blocks in order. *)
Definition ce_step {P} (run : ContentExtractor -> P -> option json) (pages : P)
  (es : list string) (r : list (string * json)) (ce : ContentExtractor)
  : option (list (string * json)) :=
  if ce_requested es ce then
    match ce with
    | CE_isbn =>
        isbnData ← run CE_isbn pages;
        isbns ← jprop "isbns" isbnData;
        images ← jprop "images" isbnData;
        Some (r ++ [("isbnData", isbns); ("isbnImages", images)])
    | _ => v ← run ce pages; Some (r ++ [(ce_key ce, v)])
    end
  else Some r.

Fixpoint ce_run {P} (run : ContentExtractor -> P -> option json) (pages : P)
  (es : list string) (ces : list ContentExtractor) (r : list (string * json)) : option json :=
  match ces with
  | [] => Some (JObj r)
  | ce :: ces' => r' ← ce_step run pages es r ce; ce_run run pages es ces' r'
  end.

(** ** A run with a cancellation against the same run without it *)

(** Two job objects that differ at most in status, progress and message. *)
Definition same_job_but_fields (j1 j2 : Job) : Prop :=
  jobId j1 = jobId j2 ∧ domain j1 = domain j2 ∧ depth j1 = depth j2 ∧
  priority j1 = priority j2 ∧ maxPages j1 = maxPages j2.

(** The job object [j1] of the run with the cancellation against [j2] of
    the run without it: the same object, or one whose status, progress and
    message may still differ while [j2] is not complete. *)
Definition cancel_rel_job (j1 j2 : Job) : Prop :=
  j1 = j2 ∨ (same_job_but_fields j1 j2 ∧ status j2 ≠ Complete).

(** Two published events that differ at most in the payload's status,
    progress and message. *)
Definition same_event_but_payload (e1 e2 : Event) : Prop :=
  ev_room e1 = ev_room e2 ∧ ev_name e1 = ev_name e2 ∧ p_jobId (ev_data e1) = p_jobId (ev_data e2).

(** The publisher's answer (delivered or thrown) does not depend on the
    payload. *)
Definition publisher_ignores_payload (svc : Services) : Prop :=
  ∀ emit, io svc = Some emit -> ∀ rm ev d d', emit rm ev d = emit rm ev d'.

(** [st1] is [st2] with the active job [jid] cancelled: the queues,
    [activeJobs], [completedJobs], the repository and the rejections are the
    same, the cancellation's status write is one more suspended call, the
    other job objects are the same and the one of [jid] is related by
    [cancel_rel_job]; with [pub], the logs are the same and the published
    events differ at most in their payloads' status, progress and message. *)
Record cancel_sim (jid : string) (pub : bool) (st1 st2 : State) : Prop := {
  cs_high : q_high st1 = q_high st2;
  cs_normal : q_normal st1 = q_normal st2;
  cs_low : q_low st1 = q_low st2;
  cs_active : activeJobs st1 = activeJobs st2;
  cs_completed : completedJobs st1 = completedJobs st2;
  cs_db : db st1 = db st2;
  cs_rejected : rejected st1 = rejected st2;
  cs_threads : ∃ t1 t2, threads st2 = t1 ++ t2 ∧ threads st1 = t1 ++ CancelActive jid :: t2;
  cs_heap_other : ∀ k, k ≠ jid -> heap st1 !! k = heap st2 !! k;
  cs_heap_jid : option_Forall2 cancel_rel_job (heap st1 !! jid) (heap st2 !! jid);
  cs_out : pub = true ->
    Forall2 same_event_but_payload (events st1) (events st2) ∧ logs st1 = logs st2
}.

(** ** Frame lemmas *)

(** Fields of the state other than the event and log outputs. *)
Definition frame (st st' : State) : Prop :=
  heap st' = heap st ∧ q_high st' = q_high st ∧ q_normal st' = q_normal st ∧
  q_low st' = q_low st ∧ activeJobs st' = activeJobs st ∧
  completedJobs st' = completedJobs st ∧ threads st' = threads st ∧ db st' = db st ∧
  rejected st' = rejected st.

Lemma frame_refl st : frame st st.
Proof. repeat split. Qed.

Lemma emitSocketEvent_frame svc rm ev d st : frame st (emitSocketEvent svc rm ev d st).
Proof.
  unfold emitSocketEvent. destruct (io svc) as [emit|]; [|apply frame_refl].
  destruct (emit rm ev d); repeat split.
Qed.

Lemma emit_job_update_msg_frame svc jid m st : frame st (emit_job_update_msg svc jid m st).
Proof.
  unfold emit_job_update_msg. destruct (heap st !! jid); [apply emitSocketEvent_frame|apply frame_refl].
Qed.

Lemma emit_job_update_frame svc jid st : frame st (emit_job_update svc jid st).
Proof.
  unfold emit_job_update. destruct (heap st !! jid); [apply emit_job_update_msg_frame|apply frame_refl].
Qed.

(** ** Dispatch order *)

Lemma processJob_start_active jid st :
  activeJobs (processJob_start jid st) = map_set jid (activeJobs st).
Proof. reflexivity. Qed.

Lemma map_set_fresh k ks : k ∉ ks -> map_set k ks = ks ++ [k].
Proof. intros H. unfold map_set. case_bool_decide; [contradiction|done]. Qed.

Lemma processNextJob_fuel_S L f st :
  processNextJob_fuel L (S f) st =
  if L <=? length (activeJobs st) then st
  else match pop_next st with
       | None => st
       | Some (jid, st1) =>
           if length (activeJobs (processJob_start jid st1)) <? L
           then processNextJob_fuel L f (processJob_start jid st1)
           else processJob_start jid st1
       end.
Proof. reflexivity. Qed.

Lemma pop_next_None st :
  pop_next st = None -> q_high st = [] ∧ q_normal st = [] ∧ q_low st = [].
Proof. unfold pop_next. by destruct (q_high st), (q_normal st), (q_low st). Qed.

(** [pop_next] takes the head of the first non-empty tier. *)
Lemma pop_next_Some st jid st1 :
  pop_next st = Some (jid, st1) ->
  activeJobs st1 = activeJobs st ∧ heap st1 = heap st ∧ threads st1 = threads st ∧
  ((q_high st = jid :: q_high st1 ∧ q_normal st1 = q_normal st ∧ q_low st1 = q_low st) ∨
   (q_high st = [] ∧ q_high st1 = [] ∧ q_normal st = jid :: q_normal st1 ∧ q_low st1 = q_low st) ∨
   (q_high st = [] ∧ q_normal st = [] ∧ q_high st1 = [] ∧ q_normal st1 = [] ∧
    q_low st = jid :: q_low st1)).
Proof.
  unfold pop_next.
  destruct (q_high st) eqn:Hh, (q_normal st) eqn:Hn, (q_low st) eqn:Hl;
    intros H; inversion H; subst; simpl; eauto 10.
Qed.

Lemma pop_next_queue_ids st jid st1 :
  pop_next st = Some (jid, st1) -> queue_ids st = jid :: queue_ids st1.
Proof.
  intros Hp. destruct (pop_next_Some _ _ _ Hp) as (_ & _ & _ & Hc). unfold queue_ids.
  destruct Hc as [(-> & -> & ->)|[(-> & -> & -> & ->)|(-> & -> & -> & -> & ->)]]; done.
Qed.

Lemma processJob_start_queues jid st :
  q_high (processJob_start jid st) = q_high st ∧ q_normal (processJob_start jid st) = q_normal st ∧
  q_low (processJob_start jid st) = q_low st.
Proof. done. Qed.

Lemma drop_cons_pred {A} m (x : A) (l : list A) : 0 < m -> drop m (x :: l) = drop (m - 1) l.
Proof. intros H. destruct m; [lia|]. simpl. by rewrite Nat.sub_0_r. Qed.

Lemma processNextJob_fuel_prefix L f st :
  length (queue_ids st) < f ->
  NoDup (queue_ids st) ->
  (∀ k, k ∈ queue_ids st -> k ∉ activeJobs st) ->
  let n := L - length (activeJobs st) in
  let ps := take n (queue_ids st) in
  let st' := processNextJob_fuel L f st in
  activeJobs st' = activeJobs st ++ ps ∧
  q_high st' = drop n (q_high st) ∧
  q_normal st' = drop (n - length (q_high st)) (q_normal st) ∧
  q_low st' = drop (n - length (q_high st) - length (q_normal st)) (q_low st) ∧
  heap st' = start_all (heap st) ps ∧
  threads st' = threads st ++ map (fun k => Worker k locals0 W_Status) ps ∧
  completedJobs st' = completedJobs st ∧ events st' = events st ∧ db st' = db st ∧
  logs st' = logs st ∧ rejected st' = rejected st.
Proof.
  revert st. induction f as [|f IH]; intros st Hlen Hnd Hdis n ps st'; [lia|].
  subst st' ps n. rewrite processNextJob_fuel_S.
  destruct (L <=? length (activeJobs st)) eqn:Hcap.
  { apply Nat.leb_le in Hcap. replace (L - length (activeJobs st)) with 0 by lia.
    simpl. rewrite !app_nil_r. repeat split. }
  apply Nat.leb_gt in Hcap.
  destruct (pop_next st) as [[jid st1]|] eqn:Hp.
  2:{ destruct (pop_next_None _ Hp) as (Hh & Hn & Hl). unfold queue_ids.
      rewrite Hh, Hn, Hl. simpl. rewrite take_nil, !app_nil_r, !drop_nil. repeat split. }
  pose proof (pop_next_queue_ids _ _ _ Hp) as Hq.
  destruct (pop_next_Some _ _ _ Hp) as (Ha1 & Hh1' & Ht1 & Hc).
  assert (Hrest : completedJobs st1 = completedJobs st ∧ events st1 = events st ∧
                  db st1 = db st ∧ logs st1 = logs st ∧ rejected st1 = rejected st).
  { revert Hp. unfold pop_next.
    destruct (q_high st), (q_normal st), (q_low st); intros H; inversion H; subst; repeat split. }
  destruct Hrest as (Hc1 & He1 & Hd1 & Hl1' & Hr1).
  rewrite Hq in Hlen, Hnd, Hdis |- *.
  assert (Hj : jid ∉ activeJobs st) by (apply Hdis; left).
  set (st2 := processJob_start jid st1).
  assert (Ha2 : activeJobs st2 = activeJobs st ++ [jid]).
  { subst st2. rewrite processJob_start_active, Ha1. by apply map_set_fresh. }
  assert (Hh2 : heap st2 = alter (job_with_status Processing) jid (heap st)) by (subst st2; simpl; by rewrite Hh1').
  assert (Ht2 : threads st2 = threads st ++ [Worker jid locals0 W_Status]) by (subst st2; simpl; by rewrite Ht1).
  assert (Hr2 : completedJobs st2 = completedJobs st ∧ events st2 = events st ∧
                db st2 = db st ∧ logs st2 = logs st ∧ rejected st2 = rejected st)
    by (subst st2; simpl; repeat split; done).
  destruct Hr2 as (Hc2' & He2 & Hd2 & Hl2 & Hrj2).
  destruct (processJob_start_queues jid st1) as (Hq1 & Hq2 & Hq3). fold st2 in Hq1, Hq2, Hq3.
  assert (Hm : L - length (activeJobs st) = S (L - length (activeJobs st2)) ∨
               (L - length (activeJobs st) = 1 ∧ L <= length (activeJobs st2))).
  { rewrite Ha2, length_app. simpl. lia. }
  destruct (length (activeJobs st2) <? L) eqn:Hc2.
  - apply Nat.ltb_lt in Hc2.
    assert (Hm' : L - length (activeJobs st) = S (L - length (activeJobs st2))) by (destruct Hm; lia).
    inversion Hnd as [|? ? Hn Hnd']; subst.
    destruct (IH st2) as (IH1 & IH2 & IH3 & IH4 & IH5 & IH6 & IH7 & IH8 & IH9 & IH10 & IH11).
    { unfold queue_ids in *. rewrite Hq1, Hq2, Hq3. simpl in Hlen. lia. }
    { unfold queue_ids in *. by rewrite Hq1, Hq2, Hq3. }
    { intros k Hk. unfold queue_ids in Hk. rewrite Hq1, Hq2, Hq3 in Hk. fold (queue_ids st1) in Hk.
      rewrite Ha2. intros Hk'. apply elem_of_app in Hk' as [Hk'|Hk'].
      - apply (Hdis k); [by right|done].
      - apply list_elem_of_singleton in Hk'. subst. done. }
    rewrite IH1, IH2, IH3, IH4, IH5, IH6, IH7, IH8, IH9, IH10, IH11, Hq1, Hq2, Hq3, Hm'.
    set (m := L - length (activeJobs st2)).
    rewrite Ha2, Hh2, Ht2, Hc2', He2, Hd2, Hl2, Hrj2.
    unfold queue_ids at 1 2 4. simpl take.
    split; [by rewrite <- app_assoc|].
    split; [|split; [|split; [|split; [done|split; [simpl; by rewrite <- app_assoc|done]]]]].
    all: destruct Hc as [(Hh & Hn1 & Hl1)|[(Hh & Hh1 & Hn1 & Hl1)|(Hh & Hn0 & Hh1 & Hn1 & Hl1)]];
      rewrite Hh; try rewrite Hn1; try rewrite Hn0; try rewrite Hh1; try rewrite Hl1; simpl;
      rewrite ?Nat.sub_0_r, ?drop_nil; done.
  - apply Nat.ltb_ge in Hc2.
    assert (Hm' : L - length (activeJobs st) = 1) by (destruct Hm as [Hm|Hm]; [lia|apply Hm]).
    rewrite Hm', Ha2, Hq1, Hq2, Hq3, Hh2, Ht2, Hc2', He2, Hd2, Hl2, Hrj2. simpl.
    split; [done|].
    split; [|split; [|split; [|split; [done|split; [done|repeat split]]]]].
    all: destruct Hc as [(Hh & Hn1 & Hl1)|[(Hh & Hh1 & Hn1 & Hl1)|(Hh & Hn0 & Hh1 & Hn1 & Hl1)]];
      rewrite Hh; try rewrite Hn1; try rewrite Hn0; try rewrite Hh1; try rewrite Hl1; simpl;
      rewrite ?drop_0, ?drop_nil; done.
Qed.

Lemma processNextJob_spec L st :
  NoDup (queue_ids st) ->
  (∀ k, k ∈ queue_ids st -> k ∉ activeJobs st) ->
  let n := L - length (activeJobs st) in
  let ps := take n (queue_ids st) in
  let st' := processNextJob L st in
  activeJobs st' = activeJobs st ++ ps ∧
  q_high st' = drop n (q_high st) ∧
  q_normal st' = drop (n - length (q_high st)) (q_normal st) ∧
  q_low st' = drop (n - length (q_high st) - length (q_normal st)) (q_low st) ∧
  heap st' = start_all (heap st) ps ∧
  threads st' = threads st ++ map (fun k => Worker k locals0 W_Status) ps ∧
  completedJobs st' = completedJobs st ∧ events st' = events st ∧ db st' = db st ∧
  logs st' = logs st ∧ rejected st' = rejected st.
Proof. intros. apply processNextJob_fuel_prefix; [lia|done|done]. Qed.

(** ** Effects of a worker between two awaits *)

Lemma local_refl jid st : local_effect jid st st.
Proof.
  split_and!; try done. destruct (heap st !! jid); [by left|done].
Qed.

Lemma local_trans jid st1 st2 st3 :
  local_effect jid st1 st2 -> local_effect jid st2 st3 -> local_effect jid st1 st3.
Proof.
  intros (A1 & A2 & A3 & A4 & A5 & A6 & A7 & A8) (B1 & B2 & B3 & B4 & B5 & B6 & B7 & B8).
  repeat split; try congruence.
  - intros k Hk. rewrite B7, A7; done.
  - destruct (heap st1 !! jid), (heap st2 !! jid), (heap st3 !! jid); try done.
    destruct A8 as [A8|A8], B8 as [B8|B8]; rewrite ?B8, ?A8; auto.
Qed.

Lemma frame_local jid st st' : frame st st' -> local_effect jid st st'.
Proof.
  intros (F1 & F2 & F3 & F4 & F5 & F6 & F7 & F8 & F9).
  split_and!; try congruence.
  rewrite F1. destruct (heap st !! jid); [by left|done].
Qed.

Lemma add_db_local jid o st : local_effect jid st (add_db o st).
Proof. exact (local_refl jid st). Qed.
Lemma add_log_local jid m st : local_effect jid st (add_log m st).
Proof. exact (local_refl jid st). Qed.
Lemma add_rejected_local jid st : local_effect jid st (add_rejected jid st).
Proof. exact (local_refl jid st). Qed.
Lemma emit_job_update_local svc jid k st : local_effect jid st (emit_job_update svc k st).
Proof. apply frame_local, emit_job_update_frame. Qed.
Lemma emit_job_update_msg_local svc jid k m st : local_effect jid st (emit_job_update_msg svc k m st).
Proof. apply frame_local, emit_job_update_msg_frame. Qed.

Lemma upd_job_local jid f st :
  (∀ j, status (f j) = status j ∨ status (f j) = Complete) ->
  local_effect jid st (upd_job jid f st).
Proof.
  intros Hf. repeat split; simpl.
  - intros k Hk. by rewrite lookup_alter_ne.
  - rewrite lookup_alter_eq. destruct (heap st !! jid); simpl; [apply Hf|done].
Qed.

Lemma set_pm_local jid p m st : local_effect jid st (set_pm jid p m st).
Proof. apply upd_job_local. intros. by left. Qed.
Lemma progress_local jid p st : local_effect jid st (upd_job jid (job_with_progress p) st).
Proof. apply upd_job_local. intros. by left. Qed.
Lemma complete_fields_local jid m st : local_effect jid st (complete_fields jid m st).
Proof. apply upd_job_local. intros. by right. Qed.

(** Close [local_effect jid st X] when [X] is a chain of local operations. *)
Ltac local_chain :=
  lazymatch goal with
  | |- local_effect ?jid ?st ?st => apply local_refl
  | |- local_effect ?jid ?st (emit_job_update ?svc ?k ?x) =>
      apply (local_trans jid st x); [local_chain|apply emit_job_update_local]
  | |- local_effect ?jid ?st (emit_job_update_msg ?svc ?k ?m ?x) =>
      apply (local_trans jid st x); [local_chain|apply emit_job_update_msg_local]
  | |- local_effect ?jid ?st (add_db ?o ?x) =>
      apply (local_trans jid st x); [local_chain|apply add_db_local]
  | |- local_effect ?jid ?st (add_log ?m ?x) =>
      apply (local_trans jid st x); [local_chain|apply add_log_local]
  | |- local_effect ?jid ?st (add_rejected ?jid ?x) =>
      apply (local_trans jid st x); [local_chain|apply add_rejected_local]
  | |- local_effect ?jid ?st (set_pm ?jid ?p ?m ?x) =>
      apply (local_trans jid st x); [local_chain|apply set_pm_local]
  | |- local_effect ?jid ?st (upd_job ?jid (job_with_progress ?p) ?x) =>
      apply (local_trans jid st x); [local_chain|apply progress_local]
  | |- local_effect ?jid ?st (complete_fields ?jid ?m ?x) =>
      apply (local_trans jid st x); [local_chain|apply complete_fields_local]
  | |- local_effect ?jid ?st (if ?b then _ else _) => destruct b; local_chain
  | |- local_effect ?jid ?st (match ?o with _ => _ end) => destruct o; local_chain
  end.

Lemma local_present jid st st' :
  local_effect jid st st' -> is_Some (heap st !! jid) -> is_Some (heap st' !! jid).
Proof.
  intros (_ & _ & _ & _ & _ & _ & _ & H) [j Hj]. rewrite Hj in H.
  destruct (heap st' !! jid); [eauto|done].
Qed.

Lemma complete_fields_status jid m st j :
  heap (complete_fields jid m st) !! jid = Some j -> status j = Complete.
Proof.
  unfold complete_fields, upd_job. simpl. rewrite lookup_alter_eq.
  destruct (heap st !! jid); simpl; intros H; inversion H; done.
Qed.

(** Each resumption of a worker is either a local step of its job (after
    which the next suspended call belongs to the same job, and a call about
    to leave [activeJobs] has a completed job), or the completion tail. *)
Lemma resume_worker_cases svc L jid l s st :
  let r := resume_worker svc L jid l s st in
  (local_effect jid st (fst r) ∧ next_ok jid (fst r) (snd r)) ∨
  ((s = W_Done ∨ s = W_MinDone) ∧ snd r = None ∧
   fst r = finish_job svc L jid (add_db (DbJobStatus jid Complete) st)).
Proof.
  intros r. subst r. unfold resume_worker.
  destruct (heap st !! jid) as [j|] eqn:Hj.
  2:{ left. split; [apply local_refl|done]. }
  destruct s; repeat case_match; cbn [fst snd reject];
    try (right; split; [auto|split; done]);
    left; (split; [local_chain|]); unfold next_ok;
    try done; try (split; [done|discriminate]);
    (split; [done|]); intros _ j' Hj'; apply complete_fields_status in Hj'; by rewrite Hj'.
Qed.

(** ** The scheduling invariant *)

Lemma Inv_eq L st st' :
  heap st' = heap st -> queue_ids st' = queue_ids st -> activeJobs st' = activeJobs st ->
  threads st' = threads st -> Inv L st -> Inv L st'.
Proof.
  intros Hh Hq Ha Ht []. constructor; rewrite ?Hh, ?Hq, ?Ha, ?Ht; done.
Qed.

Lemma Inv_frame L st st' : frame st st' -> Inv L st -> Inv L st'.
Proof.
  intros (F1 & F2 & F3 & F4 & F5 & _ & F7 & _). apply Inv_eq; try done.
  unfold queue_ids. by rewrite F2, F3, F4.
Qed.

Lemma Inv_local L jid st st' : local_effect jid st st' -> Inv L st -> Inv L st'.
Proof.
  intros (E1 & E2 & E3 & E4 & _ & E6 & E7 & E8) [].
  assert (Hq : queue_ids st' = queue_ids st) by (unfold queue_ids; by rewrite E1, E2, E3).
  (* the job [jid] keeps its presence and never becomes processing *)
  assert (Hk : ∀ k j', heap st' !! k = Some j' ->
             ∃ j, heap st !! k = Some j ∧ (status j' = status j ∨ status j' = Complete)).
  { intros k j' Hk. destruct (decide (k = jid)) as [->|Hne].
    - destruct (heap st !! jid) as [j|]; destruct (heap st' !! jid); simplify_eq; first [done|eauto].
    - rewrite E7 in Hk by done. eauto. }
  assert (Hp : ∀ k, is_Some (heap st !! k) -> is_Some (heap st' !! k)).
  { intros k [j Hj]. destruct (decide (k = jid)) as [->|Hne].
    - rewrite Hj in E8. destruct (heap st' !! jid); [eauto|done].
    - rewrite E7 by done. eauto. }
  constructor; rewrite ?Hq, ?E4, ?E6; try done; auto.
  - intros k j' Hj' Hs. destruct (Hk k j' Hj') as (j & Hj & [Hs'|Hs']); [|congruence].
    eapply inv_processing0; [exact Hj|congruence].
  - intros t j' Ht Hd Hj'. destruct (Hk _ j' Hj') as (j & Hj & [Hs'|Hs']); [|by rewrite Hs'].
    rewrite Hs'. eauto.
Qed.

Lemma Inv_remove_thread L i st : Inv L st -> Inv L (with_threads (delete i (threads st)) st).
Proof.
  intros []. constructor; simpl; try done.
  - intros t Ht. apply list_elem_of_delete_inv in Ht. auto.
  - intros t Ht. apply list_elem_of_delete_inv in Ht. auto.
  - intros t j Ht. apply list_elem_of_delete_inv in Ht. eauto.
Qed.

Lemma Inv_spawn L t st :
  Inv L st -> is_Some (heap st !! thread_jid t) -> thread_jid t ∉ queue_ids st ->
  (deletes_on_resume t = true -> ∀ j, heap st !! thread_jid t = Some j -> status j ≠ Processing) ->
  Inv L (spawn t st).
Proof.
  intros [] Hh Hq Hd. constructor; simpl; try done.
  - intros t' Ht'. apply elem_of_app in Ht' as [Ht'|Ht']; [auto|].
    apply list_elem_of_singleton in Ht'. by subst.
  - intros t' Ht'. apply elem_of_app in Ht' as [Ht'|Ht']; [auto|].
    apply list_elem_of_singleton in Ht'. by subst.
  - intros t' j Ht'. apply elem_of_app in Ht' as [Ht'|Ht']; [eauto|].
    apply list_elem_of_singleton in Ht'. subst. auto.
Qed.

(** Removing a job that is not processing from [activeJobs], and recording
    it in [completedJobs]. *)
Lemma Inv_leave L jid st :
  (∀ j, heap st !! jid = Some j -> status j ≠ Processing) -> Inv L st ->
  Inv L (with_completed (map_set jid (completedJobs (with_active (map_delete jid (activeJobs st)) st)))
           (with_active (map_delete jid (activeJobs st)) st)).
Proof.
  intros Hnp []. unfold map_delete. constructor; simpl; try done.
  - by apply NoDup_filter.
  - rewrite length_filter. lia.
  - intros k Hk. rewrite list_elem_of_filter. intros [_ Hk'].
    exact (inv_queue_active0 k Hk Hk').
  - intros k j Hj Hs. apply list_elem_of_filter. split; [|eauto].
    intros ->. by apply (Hnp j).
  - intros k Hk. apply list_elem_of_filter in Hk as [_ Hk]. auto.
Qed.

Lemma start_all_notin h ps k : k ∉ ps -> start_all h ps !! k = h !! k.
Proof.
  revert h. induction ps as [|x ps IH]; intros h Hk; [done|]. simpl.
  rewrite IH by set_solver. rewrite lookup_alter_ne; [done|set_solver].
Qed.

Lemma start_all_lookup h ps k j' :
  start_all h ps !! k = Some j' -> ∃ j, h !! k = Some j ∧ (j' = j ∨ k ∈ ps).
Proof.
  revert h j'. induction ps as [|x ps IH]; intros h j' Hk; simpl in Hk; [eauto|].
  destruct (IH _ _ Hk) as (j1 & Hj1 & Hc).
  destruct (decide (k = x)) as [->|Hne].
  - rewrite lookup_alter_eq in Hj1. destruct (h !! x) as [j0|]; simplify_eq/=.
    exists j0. split; [done|]. right. left.
  - rewrite lookup_alter_ne in Hj1 by done. exists j1. split; [done|].
    destruct Hc as [->|Hc]; [by left|right; by right].
Qed.

Lemma start_all_present h ps k : is_Some (h !! k) -> is_Some (start_all h ps !! k).
Proof.
  revert h. induction ps as [|x ps IH]; intros h Hk; [done|]. simpl. apply IH.
  destruct (decide (k = x)) as [->|Hne].
  - rewrite lookup_alter_eq. destruct Hk as [j ->]. eauto.
  - by rewrite lookup_alter_ne.
Qed.

Lemma queue_ids_drop st st' n :
  q_high st' = drop n (q_high st) ->
  q_normal st' = drop (n - length (q_high st)) (q_normal st) ->
  q_low st' = drop (n - length (q_high st) - length (q_normal st)) (q_low st) ->
  queue_ids st' = drop n (queue_ids st).
Proof.
  intros H1 H2 H3. unfold queue_ids. by rewrite !drop_app, H1, H2, H3.
Qed.

Lemma take_drop_disjoint (l : list string) n x :
  NoDup l -> x ∈ take n l -> x ∉ drop n l.
Proof.
  intros Hnd. rewrite <- (take_drop n l) in Hnd. apply NoDup_app in Hnd as (_ & Hd & _). auto.
Qed.

Lemma Inv_processNextJob L st : Inv L st -> Inv L (processNextJob L st).
Proof.
  intros Hinv. pose proof Hinv as [].
  destruct (processNextJob_spec L st inv_queue_nodup0 inv_queue_active0)
    as (H1 & H2 & H3 & H4 & H5 & H6 & _).
  set (n := L - length (activeJobs st)) in *.
  set (ps := take n (queue_ids st)) in *.
  set (st' := processNextJob L st) in *.
  pose proof (queue_ids_drop st st' n H2 H3 H4) as Hq.
  assert (Hps : ∀ k, k ∈ ps -> k ∈ queue_ids st) by (intros k Hk; eapply elem_of_sublist; [exact Hk|apply sublist_take]).
  assert (Hdr : ∀ k, k ∈ drop n (queue_ids st) -> k ∈ queue_ids st) by (intros k Hk; eapply elem_of_sublist; [exact Hk|apply sublist_drop]).
  constructor; rewrite ?H1, ?Hq, ?H5, ?H6.
  - apply NoDup_app. split; [done|split].
    + intros x Hx Hx'. apply (inv_queue_active0 x); auto.
    + eapply sublist_NoDup; [done|apply sublist_take].
  - rewrite length_app. subst ps. rewrite length_take. lia.
  - eapply sublist_NoDup; [done|apply sublist_drop].
  - intros k Hk Hk'. apply elem_of_app in Hk' as [Hk'|Hk'].
    + apply (inv_queue_active0 k); auto.
    + by apply (take_drop_disjoint (queue_ids st) n k).
  - intros k j' Hj' Hs. destruct (start_all_lookup _ _ _ _ Hj') as (j & Hj & [->|Hk]).
    + apply elem_of_app. left. eauto.
    + apply elem_of_app. by right.
  - intros k Hk. apply start_all_present. auto.
  - intros k Hk. apply start_all_present. apply elem_of_app in Hk as [Hk|Hk]; auto.
  - intros t Ht. apply start_all_present. apply elem_of_app in Ht as [Ht|Ht]; [auto|].
    apply list_elem_of_fmap in Ht as (k & -> & Hk). simpl. auto.
  - intros t Ht. apply elem_of_app in Ht as [Ht|Ht].
    + intros Hk. apply (inv_thread_queue0 t Ht). auto.
    + apply list_elem_of_fmap in Ht as (k & -> & Hk). simpl.
      by apply (take_drop_disjoint (queue_ids st) n k).
  - intros t j Ht Hd. apply elem_of_app in Ht as [Ht|Ht].
    + rewrite start_all_notin.
      * eauto.
      * intros Hk. apply (inv_thread_queue0 t Ht). auto.
    + apply list_elem_of_fmap in Ht as (k & -> & Hk). done.
Qed.

Lemma push_tier_queue_ids p k st : queue_ids (push_tier p k st) ≡ₚ k :: queue_ids st.
Proof.
  unfold queue_ids. destruct p; simpl; solve_Permutation.
Qed.

(** Storing a fresh job that is not processing and pushing it on a tier. *)
Lemma Inv_enqueue L j st :
  Inv L st -> heap st !! jobId j = None -> status j ≠ Processing ->
  Inv L (push_tier (priority j) (jobId j) (with_heap (<[jobId j := j]> (heap st)) st)).
Proof.
  intros [] Hfresh Hs.
  set (st' := push_tier _ _ _).
  assert (Hq : queue_ids st' ≡ₚ jobId j :: queue_ids st) by exact (push_tier_queue_ids _ _ _).
  assert (Hh : heap st' = <[jobId j := j]> (heap st)) by (subst st'; by destruct (priority j)).
  assert (Ha : activeJobs st' = activeJobs st) by (subst st'; by destruct (priority j)).
  assert (Ht : threads st' = threads st) by (subst st'; by destruct (priority j)).
  assert (Hqm : ∀ k, k ∈ queue_ids st' -> k = jobId j ∨ k ∈ queue_ids st).
  { intros k Hk. rewrite Hq in Hk. by apply elem_of_cons in Hk. }
  assert (Hne : ∀ k, is_Some (heap st !! k) -> k ≠ jobId j).
  { intros k [x Hx] ->. congruence. }
  constructor; rewrite ?Hh, ?Ha, ?Ht; try done.
  - rewrite Hq. constructor; [|done]. intros Hk. apply (Hne (jobId j)); auto.
  - intros k Hk. apply Hqm in Hk as [->|Hk]; [|auto].
    intros Ha'. apply (Hne (jobId j)); auto.
  - intros k x Hx Hsx. destruct (decide (k = jobId j)) as [->|Hk].
    + rewrite lookup_insert_eq in Hx. simplify_eq.
    + rewrite lookup_insert_ne in Hx by done. eauto.
  - intros k Hk. apply Hqm in Hk as [->|Hk].
    + rewrite lookup_insert_eq. eauto.
    + rewrite lookup_insert_ne by (apply not_eq_sym, Hne; auto). auto.
  - intros k Hk. rewrite lookup_insert_ne by (apply not_eq_sym, Hne; auto). auto.
  - intros t Htt. rewrite lookup_insert_ne by (apply not_eq_sym, Hne; auto). auto.
  - intros t Htt Hk. apply Hqm in Hk as [Hk|Hk]; [|by apply (inv_thread_queue0 t Htt)].
    apply (Hne (thread_jid t)); auto.
  - intros t x Htt Hd. rewrite lookup_insert_ne by (apply not_eq_sym, Hne; auto). eauto.
Qed.

Lemma Inv_queueJob svc L j st :
  Inv L st -> heap st !! jobId j = None -> status j = Queued -> Inv L (fst (queueJob svc L j st)).
Proof.
  intros HI Hf Hs. unfold queueJob. destruct (saveJob_ok svc j); simpl.
  - assert (HI1 : Inv L (push_tier (priority j) (jobId j)
              (with_heap (<[jobId j := j]> (heap (add_db (DbSaveJob j) st))) (add_db (DbSaveJob j) st)))).
    { apply Inv_enqueue; [|done|by rewrite Hs].
      eapply Inv_local; [apply add_db_local|done]. Unshelve. exact (jobId j). }
    destruct (_ <? L); [by apply Inv_processNextJob|done].
  - eapply Inv_local; [apply add_log_local|done]. Unshelve. exact (jobId j).
Qed.

Lemma remove_first_sublist jid q q' : remove_first jid q = Some q' -> q' `sublist_of` q.
Proof.
  revert q'. induction q as [|x q IH]; intros q' H; simpl in H; [done|].
  destruct (String.eqb x jid).
  - simplify_eq. by apply sublist_cons.
  - destruct (remove_first jid q) as [r|]; simplify_eq. apply sublist_skip. auto.
Qed.

Lemma Inv_queue_sublist L st st' :
  heap st' = heap st -> activeJobs st' = activeJobs st -> threads st' = threads st ->
  queue_ids st' `sublist_of` queue_ids st -> Inv L st -> Inv L st'.
Proof.
  intros Hh Ha Ht Hq []. 
  assert (Hm : ∀ k, k ∈ queue_ids st' -> k ∈ queue_ids st) by (intros k Hk; by eapply elem_of_sublist).
  constructor; rewrite ?Hh, ?Ha, ?Ht; try done.
  - by eapply sublist_NoDup.
  - intros k Hk. auto.
  - intros k Hk. auto.
  - intros t Htt Hk. apply (inv_thread_queue0 t Htt). auto.
Qed.

Lemma Inv_cancel_write svc L jid st : Inv L st -> Inv L (cancel_write svc jid st).
Proof.
  unfold cancel_write. destruct (updateJobStatus_ok svc jid Cancelled).
  - apply Inv_local with jid, add_db_local.
  - apply Inv_local with jid, add_log_local.
Qed.

Lemma Inv_cancelJob svc L jid st : Inv L st -> Inv L (cancelJob svc jid st).
Proof.
  intros HI. unfold cancelJob. case_bool_decide as Ha.
  - set (f := fun j => job_with_message "Job cancelled by user"
                         (job_with_progress 0 (job_with_status Cancelled j))).
    set (st1 := upd_job jid f st).
    assert (HI1 : Inv L st1).
    { destruct HI. subst st1. unfold upd_job.
      assert (Hl : ∀ k x, alter f jid (heap st) !! k = Some x ->
                 ∃ y, heap st !! k = Some y ∧ (x = y ∨ (k = jid ∧ status x = Cancelled))).
      { intros k x Hx. destruct (decide (k = jid)) as [->|Hne].
        - rewrite lookup_alter_eq in Hx. destruct (heap st !! jid) as [y|]; simplify_eq/=.
          eauto.
        - rewrite lookup_alter_ne in Hx by done. eauto. }
      assert (Hp : ∀ k, is_Some (heap st !! k) -> is_Some (alter f jid (heap st) !! k))
        by (intros k Hk; by apply lookup_alter_is_Some).
      constructor; simpl; try done; auto.
      - intros k x Hx Hs. destruct (Hl k x Hx) as (y & Hy & [->|[_ Hc]]); [eauto|congruence].
      - intros t x Htt Hd Hx. destruct (Hl _ x Hx) as (y & Hy & [->|[_ Hc]]); [eauto|congruence]. }
    apply Inv_spawn; [exact HI1| |simpl|].
    + simpl. unfold upd_job. simpl. apply lookup_alter_is_Some.
      exact (inv_active_heap _ _ HI jid Ha).
    + intros Hq. exact (inv_queue_active _ _ HI jid Hq Ha).
    + intros _ x Hx. simpl in Hx. unfold upd_job in Hx. simpl in Hx.
      rewrite lookup_alter_eq in Hx. destruct (heap st !! jid); simplify_eq/=. done.
  - destruct (remove_first jid (q_high st)) as [qh|] eqn:E1;
      [|destruct (remove_first jid (q_normal st)) as [qn|] eqn:E2;
        [|destruct (remove_first jid (q_low st)) as [ql|] eqn:E3]];
      apply Inv_cancel_write; try done; (apply (Inv_queue_sublist L st); [done|done|done| |exact HI]);
      unfold queue_ids; simpl.
    + apply sublist_app; [by eapply remove_first_sublist|done].
    + apply sublist_app; [done|apply sublist_app; [by eapply remove_first_sublist|done]].
    + apply sublist_app; [done|apply sublist_app; [done|by eapply remove_first_sublist]].
Qed.

(** Leaving [activeJobs] and dispatching the next jobs, as at the end of a
    worker or of the cancellation of an active job. *)
Lemma Inv_leave_dispatch L jid st :
  (∀ j, heap st !! jid = Some j -> status j ≠ Processing) -> Inv L st ->
  Inv L (processNextJob L
    (with_completed (map_set jid (completedJobs (with_active (map_delete jid (activeJobs st)) st)))
       (with_active (map_delete jid (activeJobs st)) st))).
Proof. intros Hnp HI. apply Inv_processNextJob, Inv_leave; done. Qed.

Lemma Inv_run_thread svc L i st : Inv L st -> Inv L (run_thread svc L i st).
Proof.
  intros HI. unfold run_thread.
  destruct (threads st !! i) as [t|] eqn:Ht; [|done].
  assert (Htin : t ∈ threads st) by (eapply list_elem_of_lookup_2; eauto).
  set (st0 := with_threads (delete i (threads st)) st).
  assert (HI0 : Inv L st0) by (by apply Inv_remove_thread).
  pose proof (inv_thread_heap _ _ HI t Htin) as Hth.
  pose proof (inv_thread_queue _ _ HI t Htin) as Htq.
  pose proof (inv_thread_del _ _ HI t) as Htd.
  destruct t as [jid l s|jid]; simpl in *.
  - destruct (resume_worker_cases svc L jid l s st0)
      as [[Hloc Hnext]|[Hs [Hn Hf]]].
    + assert (HI1 : Inv L (resume_worker svc L jid l s st0).1) by (eapply Inv_local; eauto).
      destruct (resume_worker svc L jid l s st0) as [st1 [t'|]]; simpl in *; [|done].
      destruct Hnext as [Hj Hd]. apply Inv_spawn; [done| | |].
      * rewrite Hj. eapply local_present; [exact Hloc|exact Hth].
      * rewrite Hj. destruct Hloc as (E1 & E2 & E3 & _).
        unfold queue_ids. rewrite E1, E2, E3. exact Htq.
      * rewrite Hj. exact Hd.
    + destruct (resume_worker svc L jid l s st0) as [st1 o] eqn:E.
      simpl in Hn, Hf. subst o st1.
      apply Inv_leave_dispatch.
      * intros j Hj.
        destruct (emit_job_update_frame svc jid (add_db (DbJobStatus jid Complete) st0)) as [Hf _].
        rewrite Hf in Hj. simpl in Hj.
        apply (Htd j); [done| |done]. by destruct Hs as [-> | ->].
      * eapply Inv_frame; [apply emit_job_update_frame|].
        eapply (Inv_local L jid); [apply add_db_local|done].
  - unfold resume_cancel. destruct (updateJobStatus_ok svc jid Cancelled).
    + apply Inv_leave_dispatch; [|eapply (Inv_local L jid); [apply add_db_local|done]].
      intros j Hj. simpl in Hj. by apply (Htd j).
    + eapply (Inv_local L jid); [apply add_log_local|done].
Qed.

Lemma Inv_empty L : Inv L empty_state.
Proof.
  constructor; simpl; try (intros *; rewrite ?lookup_empty; set_solver); try constructor; lia.
Qed.

Lemma normalize_pending_jobId j : jobId (normalize_pending j) = jobId j.
Proof. unfold normalize_pending. by case_decide. Qed.

Lemma normalize_pending_status j : status (normalize_pending j) ≠ Processing.
Proof. unfold normalize_pending. case_decide; simpl; [done|done]. Qed.

Lemma Inv_enqueue_all L js st :
  Inv L st -> NoDup (map jobId js) -> (∀ j, j ∈ js -> heap st !! jobId j = None) ->
  Inv L (foldl enqueue_pending st js).
Proof.
  revert st. induction js as [|j js IH]; intros st HI Hnd Hf; simpl; [done|].
  inversion Hnd as [|? ? Hn Hnd']; subst.
  apply IH; [|done|].
  - unfold enqueue_pending. apply Inv_enqueue; [done| |apply normalize_pending_status].
    rewrite normalize_pending_jobId. apply Hf. left.
  - intros j' Hj'. unfold enqueue_pending.
    assert (Hne : jobId (normalize_pending j) ≠ jobId j').
    { rewrite normalize_pending_jobId. intros Heq. apply Hn. rewrite Heq.
      apply list_elem_of_fmap. eauto. }
    destruct (priority _); simpl; rewrite lookup_insert_ne by done; apply Hf; by right.
Qed.

Lemma Inv_init L pending :
  (match pending with Some js => NoDup (map jobId js) | None => True end) ->
  Inv L (init L pending).
Proof.
  destruct pending as [js|]; intros Hnd; simpl; apply Inv_processNextJob.
  - apply Inv_enqueue_all; [apply Inv_empty|done|]. intros j _. apply lookup_empty.
  - apply (Inv_local L "" empty_state); [apply add_log_local|apply Inv_empty].
Qed.

Lemma Inv_step svc L st st' : step svc L st st' -> Inv L st -> Inv L st'.
Proof.
  intros Hs HI. destruct Hs.
  - by apply Inv_queueJob.
  - by apply Inv_cancelJob.
  - by apply Inv_run_thread.
Qed.

Lemma Inv_reachable svc L st : reachable svc L st -> Inv L st.
Proof.
  intros (pending & Hnd & Hr). pose proof (Inv_init L pending Hnd) as HI.
  induction Hr as [|x y z Hxy Hyz IH]; [done|]. apply IH. by eapply Inv_step.
Qed.

(** Dispatch and cancellation publish nothing. *)
Lemma processNextJob_fuel_events L f st : events (processNextJob_fuel L f st) = events st.
Proof.
  revert st. induction f as [|f IH]; intros st; [done|]. rewrite processNextJob_fuel_S.
  destruct (L <=? _); [done|]. destruct (pop_next st) as [[jid st1]|] eqn:Hp; [|done].
  assert (He : events st1 = events st).
  { revert Hp. unfold pop_next. destruct (q_high st), (q_normal st), (q_low st);
      intros H; inversion H; done. }
  destruct (_ <? L); [rewrite IH|]; simpl; done.
Qed.

Lemma cancelJob_events svc jid st : events (cancelJob svc jid st) = events st.
Proof.
  unfold cancelJob, cancel_write.
  case_bool_decide; [done|]. repeat case_match; done.
Qed.

Lemma resume_cancel_events svc L jid st : events (resume_cancel svc L jid st) = events st.
Proof.
  unfold resume_cancel, processNextJob. destruct (updateJobStatus_ok svc jid Cancelled); [|done].
  by rewrite processNextJob_fuel_events.
Qed.

(** ** A job cancelled while queued *)

Lemma settled_transfer jid st st' :
  heap st' !! jid = heap st !! jid ->
  (jid ∈ queue_ids st' -> jid ∈ queue_ids st) ->
  (jid ∈ activeJobs st' -> jid ∈ activeJobs st) ->
  (∀ t, t ∈ threads st' -> t ∈ threads st ∨ thread_jid t ≠ jid) ->
  settled jid st -> settled jid st'.
Proof.
  intros Hh Hq Ha Ht (Sq & Sa & St & Sh). split_and!; auto.
  - intros t Htt. destruct (Ht t Htt); auto.
  - by rewrite Hh.
Qed.

Lemma settled_local jid k st st' : k ≠ jid -> local_effect k st st' -> settled jid st -> settled jid st'.
Proof.
  intros Hk (E1 & E2 & E3 & E4 & _ & E6 & E7 & _). apply (settled_transfer jid st).
  - apply E7. congruence.
  - unfold queue_ids. by rewrite E1, E2, E3.
  - by rewrite E4.
  - rewrite E6. auto.
Qed.

Lemma settled_processNextJob L jid st : Inv L st -> settled jid st -> settled jid (processNextJob L st).
Proof.
  intros [] Hs. pose proof Hs as (Sq & _ & _ & _).
  destruct (processNextJob_spec L st inv_queue_nodup0 inv_queue_active0)
    as (H1 & H2 & H3 & H4 & H5 & H6 & _).
  pose proof (queue_ids_drop _ _ _ H2 H3 H4) as Hq.
  assert (Hps : jid ∉ take (L - length (activeJobs st)) (queue_ids st)).
  { intros Hin. apply Sq. eapply elem_of_sublist; [exact Hin|apply sublist_take]. }
  apply (settled_transfer jid st); [| | | |done].
  - rewrite H5. by apply start_all_notin.
  - rewrite Hq. intros Hin. eapply elem_of_sublist; [exact Hin|apply sublist_drop].
  - rewrite H1. intros Hin. apply elem_of_app in Hin as [Hin|Hin]; [done|contradiction].
  - rewrite H6. intros t Ht. apply elem_of_app in Ht as [Ht|Ht]; [by left|right].
    apply list_elem_of_fmap in Ht as (k & -> & Hk). simpl. intros ->. contradiction.
Qed.

Lemma settled_leave_dispatch L k jid st :
  k ≠ jid -> (∀ j, heap st !! k = Some j -> status j ≠ Processing) -> Inv L st -> settled jid st ->
  settled jid (processNextJob L
    (with_completed (map_set k (completedJobs (with_active (map_delete k (activeJobs st)) st)))
       (with_active (map_delete k (activeJobs st)) st))).
Proof.
  intros Hk Hnp HI Hs. apply settled_processNextJob; [by apply Inv_leave|].
  apply (settled_transfer jid st); [done|done| |intros t Ht; by left|done].
  simpl. unfold map_delete. intros Hin. by apply list_elem_of_filter in Hin as [_ Hin].
Qed.

Lemma remove_first_perm jid q q' : remove_first jid q = Some q' -> q ≡ₚ jid :: q'.
Proof.
  revert q'. induction q as [|x q IH]; intros q' H; simpl in H; [done|].
  destruct (String.eqb x jid) eqn:E.
  - apply String.eqb_eq in E. simplify_eq. done.
  - destruct (remove_first jid q) as [r|]; simplify_eq.
    rewrite (IH r eq_refl). apply Permutation_swap.
Qed.

Lemma remove_first_None jid q : remove_first jid q = None -> jid ∉ q.
Proof.
  induction q as [|x q IH]; simpl; [intros _; apply not_elem_of_nil|].
  destruct (String.eqb x jid) eqn:E; [done|].
  destruct (remove_first jid q); [done|]. intros _.
  apply String.eqb_neq in E. apply not_elem_of_cons. split; [congruence|auto].
Qed.

Lemma settled_step svc L jid st st' :
  step svc L st st' -> Inv L st -> settled jid st -> settled jid st'.
Proof.
  intros Hstep HI Hs. pose proof Hs as (Sq & Sa & St & Sh).
  destruct Hstep as [j st Hj Hf|k st|i st Hi].
  - (* a submission: its id is fresh, so it is not [jid] *)
    assert (Hne : jobId j ≠ jid) by (intros Heq; subst jid; destruct Sh as [x Hx]; congruence).
    unfold queueJob. destruct (saveJob_ok svc j); simpl.
    2:{ eapply settled_local; [exact Hne|apply add_log_local|done]. }
    set (st3 := push_tier (priority j) (jobId j)
              (with_heap (<[jobId j := j]> (heap (add_db (DbSaveJob j) st))) (add_db (DbSaveJob j) st))).
    assert (HI3 : Inv L st3).
    { apply Inv_enqueue; [|done|by rewrite Hj]. eapply Inv_local; [apply add_db_local|done].
      Unshelve. exact (jobId j). }
    assert (Hs3 : settled jid st3).
    { apply (settled_transfer jid st); [| | | |exact Hs].
      - subst st3. destruct (priority j); simpl; by rewrite lookup_insert_ne.
      - intros Hin. pose proof (push_tier_queue_ids (priority j) (jobId j)
              (with_heap (<[jobId j := j]> (heap (add_db (DbSaveJob j) st))) (add_db (DbSaveJob j) st))) as Hp.
        fold st3 in Hp. rewrite Hp in Hin. apply elem_of_cons in Hin as [Hin|Hin]; [congruence|done].
      - subst st3. by destruct (priority j).
      - subst st3. intros t Ht. left. by destruct (priority j). }
    fold st3. destruct (_ <? L); [by apply settled_processNextJob|done].
  - (* a cancellation *)
    unfold cancelJob. case_bool_decide as Hk.
    + assert (Hne : k ≠ jid) by (intros ->; contradiction).
      apply (settled_transfer jid st); [| | | |exact Hs].
      * simpl. by rewrite lookup_alter_ne.
      * done.
      * done.
      * simpl. intros t Ht. apply elem_of_app in Ht as [Ht|Ht]; [by left|right].
        apply list_elem_of_singleton in Ht. by subst.
    + assert (Hcw : ∀ x, settled jid x -> settled jid (cancel_write svc k x)).
      { intros x Hx. unfold cancel_write.
        destruct (updateJobStatus_ok svc k Cancelled);
          (apply (settled_transfer jid x); try done; intros t Ht; by left). }
      assert (Hsub : ∀ x, heap x = heap st -> activeJobs x = activeJobs st -> threads x = threads st ->
                 queue_ids x `sublist_of` queue_ids st -> settled jid (cancel_write svc k x)).
      { intros x Hh Ha Ht Hq. apply Hcw. apply (settled_transfer jid st); [by rewrite Hh| |by rewrite Ha| |done].
        - intros Hin. by eapply elem_of_sublist.
        - rewrite Ht. intros t Htt. by left. }
      destruct (remove_first k (q_high st)) as [qh|] eqn:E1;
        [|destruct (remove_first k (q_normal st)) as [qn|] eqn:E2;
          [|destruct (remove_first k (q_low st)) as [ql|] eqn:E3]];
        (apply Hsub; [done|done|done|]); unfold queue_ids; simpl.
      * apply sublist_app; [by eapply remove_first_sublist|done].
      * apply sublist_app; [done|apply sublist_app; [by eapply remove_first_sublist|done]].
      * apply sublist_app; [done|apply sublist_app; [done|by eapply remove_first_sublist]].
      * done.
  - (* the resumption of a suspended call of another job *)
    unfold run_thread. destruct (threads st !! i) as [t|] eqn:Ht; [|done].
    assert (Htin : t ∈ threads st) by (eapply list_elem_of_lookup_2; eauto).
    pose proof (St t Htin) as Hne.
    pose proof (inv_thread_del _ _ HI t) as Htd.
    set (st0 := with_threads (delete i (threads st)) st).
    assert (HI0 : Inv L st0) by (by apply Inv_remove_thread).
    assert (Hs0 : settled jid st0).
    { apply (settled_transfer jid st); try done. intros t' Ht'. left.
      by apply list_elem_of_delete_inv in Ht'. }
    destruct t as [k l s|k]; simpl in *.
    + destruct (resume_worker_cases svc L k l s st0) as [[Hloc Hnext]|[Hsd [Hn Hf']]].
      * assert (Hs1 : settled jid (resume_worker svc L k l s st0).1) by (eapply settled_local; eauto).
        destruct (resume_worker svc L k l s st0) as [st1 [t'|]]; simpl in *; [|done].
        destruct Hnext as [Hj' _].
        apply (settled_transfer jid st1); try done. simpl.
        intros t'' Ht''. apply elem_of_app in Ht'' as [Ht''|Ht'']; [by left|right].
        apply list_elem_of_singleton in Ht''. subst t''. by rewrite Hj'.
      * destruct (resume_worker svc L k l s st0) as [st1 o] eqn:E.
        simpl in Hn, Hf'. subst o st1.
        apply settled_leave_dispatch; [done| | |].
        -- intros j Hj. destruct (emit_job_update_frame svc k (add_db (DbJobStatus k Complete) st0)) as [Hfr _].
           rewrite Hfr in Hj. simpl in Hj.
           apply (Htd j); [done| |done]. by destruct Hsd as [-> | ->].
        -- eapply Inv_frame; [apply emit_job_update_frame|].
           eapply (Inv_local L k); [apply add_db_local|done].
        -- destruct (emit_job_update_frame svc k (add_db (DbJobStatus k Complete) st0))
             as (F1 & F2 & F3 & F4 & F5 & _ & F7 & _).
           apply (settled_transfer jid st0); [by rewrite F1| |by rewrite F5| |exact Hs0].
           ++ unfold queue_ids. by rewrite F2, F3, F4.
           ++ rewrite F7. intros t' Ht'. by left.
    + unfold resume_cancel. destruct (updateJobStatus_ok svc k Cancelled).
      * apply settled_leave_dispatch; [done| | |].
        -- intros j Hj. simpl in Hj. by apply (Htd j).
        -- eapply (Inv_local L k); [apply add_db_local|done].
        -- eapply settled_transfer; [| | | |exact Hs0]; try done. intros t' Ht'. by left.
      * eapply settled_local; [exact Hne|apply add_log_local|done].
Qed.

Lemma settled_cancel_queued svc L jid st :
  Inv L st -> jid ∈ queue_ids st -> settled jid (cancelJob svc jid st).
Proof.
  intros HI Hq. pose proof HI as [].
  assert (Ha : jid ∉ activeJobs st) by auto.
  assert (Hcw : ∀ x, heap x = heap st -> activeJobs x = activeJobs st -> threads x = threads st ->
             queue_ids st ≡ₚ jid :: queue_ids x -> settled jid (cancel_write svc jid x)).
  { intros x Hh Hax Ht Hp.
    assert (Hx : settled jid x).
    { split_and!.
      - rewrite Hp in inv_queue_nodup0. by inversion inv_queue_nodup0.
      - by rewrite Hax.
      - rewrite Ht. intros t Htt Heq. apply (inv_thread_queue0 t Htt). by rewrite Heq.
      - rewrite Hh. auto. }
    unfold cancel_write. destruct (updateJobStatus_ok svc jid Cancelled);
      (apply (settled_transfer jid x); try done; intros t Htt; by left). }
  unfold cancelJob. case_bool_decide; [contradiction|].
  destruct (remove_first jid (q_high st)) as [qh|] eqn:E1;
    [|destruct (remove_first jid (q_normal st)) as [qn|] eqn:E2;
      [|destruct (remove_first jid (q_low st)) as [ql|] eqn:E3]].
  - apply Hcw; try done. unfold queue_ids. simpl. by rewrite (remove_first_perm _ _ _ E1).
  - apply Hcw; try done. unfold queue_ids. simpl. rewrite (remove_first_perm _ _ _ E2).
    solve_Permutation.
  - apply Hcw; try done. unfold queue_ids. simpl. rewrite (remove_first_perm _ _ _ E3).
    solve_Permutation.
  - exfalso. apply remove_first_None in E1, E2, E3. unfold queue_ids in Hq. set_solver.
Qed.

Lemma settled_rtc svc L jid st st' :
  rtc (step svc L) st st' -> Inv L st -> settled jid st -> Inv L st' ∧ settled jid st'.
Proof.
  induction 1 as [|x y z Hxy Hyz IH]; intros HI Hs; [done|].
  apply IH; [by eapply Inv_step|by eapply settled_step].
Qed.

(** ** A worker run on its own *)

Lemma run_worker_S svc L f jid l s st :
  run_worker svc L (S f) jid l s st =
  match resume_worker svc L jid l s st with
  | (st1, Some (Worker jid' l' s')) => add_trace [s] (run_worker svc L f jid' l' s' st1)
  | (st1, _) => (st1, [s])
  end.
Proof. reflexivity. Qed.

Lemma sf_emit_msg svc jid d k m st0 st :
  stage_frame jid d st0 st -> stage_frame jid d st0 (emit_job_update_msg svc k m st).
Proof.
  intros (S1 & S2 & S3 & S4 & S5 & S6 & j & Hj & Hd).
  destruct (emit_job_update_msg_frame svc k m st) as (F0 & F1 & F2 & F3 & F4 & F5 & _ & F8 & _).
  split_and!; try congruence. exists j. by rewrite F0.
Qed.

Lemma sf_emit svc jid d k st0 st :
  stage_frame jid d st0 st -> stage_frame jid d st0 (emit_job_update svc k st).
Proof.
  intros (S1 & S2 & S3 & S4 & S5 & S6 & j & Hj & Hd).
  destruct (emit_job_update_frame svc k st) as (F0 & F1 & F2 & F3 & F4 & F5 & _ & F8 & _).
  split_and!; try congruence. exists j. by rewrite F0.
Qed.

Lemma sf_log jid d m st0 st : stage_frame jid d st0 st -> stage_frame jid d st0 (add_log m st).
Proof. done. Qed.

Lemma sf_upd jid d f st0 st :
  (∀ j, domain (f j) = domain j) -> stage_frame jid d st0 st -> stage_frame jid d st0 (upd_job jid f st).
Proof.
  intros Hf (S1 & S2 & S3 & S4 & S5 & S6 & j & Hj & Hd). split_and!; try done.
  exists (f j). simpl. rewrite lookup_alter_eq, Hj. split; [done|]. by rewrite Hf.
Qed.

Ltac stage_chain :=
  lazymatch goal with
  | |- stage_frame ?jid ?d ?st0 (emit_job_update ?svc ?k ?x) => apply sf_emit; stage_chain
  | |- stage_frame ?jid ?d ?st0 (emit_job_update_msg ?svc ?k ?m ?x) => apply sf_emit_msg; stage_chain
  | |- stage_frame ?jid ?d ?st0 (add_log ?m ?x) => apply sf_log; stage_chain
  | |- stage_frame ?jid ?d ?st0 (set_pm ?jid ?p ?m ?x) => apply sf_upd; [done|stage_chain]
  | |- stage_frame ?jid ?d ?st0 (upd_job ?jid ?f ?x) => apply sf_upd; [done|stage_chain]
  | |- stage_frame ?jid ?d ?st0 (match ?o with _ => _ end) => destruct o; stage_chain
  | |- _ => try assumption
  end.

Lemma resume_page_step svc L jid d l i p c st0 st :
  stage_frame jid d st0 st -> l_pages l !! i = Some p -> extractPageContent svc (url p) = Some c ->
  let r := resume_worker svc L jid l (W_Page i) st in
  stage_frame jid d st0 (fst r) ∧
  snd r = Some (Worker jid (with_contents (l_contents l ++ [c]) l)
                 (if S i <? length (l_pages l) then W_Page (S i) else W_Extract 0)).
Proof.
  intros Hs Hp Hc r. subst r. pose proof Hs as (_ & _ & _ & _ & _ & _ & j & Hj & _).
  unfold resume_worker. rewrite Hj, Hp, Hc. cbn zeta.
  destruct (S i <? length (l_pages l)); cbn [fst snd]; (split; [stage_chain|done]).
Qed.

Lemma resume_extract_step svc L jid d l k e st0 st :
  stage_frame jid d st0 st -> k < 5 -> extractor_order !! k = Some e ->
  let r := resume_worker svc L jid l (W_Extract k) st in
  stage_frame jid d st0 (fst r) ∧
  snd r = Some (Worker jid (with_outs (l_outs l ++
             [extract svc e (pages_with_content (l_pages l) (l_contents l))]) l) (W_Extract (S k))).
Proof.
  intros Hs Hk He r. subst r. pose proof Hs as (_ & _ & _ & _ & _ & _ & j & Hj & _).
  unfold resume_worker. rewrite Hj, He. cbn zeta.
  assert (Hlt : (S k <? length extractor_order) = true) by (apply Nat.ltb_lt; simpl; lia).
  rewrite Hlt. cbn [fst snd]. split; [stage_chain|done].
Qed.

(** The last extractor, with a [domain_info] row: the combined results are
    built from the six outcomes and handed to the [UPDATE domain_info]. *)
Lemma resume_extract_last svc L jid d l id' st0 st :
  stage_frame jid d st0 st -> l_domainInfoId l = Some (S id') ->
  let out := extract svc IsbnEx (pages_with_content (l_pages l) (l_contents l)) in
  let l' := with_outs (l_outs l ++ [out]) l in
  let r := resume_worker svc L jid l (W_Extract 5) st in
  stage_frame jid d st0 (fst r) ∧
  snd r = Some (Worker jid l' (W_StoreData (assemble_results d (length (l_pages l)) (l_outs l')))).
Proof.
  intros Hs Hid out l' r. subst r. pose proof Hs as (_ & _ & _ & _ & _ & _ & j & Hj & Hd).
  unfold resume_worker. rewrite Hj. cbn zeta. simpl (extractor_order !! 5). simpl (S 5 <? _).
  rewrite Hid. change (6 <? 6) with false. cbn iota. cbn [fst snd]. split; [stage_chain|]. by rewrite Hd.
Qed.

Lemma processNextJob_fuel_notin L f k st :
  k ∉ queue_ids st ->
  heap (processNextJob_fuel L f st) !! k = heap st !! k ∧
  (k ∈ activeJobs (processNextJob_fuel L f st) <-> k ∈ activeJobs st) ∧
  completedJobs (processNextJob_fuel L f st) = completedJobs st ∧
  db (processNextJob_fuel L f st) = db st.
Proof.
  revert st. induction f as [|f IH]; intros st Hk; [done|]. rewrite processNextJob_fuel_S.
  destruct (L <=? _); [done|]. destruct (pop_next st) as [[jid st1]|] eqn:Hp; [|done].
  pose proof (pop_next_queue_ids _ _ _ Hp) as Hq.
  destruct (pop_next_Some _ _ _ Hp) as (Ha1 & Hh1 & _ & _).
  assert (Hr : completedJobs st1 = completedJobs st ∧ db st1 = db st).
  { revert Hp. unfold pop_next. destruct (q_high st), (q_normal st), (q_low st);
      intros H; inversion H; done. }
  rewrite Hq in Hk. apply not_elem_of_cons in Hk as [Hne Hk].
  assert (H2 : heap (processJob_start jid st1) !! k = heap st !! k ∧
               (k ∈ activeJobs (processJob_start jid st1) <-> k ∈ activeJobs st) ∧
               completedJobs (processJob_start jid st1) = completedJobs st ∧
               db (processJob_start jid st1) = db st).
  { simpl. rewrite lookup_alter_ne by congruence. rewrite Hh1, Ha1. split_and!; try apply Hr; try done.
    unfold map_set. case_bool_decide; [done|]. rewrite elem_of_app, list_elem_of_singleton.
    split; [intros [?|?]; [done|congruence]|by left]. }
  assert (Hk2 : k ∉ queue_ids (processJob_start jid st1)) by (unfold queue_ids; simpl; exact Hk).
  destruct (_ <? L); [|done].
  destruct (IH _ Hk2) as (I1 & I2 & I3 & I4). destruct H2 as (J1 & J2 & J3 & J4).
  split_and!; [congruence| |congruence|congruence]. by rewrite I2.
Qed.

Lemma finish_job_facts svc L jid st :
  jid ∉ queue_ids st ->
  heap (finish_job svc L jid st) !! jid = heap st !! jid ∧
  (jid ∉ activeJobs (finish_job svc L jid st)) ∧
  jid ∈ completedJobs (finish_job svc L jid st) ∧
  db (finish_job svc L jid st) = db st.
Proof.
  intros Hq. unfold finish_job, processNextJob.
  destruct (emit_job_update_frame svc jid st) as (F0 & F1 & F2 & F3 & _ & F5 & _ & F7 & _).
  set (st3 := with_completed _ _).
  assert (Hq3 : jid ∉ queue_ids st3) by (unfold queue_ids in *; simpl; rewrite F1, F2, F3; done).
  destruct (processNextJob_fuel_notin L (S (length (queue_ids st3))) jid st3 Hq3) as (P1 & P2 & P3 & P4).
  rewrite P1, P2, P3, P4. simpl. rewrite F0, F7. split_and!; try done.
  - unfold map_delete. rewrite list_elem_of_filter. intros [? _]. done.
  - unfold map_set. case_bool_decide; [done|]. apply elem_of_app. right. by left.
Qed.

Lemma add_trace_app a b r : add_trace a (add_trace b r) = add_trace (a ++ b) r.
Proof. unfold add_trace. simpl. by rewrite app_assoc. Qed.

Lemma contents_of_lookup svc pages i p :
  pages !! i = Some p ->
  contents_of svc pages !! i =
  Some (match extractPageContent svc (url p) with Some c => c | None => None end).
Proof. intros Hp. unfold contents_of. by rewrite list_lookup_fmap, Hp. Qed.

(** The page loop: from page [i] on, every fetch returns, and the worker
    arrives at the first extractor with every page's content collected. *)
Lemma page_loop svc L jid d f : ∀ m i l st0 st,
  m = length (l_pages l) - i -> i < length (l_pages l) ->
  stage_frame jid d st0 st ->
  l_contents l = take i (contents_of svc (l_pages l)) ->
  (∀ p, p ∈ l_pages l -> is_Some (extractPageContent svc (url p))) ->
  ∃ st1, stage_frame jid d st0 st1 ∧
    run_worker svc L (m + f) jid l (W_Page i) st =
    add_trace (map W_Page (seq i m))
      (run_worker svc L f jid (with_contents (contents_of svc (l_pages l)) l) (W_Extract 0) st1).
Proof.
  induction m as [|m IH]; intros i l st0 st Hm Hi Hs Hc Hok; [lia|].
  destruct (lookup_lt_is_Some_2 (l_pages l) i Hi) as [p Hp].
  destruct (Hok p (list_elem_of_lookup_2 _ _ _ Hp)) as [c Hpc].
  destruct (resume_page_step svc L jid d l i p c st0 st Hs Hp Hpc) as [H1 H2].
  rewrite Nat.add_succ_l, run_worker_S.
  destruct (resume_worker svc L jid l (W_Page i) st) as [s1 o1]. cbn [fst snd] in H1, H2. subst o1.
  assert (Hc' : l_contents l ++ [c] = take (S i) (contents_of svc (l_pages l))).
  { rewrite Hc. erewrite take_S_r; [done|]. erewrite contents_of_lookup by exact Hp. by rewrite Hpc. }
  destruct (S i <? length (l_pages l)) eqn:Hlt.
  - apply Nat.ltb_lt in Hlt.
    destruct (IH (S i) (with_contents (l_contents l ++ [c]) l) st0 s1) as (st1 & Hs1 & E);
      simpl; try done; try lia.
    exists st1. split; [done|]. cbn iota beta. rewrite E, add_trace_app. reflexivity.
  - apply Nat.ltb_ge in Hlt. assert (m = 0) as -> by lia.
    exists s1. split; [done|]. cbn iota beta. simpl (seq i 1). simpl (map _ _). simpl.
    f_equal. unfold with_contents. simpl. rewrite Hc'. rewrite take_ge; [done|].
    unfold contents_of. rewrite length_map. lia.
Qed.

Ltac extract_unroll :=
  rewrite run_worker_S;
  lazymatch goal with
  | Hs : stage_frame ?jid ?d ?st0 ?st |- context [resume_worker ?svc ?L ?jid ?l (W_Extract ?k) ?st] =>
      let H1 := fresh "H1" in let H2 := fresh "H2" in
      destruct (resume_extract_step svc L jid d l k _ st0 st Hs ltac:(lia) eq_refl) as [H1 H2];
      clear Hs;
      destruct (resume_worker svc L jid l (W_Extract k) st) as [? ?];
      cbn [fst snd] in H1, H2; subst; cbn iota beta
  end.

(** The six extractors, each call on its own: the worker collects the six
    outcomes and, with a [domain_info] row, moves on to store the combined
    results. *)
Lemma extract_loop svc L jid d l id' f st0 st :
  stage_frame jid d st0 st -> l_outs l = [] -> l_domainInfoId l = Some (S id') ->
  let outs := outs_of svc (pages_with_content (l_pages l) (l_contents l)) extractor_order in
  ∃ st1, stage_frame jid d st0 st1 ∧
    run_worker svc L (6 + f) jid l (W_Extract 0) st =
    add_trace (map W_Extract (seq 0 6))
      (run_worker svc L f jid (with_outs outs l)
         (W_StoreData (assemble_results d (length (l_pages l)) outs)) st1).
Proof.
  intros Hs Ho Hid outs. cbn [Nat.add].
  do 5 extract_unroll.
  rewrite run_worker_S.
  lazymatch goal with
  | Hs : stage_frame ?jid ?d ?st0 ?st |- context [resume_worker ?svc ?L ?jid ?l (W_Extract 5) ?st] =>
      destruct (resume_extract_last svc L jid d l id' st0 st Hs Hid) as [Hf6 Hn6];
      destruct (resume_worker svc L jid l (W_Extract 5) st) as [s6 ?];
      cbn [fst snd] in Hf6, Hn6; subst; cbn iota beta
  end.
  exists s6. split; [done|]. rewrite !add_trace_app.
  subst outs. unfold outs_of, with_outs. simpl. rewrite Ho. reflexivity.
Qed.

Lemma assemble_section d n svc pcs e :
  jpath [section_key e] (assemble_results d n (outs_of svc pcs extractor_order)) =
  Some (js_or (extract svc e pcs) (section_default d e)).
Proof. destruct e; reflexivity. Qed.

(** The two last stages: the [UPDATE domain_info] with the combined
    results, then the final status write. *)
Lemma store_done_steps svc L jid d l id r st0 st :
  stage_frame jid d st0 st -> l_domainInfoId l = Some id ->
  updateJobStatus_ok svc jid Complete = true ->
  let st1 := if query_update_data_ok svc id r then add_db (DbDomainData id r) st
             else add_log "[JOB] Error storing website data" st in
  run_worker svc L 2 jid l (W_StoreData r) st =
  (finish_job svc L jid (add_db (DbJobStatus jid Complete)
     (complete_fields jid "Scrape completed" st1)), [W_StoreData r; W_Done]).
Proof.
  intros (_ & _ & _ & _ & _ & _ & j & Hj & _) Hid Hu st1.
  rewrite run_worker_S. unfold resume_worker at 1. rewrite Hj, Hid. fold st1.
  assert (Hj1 : heap st1 !! jid = Some j) by (subst st1; by destruct (query_update_data_ok _ _ _)).
  cbn iota beta. unfold run_worker, resume_worker. simpl (heap (complete_fields _ _ _)).
  rewrite lookup_alter_eq, Hj1. simpl. rewrite Hu. reflexivity.
Qed.

(** The last extractor without a usable [domain_info] id ([null] or [0] is
    falsy): the combined results are built but not stored, and the job is
    marked complete. *)
Lemma resume_extract_last_norow svc L jid d l st0 st :
  stage_frame jid d st0 st -> (l_domainInfoId l = None ∨ l_domainInfoId l = Some 0) ->
  let out := extract svc IsbnEx (pages_with_content (l_pages l) (l_contents l)) in
  let r := resume_worker svc L jid l (W_Extract 5) st in
  ∃ s, stage_frame jid d st0 s ∧ fst r = complete_fields jid "Scrape completed" s ∧
    snd r = Some (Worker jid (with_outs (l_outs l ++ [out]) l) W_Done).
Proof.
  intros Hs Hid out r. subst r. pose proof Hs as (_ & _ & _ & _ & _ & _ & j & Hj & _).
  unfold resume_worker. rewrite Hj. cbn zeta. simpl (extractor_order !! 5).
  change (S 5 <? length extractor_order) with false. cbn iota.
  destruct Hid as [Hid|Hid]; rewrite Hid; cbn [fst snd];
    (eexists; split_and!; [|reflexivity|reflexivity]); stage_chain.
Qed.

(** The six extractors without a usable [domain_info] id: the worker
    collects the six outcomes, marks the job complete and awaits the final
    status write. *)
Lemma extract_loop_norow svc L jid d l f st0 st :
  stage_frame jid d st0 st -> l_outs l = [] ->
  (l_domainInfoId l = None ∨ l_domainInfoId l = Some 0) ->
  let outs := outs_of svc (pages_with_content (l_pages l) (l_contents l)) extractor_order in
  ∃ st1, stage_frame jid d st0 st1 ∧
    run_worker svc L (6 + f) jid l (W_Extract 0) st =
    add_trace (map W_Extract (seq 0 6))
      (run_worker svc L f jid (with_outs outs l) W_Done (complete_fields jid "Scrape completed" st1)).
Proof.
  intros Hs Ho Hid outs. cbn [Nat.add].
  do 5 extract_unroll.
  rewrite run_worker_S.
  lazymatch goal with
  | Hs : stage_frame ?jid ?d ?st0 ?st |- context [resume_worker ?svc ?L ?jid ?l (W_Extract 5) ?st] =>
      destruct (resume_extract_last_norow svc L jid d l st0 st Hs Hid) as (s6 & Hf6 & Hr1 & Hr2);
      destruct (resume_worker svc L jid l (W_Extract 5) st) as [x6 o6];
      cbn [fst snd] in Hr1, Hr2; subst x6 o6; cbn iota beta
  end.
  exists s6. split; [done|]. rewrite !add_trace_app.
  subst outs. unfold outs_of, with_outs. simpl. rewrite Ho. reflexivity.
Qed.

(** The final status write, after the completion fields. *)
Lemma done_step svc L jid d l m f st0 st :
  stage_frame jid d st0 st -> updateJobStatus_ok svc jid Complete = true ->
  run_worker svc L (S f) jid l W_Done (complete_fields jid m st) =
  (finish_job svc L jid (add_db (DbJobStatus jid Complete) (complete_fields jid m st)), [W_Done]).
Proof.
  intros (_ & _ & _ & _ & _ & _ & j & Hj & _) Hu.
  rewrite run_worker_S. unfold resume_worker at 1. simpl (heap (complete_fields _ _ _)).
  rewrite lookup_alter_eq, Hj. simpl. rewrite Hu. reflexivity.
Qed.

(** ** A cancelled run against the same run without the cancellation *)

Lemma cancel_rel_job_fields j1 j2 :
  cancel_rel_job j1 j2 ->
  jobId j1 = jobId j2 ∧ domain j1 = domain j2 ∧ depth j1 = depth j2 ∧
  discover_options j1 = discover_options j2.
Proof.
  intros [->|[(Hi & Hd & Hp & _ & Hm) _]]; [done|].
  unfold discover_options. by rewrite Hi, Hd, Hp, Hm.
Qed.

Lemma cs_at jid pub st1 st2 k :
  cancel_sim jid pub st1 st2 -> option_Forall2 cancel_rel_job (heap st1 !! k) (heap st2 !! k).
Proof.
  intros H. destruct (decide (k = jid)) as [->|Hne]; [apply H|].
  rewrite (cs_heap_other _ _ _ _ H k Hne). destruct (heap st2 !! k); constructor. by left.
Qed.

Lemma cs_queue_ids jid pub st1 st2 : cancel_sim jid pub st1 st2 -> queue_ids st1 = queue_ids st2.
Proof. intros H. unfold queue_ids. by rewrite (cs_high _ _ _ _ H), (cs_normal _ _ _ _ H), (cs_low _ _ _ _ H). Qed.

(** Operations that leave the heap, the threads and the events alone. *)
Lemma cs_add_db jid pub o st1 st2 :
  cancel_sim jid pub st1 st2 -> cancel_sim jid pub (add_db o st1) (add_db o st2).
Proof.
  intros [H1 H2 H3 H4 H5 H6 H7 H8 H9 H10 H11]. constructor; simpl; try congruence; done.
Qed.

Lemma cs_add_log jid pub m st1 st2 :
  cancel_sim jid pub st1 st2 -> cancel_sim jid pub (add_log m st1) (add_log m st2).
Proof.
  intros [H1 H2 H3 H4 H5 H6 H7 H8 H9 H10 H11]. constructor; simpl; try done.
  intros Hp. destruct (H11 Hp) as [E L]. by rewrite L.
Qed.

Lemma cs_add_rejected jid pub k st1 st2 :
  cancel_sim jid pub st1 st2 -> cancel_sim jid pub (add_rejected k st1) (add_rejected k st2).
Proof.
  intros [H1 H2 H3 H4 H5 H6 H7 H8 H9 H10 H11]. constructor; simpl; try congruence; done.
Qed.

Lemma cs_with_active jid pub a1 a2 st1 st2 :
  a1 = a2 -> cancel_sim jid pub st1 st2 -> cancel_sim jid pub (with_active a1 st1) (with_active a2 st2).
Proof. intros -> [H1 H2 H3 H4 H5 H6 H7 H8 H9 H10 H11]. constructor; simpl; done. Qed.

Lemma cs_with_completed jid pub c1 c2 st1 st2 :
  c1 = c2 -> cancel_sim jid pub st1 st2 ->
  cancel_sim jid pub (with_completed c1 st1) (with_completed c2 st2).
Proof. intros -> [H1 H2 H3 H4 H5 H6 H7 H8 H9 H10 H11]. constructor; simpl; done. Qed.

Lemma cs_spawn jid pub t st1 st2 :
  cancel_sim jid pub st1 st2 -> cancel_sim jid pub (spawn t st1) (spawn t st2).
Proof.
  intros [H1 H2 H3 H4 H5 H6 H7 H8 H9 H10 H11]. constructor; simpl; try done.
  destruct H8 as (t1 & t2 & E2 & E1). exists t1, (t2 ++ [t]). rewrite E1, E2.
  by rewrite <- !app_assoc.
Qed.

Lemma cs_emitSocketEvent svc jid pub rm ev d1 d2 st1 st2 :
  (pub = true -> publisher_ignores_payload svc) -> p_jobId d1 = p_jobId d2 ->
  cancel_sim jid pub st1 st2 ->
  cancel_sim jid pub (emitSocketEvent svc rm ev d1 st1) (emitSocketEvent svc rm ev d2 st2).
Proof.
  intros Hpub Hd [H1 H2 H3 H4 H5 H6 H7 H8 H9 H10 H11].
  unfold emitSocketEvent. destruct (io svc) as [emit|] eqn:Hio; [|by constructor].
  constructor; try (destruct (emit rm ev d1), (emit rm ev d2); simpl; done).
  intros Hp. destruct (H11 Hp) as [E L]. rewrite (Hpub Hp emit Hio rm ev d1 d2).
  destruct (emit rm ev d2); simpl; (split; [|congruence]); [|done].
  apply Forall2_app; [done|]. constructor; [|constructor]. split_and!; done.
Qed.

Lemma cs_emit_msg svc jid pub k m1 m2 st1 st2 :
  (pub = true -> publisher_ignores_payload svc) -> cancel_sim jid pub st1 st2 ->
  cancel_sim jid pub (emit_job_update_msg svc k m1 st1) (emit_job_update_msg svc k m2 st2).
Proof.
  intros Hpub H. pose proof (cs_at _ _ _ _ k H) as Hk. unfold emit_job_update_msg.
  destruct Hk as [j1 j2 Hr|]; [|done].
  destruct (cancel_rel_job_fields _ _ Hr) as (Hi & _). rewrite Hi.
  by apply cs_emitSocketEvent.
Qed.

Lemma cs_emit svc jid pub k st1 st2 :
  (pub = true -> publisher_ignores_payload svc) -> cancel_sim jid pub st1 st2 ->
  cancel_sim jid pub (emit_job_update svc k st1) (emit_job_update svc k st2).
Proof.
  intros Hpub H. pose proof (cs_at _ _ _ _ k H) as Hk. unfold emit_job_update.
  destruct Hk as [j1 j2 Hr|]; [|done]. by apply cs_emit_msg.
Qed.

(** Mutations of a job object that keep [cancel_rel_job]. *)
Lemma cs_upd jid pub k f st1 st2 :
  (∀ j1 j2, cancel_rel_job j1 j2 -> cancel_rel_job (f j1) (f j2)) ->
  cancel_sim jid pub st1 st2 -> cancel_sim jid pub (upd_job k f st1) (upd_job k f st2).
Proof.
  intros Hf [H1 H2 H3 H4 H5 H6 H7 H8 H9 H10 H11]. constructor; simpl; try done.
  - intros k' Hk'. destruct (decide (k = k')) as [<-|Hne].
    + rewrite !lookup_alter_eq. by rewrite H9.
    + rewrite !lookup_alter_ne by done. by apply H9.
  - destruct (decide (k = jid)) as [->|Hne].
    + rewrite !lookup_alter_eq. destruct H10; constructor. by apply Hf.
    + by rewrite !lookup_alter_ne.
Qed.

Lemma rel_set_pm p m j1 j2 :
  cancel_rel_job j1 j2 ->
  cancel_rel_job (job_with_message m (job_with_progress p j1)) (job_with_message m (job_with_progress p j2)).
Proof. intros [->|[Hs Hc]]; [by left|right]. done. Qed.

Lemma rel_progress p j1 j2 :
  cancel_rel_job j1 j2 -> cancel_rel_job (job_with_progress p j1) (job_with_progress p j2).
Proof. intros [->|[Hs Hc]]; [by left|right]. done. Qed.

Lemma rel_processing j1 j2 :
  cancel_rel_job j1 j2 -> cancel_rel_job (job_with_status Processing j1) (job_with_status Processing j2).
Proof. intros [->|[Hs Hc]]; [by left|right]. split; [done|]. simpl. discriminate. Qed.

(** Completion overwrites every field the cancellation wrote. *)
Lemma rel_complete m j1 j2 :
  cancel_rel_job j1 j2 ->
  cancel_rel_job (job_with_message m (job_with_progress 100 (job_with_status Complete j1)))
                 (job_with_message m (job_with_progress 100 (job_with_status Complete j2))).
Proof.
  intros [->|[(Hi & Hd & Hp & Hr & Hm) _]]; left; [done|].
  unfold job_with_message, job_with_progress, job_with_status. simpl. by rewrite Hi, Hd, Hp, Hr, Hm.
Qed.

Lemma cs_set_pm jid pub k p m st1 st2 :
  cancel_sim jid pub st1 st2 -> cancel_sim jid pub (set_pm k p m st1) (set_pm k p m st2).
Proof. apply cs_upd. intros. by apply rel_set_pm. Qed.

Lemma cs_progress jid pub k p st1 st2 :
  cancel_sim jid pub st1 st2 ->
  cancel_sim jid pub (upd_job k (job_with_progress p) st1) (upd_job k (job_with_progress p) st2).
Proof. apply cs_upd. intros. by apply rel_progress. Qed.

Lemma cs_complete jid pub k m st1 st2 :
  cancel_sim jid pub st1 st2 -> cancel_sim jid pub (complete_fields k m st1) (complete_fields k m st2).
Proof. apply cs_upd. intros. by apply rel_complete. Qed.

Lemma cs_pop_next jid pub st1 st2 :
  cancel_sim jid pub st1 st2 ->
  match pop_next st1, pop_next st2 with
  | Some (k1, s1), Some (k2, s2) => k1 = k2 ∧ cancel_sim jid pub s1 s2
  | None, None => True
  | _, _ => False
  end.
Proof.
  intros H. destruct H as [H1 H2 H3 H4 H5 H6 H7 H8 H9 H10 H11]. unfold pop_next.
  rewrite H1, H2, H3.
  destruct (q_high st2), (q_normal st2), (q_low st2); try done; (split; [done|]);
    constructor; simpl; done.
Qed.

Lemma cs_processNextJob_fuel jid pub L f : ∀ st1 st2,
  cancel_sim jid pub st1 st2 ->
  cancel_sim jid pub (processNextJob_fuel L f st1) (processNextJob_fuel L f st2).
Proof.
  induction f as [|f IH]; intros st1 st2 H; [done|]. rewrite !processNextJob_fuel_S.
  rewrite (cs_active _ _ _ _ H). destruct (L <=? _); [done|].
  pose proof (cs_pop_next _ _ _ _ H) as Hp.
  destruct (pop_next st1) as [[k1 s1]|], (pop_next st2) as [[k2 s2]|]; try done.
  destruct Hp as [<- Hs].
  assert (Hs' : cancel_sim jid pub (processJob_start k1 s1) (processJob_start k1 s2)).
  { unfold processJob_start. apply cs_spawn. apply cs_with_active.
    - f_equal. simpl. apply (cs_active _ _ _ _ Hs).
    - apply cs_upd; [apply rel_processing|done]. }
  rewrite (cs_active _ _ _ _ Hs'). destruct (_ <? L); [by apply IH|done].
Qed.

Lemma cs_finish_job svc jid pub L k st1 st2 :
  (pub = true -> publisher_ignores_payload svc) -> cancel_sim jid pub st1 st2 ->
  cancel_sim jid pub (finish_job svc L k st1) (finish_job svc L k st2).
Proof.
  intros Hpub H. unfold finish_job, processNextJob.
  assert (H1 : cancel_sim jid pub (emit_job_update svc k st1) (emit_job_update svc k st2))
    by (by apply cs_emit).
  assert (H2 : cancel_sim jid pub
    (with_active (map_delete k (activeJobs (emit_job_update svc k st1))) (emit_job_update svc k st1))
    (with_active (map_delete k (activeJobs (emit_job_update svc k st2))) (emit_job_update svc k st2)))
    by (apply cs_with_active; [by rewrite (cs_active _ _ _ _ H1)|done]).
  assert (H3 : cancel_sim jid pub
    (with_completed (map_set k (completedJobs (with_active (map_delete k (activeJobs (emit_job_update svc k st1))) (emit_job_update svc k st1))))
      (with_active (map_delete k (activeJobs (emit_job_update svc k st1))) (emit_job_update svc k st1)))
    (with_completed (map_set k (completedJobs (with_active (map_delete k (activeJobs (emit_job_update svc k st2))) (emit_job_update svc k st2))))
      (with_active (map_delete k (activeJobs (emit_job_update svc k st2))) (emit_job_update svc k st2))))
    by (apply cs_with_completed; [by rewrite (cs_completed _ _ _ _ H2)|done]).
  rewrite (cs_queue_ids _ _ _ _ H3). by apply cs_processNextJob_fuel.
Qed.

Ltac sim_chain :=
  lazymatch goal with
  | |- cancel_sim ?jid ?pub (add_db ?o ?x) (add_db ?o ?y) => apply cs_add_db; sim_chain
  | |- cancel_sim ?jid ?pub (add_log ?m ?x) (add_log ?m ?y) => apply cs_add_log; sim_chain
  | |- cancel_sim ?jid ?pub (add_rejected ?k ?x) (add_rejected ?k ?y) => apply cs_add_rejected; sim_chain
  | |- cancel_sim ?jid ?pub (emit_job_update ?svc ?k ?x) (emit_job_update ?svc ?k ?y) =>
      apply cs_emit; [assumption|sim_chain]
  | |- cancel_sim ?jid ?pub (emit_job_update_msg ?svc ?k ?m ?x) (emit_job_update_msg ?svc ?k ?m ?y) =>
      apply cs_emit_msg; [assumption|sim_chain]
  | |- cancel_sim ?jid ?pub (set_pm ?k ?p ?m ?x) (set_pm ?k ?p ?m ?y) => apply cs_set_pm; sim_chain
  | |- cancel_sim ?jid ?pub (upd_job ?k (job_with_progress ?p) ?x) (upd_job ?k (job_with_progress ?p) ?y) =>
      apply cs_progress; sim_chain
  | |- cancel_sim ?jid ?pub (complete_fields ?k ?m ?x) (complete_fields ?k ?m ?y) =>
      apply cs_complete; sim_chain
  | |- cancel_sim ?jid ?pub (finish_job ?svc ?L ?k ?x) (finish_job ?svc ?L ?k ?y) =>
      apply cs_finish_job; [assumption|sim_chain]
  | |- _ => assumption
  end.

(** One resumption of any worker: the same next [await], and the relation
    kept. *)
Lemma cs_resume_worker svc L jid pub k l s st1 st2 :
  (pub = true -> publisher_ignores_payload svc) -> cancel_sim jid pub st1 st2 ->
  snd (resume_worker svc L k l s st1) = snd (resume_worker svc L k l s st2) ∧
  cancel_sim jid pub (fst (resume_worker svc L k l s st1)) (fst (resume_worker svc L k l s st2)).
Proof.
  intros Hpub H. pose proof (cs_at _ _ _ _ k H) as Hk. unfold resume_worker.
  destruct Hk as [j1 j2 Hr|]; [|done].
  destruct (cancel_rel_job_fields _ _ Hr) as (_ & Hd & Hp & Ho). rewrite Hd, Hp, Ho.
  cbv zeta.
  destruct s; repeat case_match; cbn [fst snd reject]; (split; [reflexivity|sim_chain]).
Qed.

Lemma cs_run_worker svc L jid pub f : ∀ k l s st1 st2,
  (pub = true -> publisher_ignores_payload svc) -> cancel_sim jid pub st1 st2 ->
  snd (run_worker svc L f k l s st1) = snd (run_worker svc L f k l s st2) ∧
  cancel_sim jid pub (fst (run_worker svc L f k l s st1)) (fst (run_worker svc L f k l s st2)).
Proof.
  induction f as [|f IH]; intros k l s st1 st2 Hpub H; [done|].
  rewrite !run_worker_S.
  destruct (cs_resume_worker svc L jid pub k l s st1 st2 Hpub H) as [Hs Hc].
  destruct (resume_worker svc L k l s st1) as [a1 o1], (resume_worker svc L k l s st2) as [a2 o2].
  cbn [fst snd] in Hs, Hc. subst o2. destruct o1 as [[k' l' s'|k']|]; try done.
  destruct (IH k' l' s' a1 a2 Hpub Hc) as [I1 I2]. unfold add_trace. cbn [fst snd]. by rewrite I1.
Qed.

(** The cancellation of an active job that is not complete starts the
    relation. *)
Lemma cs_cancelJob svc jid pub st j :
  jid ∈ activeJobs st -> heap st !! jid = Some j -> status j ≠ Complete ->
  cancel_sim jid pub (cancelJob svc jid st) st.
Proof.
  intros Ha Hj Hs. unfold cancelJob. case_bool_decide; [|done].
  constructor; simpl; try done.
  - exists (threads st), []. by rewrite app_nil_r.
  - intros k Hk. by rewrite lookup_alter_ne.
  - rewrite lookup_alter_eq, Hj. constructor. right. split; [|done]. done.
  - intros _. split; [|done]. apply Forall_Forall2_diag, Forall_forall. intros e _. done.
Qed.

(** The cancellation's status write, when it returns, frees the slot. *)
Lemma resume_cancel_frees svc L jid st :
  jid ∉ queue_ids st -> updateJobStatus_ok svc jid Cancelled = true ->
  (jid ∉ activeJobs (resume_cancel svc L jid st)) ∧ jid ∈ completedJobs (resume_cancel svc L jid st).
Proof.
  intros Hq Hu. unfold resume_cancel, processNextJob. rewrite Hu.
  set (st3 := with_completed _ _).
  assert (Hq3 : jid ∉ queue_ids st3) by (unfold queue_ids in *; simpl; done).
  destruct (processNextJob_fuel_notin L (S (length (queue_ids st3))) jid st3 Hq3) as (_ & P2 & P3 & _).
  rewrite P2, P3. subst st3. simpl. split.
  - unfold map_delete. rewrite list_elem_of_filter. intros [? _]. done.
  - unfold map_set. case_bool_decide; [done|]. apply elem_of_app. right. by left.
Qed.


(** ** What the worker publishes *)

Lemma emit_job_update_msg_none svc k m st : io svc = None -> emit_job_update_msg svc k m st = st.
Proof. intros Hio. unfold emit_job_update_msg, emitSocketEvent. rewrite Hio. by destruct (heap st !! k). Qed.

Lemma emit_job_update_none svc k st : io svc = None -> emit_job_update svc k st = st.
Proof.
  intros Hio. unfold emit_job_update. destruct (heap st !! k); [|done].
  by apply emit_job_update_msg_none.
Qed.

(** Without a socket server, a worker step publishes nothing. *)
Lemma resume_worker_events_none svc L k l s st :
  io svc = None -> events (fst (resume_worker svc L k l s st)) = events st.
Proof.
  intros Hio. unfold resume_worker. destruct (heap st !! k); [|done]. cbv zeta.
  destruct s; repeat case_match; cbn [fst snd reject]; unfold finish_job, processNextJob;
    rewrite ?(emit_job_update_msg_none svc _ _ _ Hio), ?(emit_job_update_none svc _ _ Hio),
      ?processNextJob_fuel_events; reflexivity.
Qed.

(** With a publisher that delivers, an update is the last event, and it
    carries the job object's fields. *)
Lemma emit_msg_publishes svc emit k m st j' :
  io svc = Some emit -> (∀ rm ev d, emit rm ev d = true) ->
  heap (emit_job_update_msg svc k m st) !! k = Some j' ->
  last (events (emit_job_update_msg svc k m st)) =
    Some (mkEvent (room (jobId j')) "job-update" (mkPayload (jobId j') (status j') (progress j') m)).
Proof.
  intros Hio Hdel. unfold emit_job_update_msg. destruct (heap st !! k) as [j|] eqn:E; [|by rewrite E].
  unfold emitSocketEvent. rewrite Hio, Hdel. simpl. rewrite E. intros [= <-]. by rewrite last_snoc.
Qed.

Lemma emit_publishes svc emit k st j' :
  io svc = Some emit -> (∀ rm ev d, emit rm ev d = true) ->
  heap (emit_job_update svc k st) !! k = Some j' ->
  ∃ m, last (events (emit_job_update svc k st)) =
    Some (mkEvent (room (jobId j')) "job-update" (mkPayload (jobId j') (status j') (progress j') m)).
Proof.
  intros Hio Hdel. unfold emit_job_update. destruct (heap st !! k) as [j|] eqn:E; [|by rewrite E].
  intros H. exists (message j). by apply (emit_msg_publishes svc emit).
Qed.

Lemma finish_publishes svc emit L k st j' :
  io svc = Some emit -> (∀ rm ev d, emit rm ev d = true) -> k ∉ queue_ids st ->
  heap (finish_job svc L k st) !! k = Some j' ->
  ∃ m, last (events (finish_job svc L k st)) =
    Some (mkEvent (room (jobId j')) "job-update" (mkPayload (jobId j') (status j') (progress j') m)).
Proof.
  intros Hio Hdel Hq. unfold finish_job, processNextJob.
  destruct (emit_job_update_frame svc k st) as (F0 & F1 & F2 & F3 & _).
  set (st3 := with_completed _ _).
  assert (Hq3 : k ∉ queue_ids st3) by (unfold queue_ids in *; simpl; rewrite F1, F2, F3; done).
  destruct (processNextJob_fuel_notin L (S (length (queue_ids st3))) k st3 Hq3) as (P1 & _).
  rewrite P1, processNextJob_fuel_events. subst st3. simpl. by apply (emit_publishes svc emit).
Qed.


(** * The claims *)

(** C3: [processNextJob] starts a prefix of [high ++ normal ++ low] (as many
    jobs as free slots allow): a tier is reached only once every higher tier
    is exhausted, and each tier is consumed from its head (FIFO). In the
    scenario H1 (high), N1 (normal), H2 (high) with one slot, the jobs start
    in the order H1, H2, N1. *)
Theorem processNextJob_strict_priority (L : nat) (st : State) :
  NoDup (queue_ids st) ->
  (∀ k, k ∈ queue_ids st -> k ∉ activeJobs st) ->
  let n := L - length (activeJobs st) in
  let st' := processNextJob L st in
  (activeJobs st' = activeJobs st ++ take n (q_high st ++ q_normal st ++ q_low st) ∧
   q_high st' = drop n (q_high st) ∧
   q_normal st' = drop (n - length (q_high st)) (q_normal st) ∧
   q_low st' = drop (n - length (q_high st) - length (q_normal st)) (q_low st)) ∧
  started_jobs ex_priority_run = ["H1"; "H2"; "N1"].
Proof.
  intros Hnd Hdis n st'. split; [|vm_compute; reflexivity].
  destruct (processNextJob_spec L st Hnd Hdis) as (H1 & H2 & H3 & H4 & _).
  repeat split; [exact H1|exact H2|exact H3|exact H4].
Qed.

(** C8: when the repository write of [queueJob] fails, the call fails with
    [Failed to queue job] and leaves the queue, the active jobs, the job
    objects, the suspended calls and the repository untouched. *)
Theorem queueJob_store_failure (svc : Services) (L : nat) (j : Job) (st : State) :
  saveJob_ok svc j = false ->
  snd (queueJob svc L j st) = QueueError "Failed to queue job" ∧
  frame st (fst (queueJob svc L j st)).
Proof. intros H. unfold queueJob. rewrite H. split; [done|repeat split]. Qed.

Lemma processNextJob_strict_priority_witness :
  NoDup (queue_ids ex_queued) ∧
  (∀ k, k ∈ queue_ids ex_queued -> k ∉ activeJobs ex_queued) ∧
  ((activeJobs (processNextJob 1 ex_queued) = [] ++ take 1 ["H1"; "H2"; "N1"] ∧
    q_high (processNextJob 1 ex_queued) = drop 1 ["H1"; "H2"] ∧
    q_normal (processNextJob 1 ex_queued) = drop (1 - 2) ["N1"] ∧
    q_low (processNextJob 1 ex_queued) = drop (1 - 2 - 1) []) ∧
   started_jobs ex_priority_run = ["H1"; "H2"; "N1"]).
Proof.
  assert (Hnd : NoDup (queue_ids ex_queued)) by (vm_compute; repeat constructor; set_solver).
  assert (Hdis : ∀ k, k ∈ queue_ids ex_queued -> k ∉ activeJobs ex_queued)
    by (intros k _ Hk; inversion Hk).
  split; [exact Hnd|]. split; [exact Hdis|].
  exact (processNextJob_strict_priority 1 ex_queued Hnd Hdis).
Defined.

Lemma queueJob_store_failure_witness :
  saveJob_ok ex_save_fail_svc (ex_job "J" Normal) = false ∧
  snd (queueJob ex_save_fail_svc 1 (ex_job "J" Normal) empty_state) = QueueError "Failed to queue job" ∧
  frame empty_state (fst (queueJob ex_save_fail_svc 1 (ex_job "J" Normal) empty_state)).
Proof.
  split; [reflexivity|].
  apply (queueJob_store_failure ex_save_fail_svc 1 (ex_job "J" Normal) empty_state). reflexivity.
Defined.


(** C4: in every reachable state (the scrape manager initialised from the
    store, then any interleaving of submissions, cancellations and
    resumptions of suspended calls), [activeJobs] holds at most
    [MAX_CONCURRENT_JOBS] jobs, and so does the set of jobs whose status is
    [processing]. *)
Theorem concurrency_limit (svc : Services) (L : nat) (st : State) :
  reachable svc L st ->
  length (activeJobs st) <= L ∧ size (processing_jobs st) <= L.
Proof.
  intros Hr. destruct (Inv_reachable svc L st Hr) as [Hnd Hlen _ _ Hproc _ _ _ _ _].
  split; [done|]. unfold processing_jobs.
  rewrite <- (size_dom (D := gset string)).
  transitivity (size (list_to_set (C := gset string) (activeJobs st))).
  - apply subseteq_size. intros k Hk.
    apply elem_of_dom in Hk as [j Hj]. apply map_lookup_filter_Some in Hj as [Hj Hs].
    apply elem_of_list_to_set. eauto.
  - rewrite size_list_to_set by done. done.
Qed.

Lemma concurrency_limit_witness :
  reachable ex_cancel_svc 1 ex_two ∧
  (length (activeJobs ex_two) <= 1 ∧ size (processing_jobs ex_two) <= 1).
Proof.
  assert (Hr : reachable ex_cancel_svc 1 ex_two).
  { unfold ex_two. exists (Some []). split; [constructor|].
    eapply rtc_l; [apply (step_submit _ _ (ex_job "J" Normal)); reflexivity|].
    eapply rtc_l; [apply (step_submit _ _ (ex_job "K" Normal)); [reflexivity|vm_compute; reflexivity]|].
    apply rtc_refl. }
  split; [exact Hr|]. exact (concurrency_limit ex_cancel_svc 1 _ Hr).
Defined.

(** C5 (the code differs): when a store write fails mid-job (here the final
    [updateJobStatus(jobId, 'complete')] of job J, with job K queued behind
    it and one slot), the job is not marked [failed]: its in-memory status
    is already [complete]; J keeps its slot in [activeJobs], K is never
    dispatched, no terminal event is published (the last one is the 80%
    milestone with status [processing]), and the [processJob] promise
    rejects. *)
Theorem pipeline_failure_keeps_slot :
  heap ex_fail_run !! "J" = Some (mkJob "J" "www.J.com" 1 Normal None Complete 100 "Scrape completed") ∧
  activeJobs ex_fail_run = ["J"] ∧ queue_ids ex_fail_run = ["K"] ∧
  threads ex_fail_run = [] ∧ completedJobs ex_fail_run = [] ∧
  rejected ex_fail_run = ["J"] ∧
  last (events ex_fail_run) =
    Some (mkEvent "job-J" "job-update" (mkPayload "J" Processing 80 "Building final results")) ∧
  Forall (fun e => p_status (ev_data e) = Processing) (events ex_fail_run).
Proof. vm_compute. split_and!; try reflexivity. repeat constructor. Qed.




(** C10 (corrected): cancelling a processing job sets, at that moment, its
    status to [cancelled], its progress to 0 and its message to
    [Job cancelled by user], publishing nothing, and adds the suspended
    status write of the cancellation. The worker is not stopped: resumed
    after the cancellation, it goes through exactly the stages it goes
    through without it, and when that run completes the job, the job ends
    with the same fields as without the cancellation (status [complete],
    progress 100 and the completion message), so its last progress need not
    be 0. *)
Theorem cancel_sets_progress_zero (svc : Services) (L : nat) (jid : string) (st : State) (j : Job) :
  jid ∈ activeJobs st -> heap st !! jid = Some j -> status j = Processing ->
  heap (cancelJob svc jid st) !! jid =
    Some (job_with_message "Job cancelled by user" (job_with_progress 0 (job_with_status Cancelled j))) ∧
  events (cancelJob svc jid st) = events st ∧
  threads (cancelJob svc jid st) = threads st ++ [CancelActive jid] ∧
  ∀ f l s,
    let r := run_worker svc L f jid l s st in
    let rc := run_worker svc L f jid l s (cancelJob svc jid st) in
    snd rc = snd r ∧
    ∀ j', heap (fst r) !! jid = Some j' -> status j' = Complete -> heap (fst rc) !! jid = Some j'.
Proof.
  intros Ha Hj Hp. split_and!.
  - unfold cancelJob. case_bool_decide; [|done]. simpl. by rewrite lookup_alter_eq, Hj.
  - apply cancelJob_events.
  - unfold cancelJob. by case_bool_decide.
  - intros f l s r rc.
    assert (H0 : cancel_sim jid false (cancelJob svc jid st) st)
      by (apply (cs_cancelJob svc jid false st j); [done|done|by rewrite Hp]).
    destruct (cs_run_worker svc L jid false f jid l s _ _ ltac:(discriminate) H0) as [Hs Hc].
    split; [exact Hs|]. intros j' Hj' Hc'.
    pose proof (cs_heap_jid _ _ _ _ Hc) as Hr. fold rc r in Hr. rewrite Hj' in Hr.
    inversion Hr as [j1 j2 [->|[_ Hn]] E1 E2|]; [done|contradiction].
Qed.

Lemma cancel_sets_progress_zero_witness :
  "J" ∈ activeJobs ex_cancel_before ∧
  heap (cancelJob ex_cancel_svc "J" ex_cancel_before) !! "J" =
    Some (job_with_message "Job cancelled by user" (job_with_progress 0
      (job_with_status Cancelled (mkJob "J" "www.J.com" 1 Normal None Processing 10 "Discovering pages")))) ∧
  snd (run_worker ex_cancel_svc 1 20 "J" locals0 W_Select (cancelJob ex_cancel_svc "J" ex_cancel_before)) =
    snd (run_worker ex_cancel_svc 1 20 "J" locals0 W_Select ex_cancel_before) ∧
  heap (fst (run_worker ex_cancel_svc 1 20 "J" locals0 W_Select (cancelJob ex_cancel_svc "J" ex_cancel_before))) !! "J" =
    Some (mkJob "J" "www.J.com" 1 Normal None Complete 100 "Scrape completed").
Proof.
  assert (Ha : "J" ∈ activeJobs ex_cancel_before) by (vm_compute; left).
  assert (Hj : heap ex_cancel_before !! "J" =
    Some (mkJob "J" "www.J.com" 1 Normal None Processing 10 "Discovering pages")) by (vm_compute; reflexivity).
  destruct (cancel_sets_progress_zero ex_cancel_svc 1 "J" ex_cancel_before _ Ha Hj eq_refl)
    as (H1 & _ & _ & H4).
  destruct (H4 20 locals0 W_Select) as [H5 H6].
  split; [exact Ha|]. split; [exact H1|]. split; [exact H5|].
  apply H6; vm_compute; reflexivity.
Defined.

(** Counterexample to C10: J is cancelled at 10% (progress set to 0), but
    its worker carries on; its last published progress is 100, and the job
    object ends with progress 100 and status [complete]. *)
Lemma cancelled_progress_overwritten :
  option_map progress (heap ex_cancel_after !! "J") = Some 0 ∧
  option_map (fun j => (status j, progress j)) (heap ex_cancel_end !! "J") = Some (Complete, 100) ∧
  option_map (fun e => p_progress (ev_data e)) (last (events ex_cancel_end)) = Some 100.
Proof. vm_compute. split_and!; reflexivity. Qed.




(** C9 (corrected): [processJob] calls discovery with [bypassCooldown =
    true] and [cooldownMinutes = 5] for every job. So, with a discovery
    engine that follows the documented cooldown rule, the worker always
    continues with the fresh crawl, even for a domain crawled within the
    cooldown window, whatever was stored by that crawl: the pages of the
    fresh crawl are extracted, and when the fresh crawl is empty the job
    goes on to the minimal results of its domain. *)
Theorem pipeline_discovery_bypasses_cooldown (svc : Services) (L : nat) (jid : string) (l : Locals)
  (st : State) (j : Job) (last_crawl : string -> option (nat * list Page))
  (fresh : string -> list Page) :
  heap st !! jid = Some j ->
  (∀ d dep id o, discoverPages svc d dep id o = Some (discover_spec (last_crawl d) (fresh d) o)) ->
  bypassCooldown (discover_options j) = true ∧ cooldownMinutes (discover_options j) = 5 ∧
  snd (resume_worker svc L jid l W_Discover st) =
    Some (Worker jid (with_pages (fresh (domain j)) l)
            (match fresh (domain j) with
             | [] => W_MinSave (minimalResults (domain j))
             | _ => W_Page 0
             end)).
Proof.
  intros Hj Hd. split_and!; [done|done|].
  unfold resume_worker. rewrite Hj, Hd. unfold discover_spec.
  assert (Hr : match last_crawl (domain j) with
               | Some (age, stored) =>
                   if (age <? cooldownMinutes (discover_options j)) &&
                      negb (bypassCooldown (discover_options j)) then stored else fresh (domain j)
               | None => fresh (domain j)
               end = fresh (domain j)).
  { destruct (last_crawl (domain j)) as [[age stored]|]; [|done]. simpl.
    by rewrite andb_false_r. }
  rewrite Hr. destruct (fresh (domain j)); done.
Qed.

Lemma pipeline_discovery_bypasses_cooldown_witness :
  let svc := mkServices (Some (fun _ _ _ => true)) (fun _ => true) (fun _ _ => true)
    (fun _ => Some false) (fun _ => Some (Some 7)) (fun _ => Some 7) (fun _ _ => true)
    (fun d _ _ o => Some (discover_spec (Some (1, [mkPage "https://a.example/" None]))
                                        ex_pages o))
    (fun _ => Some (Some "<html></html>")) (fun _ _ => None) (fun _ _ => true) in
  heap ex_cancel_before !! "J" = Some (mkJob "J" "www.J.com" 1 Normal None Processing 10 "Discovering pages") ∧
  bypassCooldown (discover_options (mkJob "J" "www.J.com" 1 Normal None Processing 10 "Discovering pages")) = true ∧
  cooldownMinutes (discover_options (mkJob "J" "www.J.com" 1 Normal None Processing 10 "Discovering pages")) = 5 ∧
  snd (resume_worker svc 1 "J" locals0 W_Discover ex_cancel_before) =
    Some (Worker "J" (with_pages ex_pages locals0) (W_Page 0)) ∧
  (* the same domain, whose fresh crawl now finds nothing *)
  let svc0 := mkServices (Some (fun _ _ _ => true)) (fun _ => true) (fun _ _ => true)
    (fun _ => Some false) (fun _ => Some (Some 7)) (fun _ => Some 7) (fun _ _ => true)
    (fun d _ _ o => Some (discover_spec (Some (1, [mkPage "https://a.example/" None])) [] o))
    (fun _ => Some (Some "<html></html>")) (fun _ _ => None) (fun _ _ => true) in
  snd (resume_worker svc0 1 "J" locals0 W_Discover ex_cancel_before) =
    Some (Worker "J" (with_pages [] locals0) (W_MinSave (minimalResults "www.J.com"))).
Proof.
  intros svc.
  assert (Hj : heap ex_cancel_before !! "J" =
    Some (mkJob "J" "www.J.com" 1 Normal None Processing 10 "Discovering pages")) by (vm_compute; reflexivity).
  split; [exact Hj|].
  destruct (pipeline_discovery_bypasses_cooldown svc 1 "J" locals0 ex_cancel_before _
           (fun _ => Some (1, [mkPage "https://a.example/" None])) (fun _ => ex_pages)
           Hj (fun d dep id o => eq_refl)) as (H1 & H2 & H3).
  split_and!; [exact H1|exact H2|exact H3|].
  intros svc0.
  exact (proj2 (proj2 (pipeline_discovery_bypasses_cooldown svc0 1 "J" locals0 ex_cancel_before _
           (fun _ => Some (1, [mkPage "https://a.example/" None])) (fun _ => [])
           Hj (fun d dep id o => eq_refl)))).
Defined.

(** Counterexample to C9: J's domain was crawled one minute ago (inside the
    5-minute window) with one stored page; the options [processJob] passes
    make discovery crawl again and return two pages, not the stored one. *)
Lemma pipeline_ignores_cooldown :
  bypassCooldown (discover_options (ex_job "J" Normal)) = true ∧
  discover_spec (Some (1, [mkPage "https://a.example/" None])) ex_pages
    (discover_options (ex_job "J" Normal)) = ex_pages ∧
  discover_spec (Some (1, [mkPage "https://a.example/" None])) ex_pages
    (mkDiscoverOptions 25 false 5) = [mkPage "https://a.example/" None] ∧
  ex_pages ≠ [mkPage "https://a.example/" None].
Proof. split_and!; try reflexivity. discriminate. Qed.

(** C2: when discovery returns no page, the worker goes straight from
    discovery to saving the minimal results built from the domain name alone
    (no page is fetched and no extractor runs); that object has
    [blog.hasBlog = false], an empty [images.all] and the default palette in
    [colors], and the job ends [complete] at 100 with the message
    "Scrape completed with minimal results", leaving [activeJobs] for
    [completedJobs]. *)
Theorem empty_discovery_minimal_results svc L jid j l st :
  heap st !! jid = Some j -> jid ∉ queue_ids st ->
  discoverPages svc (domain j) (depth j) jid (discover_options j) = Some [] ->
  saveResults_ok svc jid (minimalResults (domain j)) = true ->
  updateJobStatus_ok svc jid Complete = true ->
  let res := run_worker svc L 3 jid l W_Discover st in
  let r := minimalResults (domain j) in
  snd res = [W_Discover; W_MinSave r; W_MinDone] ∧
  (∃ j', heap (fst res) !! jid = Some j' ∧ domain j' = domain j ∧ status j' = Complete ∧
         progress j' = 100 ∧ message j' = "Scrape completed with minimal results") ∧
  DbResults jid r ∈ db (fst res) ∧
  (jid ∉ activeJobs (fst res)) ∧ jid ∈ completedJobs (fst res) ∧
  jpath ["blog"; "hasBlog"] r = Some (JBool false) ∧
  jpath ["images"; "all"] r = Some (JArr []) ∧
  jpath ["colors"] r = Some default_colors.
Proof.
  intros Hj Hq Hd Hs Hu res r. subst r.
  destruct res as [stf tr] eqn:E. subst res. cbn [fst snd].
  rewrite !run_worker_S in E. unfold resume_worker at 1 in E. rewrite Hj, Hd in E.
  set (st1 := emit_job_update svc jid _) in E.
  assert (Hf1 : stage_frame jid (domain j) st st1).
  { subst st1. stage_chain. split_and!; try done. by exists j. }
  pose proof Hf1 as (Q1 & Q2 & Q3 & _ & _ & _ & j1 & Hj1 & Hd1).
  rewrite run_worker_S in E. unfold resume_worker at 1 in E. rewrite Hj1, Hs in E.
  set (st2 := complete_fields jid _ _) in E.
  assert (Hj2 : ∃ j2, heap st2 !! jid = Some j2 ∧ domain j2 = domain j ∧ status j2 = Complete ∧
           progress j2 = 100 ∧ message j2 = "Scrape completed with minimal results").
  { eexists. subst st2. simpl. rewrite lookup_alter_eq, Hj1. split_and!; done. }
  destruct Hj2 as (j2 & Hj2 & Hd2 & Hs2 & Hp2 & Hm2).
  unfold run_worker, resume_worker in E. rewrite Hj2, Hu in E. cbn [fst snd add_trace app] in E.
  injection E as <- <-.
  assert (Hq2 : jid ∉ queue_ids (add_db (DbJobStatus jid Complete) st2)).
  { unfold queue_ids in *. subst st2. simpl. rewrite Q1, Q2, Q3. done. }
  destruct (finish_job_facts svc L jid _ Hq2) as (R1 & R2 & R3 & R4).
  rewrite R1, R4. split_and!; try done.
  - by exists j2.
  - subst st2. simpl. rewrite elem_of_app. left. rewrite elem_of_app. right. by left.
Qed.

Lemma empty_discovery_minimal_results_witness :
  heap ex_empty_start !! "J" = Some (mkJob "J" "www.J.com" 1 Normal None Processing 10 "Discovering pages") ∧
  threads ex_empty_start = [Worker "J" (mkLocals (Some 7) [] [] []) W_Discover] ∧
  let res := run_worker ex_empty_svc 1 3 "J" (mkLocals (Some 7) [] [] []) W_Discover ex_empty_start in
  let r := minimalResults "www.J.com" in
  snd res = [W_Discover; W_MinSave r; W_MinDone] ∧
  (∃ j', heap (fst res) !! "J" = Some j' ∧ domain j' = "www.J.com" ∧ status j' = Complete ∧
         progress j' = 100 ∧ message j' = "Scrape completed with minimal results") ∧
  DbResults "J" r ∈ db (fst res) ∧
  ("J" ∉ activeJobs (fst res)) ∧ "J" ∈ completedJobs (fst res) ∧
  jpath ["blog"; "hasBlog"] r = Some (JBool false) ∧
  jpath ["images"; "all"] r = Some (JArr []) ∧
  jpath ["colors"] r = Some default_colors.
Proof.
  split; [vm_compute; reflexivity|]. split; [vm_compute; reflexivity|].
  apply (empty_discovery_minimal_results ex_empty_svc 1 "J"
           (mkJob "J" "www.J.com" 1 Normal None Processing 10 "Discovering pages")
           (mkLocals (Some 7) [] [] []) ex_empty_start).
  - vm_compute. reflexivity.
  - assert (Hq : queue_ids ex_empty_start = []) by (vm_compute; reflexivity).
    rewrite Hq. apply not_elem_of_nil.
  - reflexivity.
  - reflexivity.
  - reflexivity.
Defined.

(** C1 (corrected): a job whose discovery returns pages, whose page
    fetches all return, and of whose six extractors one ([e0]) throws: the
    worker runs every page and every extractor; in the combined results the
    section of [e0] holds its default, and the section of every other
    extractor holds its output when that output is truthy and the section's
    default when it is falsy ([null], [false], 0, the empty string). Given
    that the final status write succeeds (see C5), the job ends [complete]
    at 100 with "Scrape completed" and leaves [activeJobs] for
    [completedJobs], whatever the [domain_info] id; with a non-zero id the
    results are handed to the [UPDATE domain_info] first. *)
Theorem one_extractor_failure_isolated svc L jid j l pages e0 st :
  heap st !! jid = Some j -> jid ∉ queue_ids st ->
  l_contents l = [] -> l_outs l = [] ->
  discoverPages svc (domain j) (depth j) jid (discover_options j) = Some pages ->
  pages ≠ [] ->
  (∀ p, p ∈ pages -> is_Some (extractPageContent svc (url p))) ->
  let pcs := pages_with_content pages (contents_of svc pages) in
  extract svc e0 pcs = None ->
  updateJobStatus_ok svc jid Complete = true ->
  let r := assemble_results (domain j) (length pages) (outs_of svc pcs extractor_order) in
  let res := run_worker svc L (length pages + 9) jid l W_Discover st in
  snd res = [W_Discover] ++ map W_Page (seq 0 (length pages)) ++ map W_Extract (seq 0 6) ++
            (match l_domainInfoId l with
             | Some (S _) => [W_StoreData r; W_Done]
             | _ => [W_Done]
             end) ∧
  jpath [section_key e0] r = Some (section_default (domain j) e0) ∧
  (∀ e v, e ≠ e0 -> extract svc e pcs = Some v ->
     jpath [section_key e] r = Some (if truthy v then v else section_default (domain j) e)) ∧
  (∃ j', heap (fst res) !! jid = Some j' ∧ domain j' = domain j ∧ status j' = Complete ∧
         progress j' = 100 ∧ message j' = "Scrape completed") ∧
  (jid ∉ activeJobs (fst res)) ∧ jid ∈ completedJobs (fst res) ∧
  db (fst res) = db st ++
    (match l_domainInfoId l with
     | Some (S id') => if query_update_data_ok svc (S id') r then [DbDomainData (S id') r] else []
     | _ => []
     end) ++ [DbJobStatus jid Complete].
Proof.
  intros Hj Hq Hc Ho Hd Hne Hok pcs He0 Hu r res.
  assert (Hsec0 : jpath [section_key e0] r = Some (section_default (domain j) e0))
    by (unfold r; rewrite assemble_section, He0; reflexivity).
  assert (Hsec : ∀ e v, e ≠ e0 -> extract svc e pcs = Some v ->
            jpath [section_key e] r = Some (if truthy v then v else section_default (domain j) e))
    by (intros e v _ Hv; unfold r; rewrite assemble_section, Hv; reflexivity).
  destruct res as [stf tr] eqn:E. subst res. cbn [fst snd].
  replace (length pages + 9) with (S (length pages - 0 + (6 + 2))) in E by lia.
  rewrite run_worker_S in E. unfold resume_worker at 1 in E. rewrite Hj, Hd in E.
  destruct pages as [|p0 ps]; [done|].
  set (st1 := emit_job_update svc jid (set_pm jid 30 "Extracting content" st)) in E.
  assert (Hf1 : stage_frame jid (domain j) st st1).
  { subst st1. stage_chain. split_and!; try done. by exists j. }
  cbn iota beta in E.
  destruct (page_loop svc L jid (domain j) (6 + 2) (length (p0 :: ps) - 0) 0
              (with_pages (p0 :: ps) l) st st1 eq_refl ltac:(simpl; lia) Hf1
              ltac:(simpl; rewrite Hc; done) Hok) as (st2 & Hf2 & E2).
  rewrite E2 in E. clear E2.
  assert (Hcase : (∃ id', l_domainInfoId l = Some (S id')) ∨
                  (l_domainInfoId l = None ∨ l_domainInfoId l = Some 0))
    by (destruct (l_domainInfoId l) as [[|id']|]; eauto).
  destruct Hcase as [[id' Hid]|Hid].
  - rewrite Hid.
    destruct (extract_loop svc L jid (domain j)
                (with_contents (contents_of svc (l_pages (with_pages (p0 :: ps) l))) (with_pages (p0 :: ps) l))
                id' 2 st st2 Hf2 Ho Hid) as (st3 & Hf3 & E3).
    rewrite E3 in E. clear E3.
    erewrite (store_done_steps svc L jid (domain j) _ (S id') _ st st3 Hf3) in E; [|exact Hid|exact Hu].
    assert (Hfin : (stf, tr) =
      (finish_job svc L jid (add_db (DbJobStatus jid Complete) (complete_fields jid "Scrape completed"
         (if query_update_data_ok svc (S id') r then add_db (DbDomainData (S id') r) st3
          else add_log "[JOB] Error storing website data" st3))),
       [W_Discover] ++ map W_Page (seq 0 (length (p0 :: ps))) ++ map W_Extract (seq 0 6) ++
       [W_StoreData r; W_Done])) by (rewrite <- E; reflexivity).
    injection Hfin as -> ->. clear E.
    destruct Hf3 as (Q1 & Q2 & Q3 & Q4 & Q5 & Q6 & j3 & Hj3 & Hd3).
    set (st4 := if query_update_data_ok svc (S id') r then _ else _).
    assert (H4 : heap st4 = heap st3 ∧ queue_ids st4 = queue_ids st3 ∧
                 db st4 = db st3 ++ (if query_update_data_ok svc (S id') r
                                     then [DbDomainData (S id') r] else [])).
    { subst st4. destruct (query_update_data_ok _ _ _); simpl; rewrite ?app_nil_r; done. }
    destruct H4 as (H4h & H4q & H4d).
    assert (Hq4 : jid ∉ queue_ids (add_db (DbJobStatus jid Complete) (complete_fields jid "Scrape completed" st4))).
    { unfold queue_ids in *. simpl. rewrite H4q. simpl. rewrite Q1, Q2, Q3. done. }
    destruct (finish_job_facts svc L jid _ Hq4) as (R1 & R2 & R3 & R4).
    split_and!; try done.
    + rewrite R1. simpl. rewrite lookup_alter_eq, H4h, Hj3. simpl. eexists. split_and!; done.
    + rewrite R4. simpl. rewrite H4d, Q6. by rewrite <- app_assoc.
  - destruct (extract_loop_norow svc L jid (domain j)
                (with_contents (contents_of svc (l_pages (with_pages (p0 :: ps) l))) (with_pages (p0 :: ps) l))
                2 st st2 Hf2 Ho Hid) as (st3 & Hf3 & E3).
    rewrite E3 in E. clear E3.
    rewrite (done_step svc L jid (domain j) _ "Scrape completed" 1 st st3 Hf3 Hu) in E.
    assert (Hfin : (stf, tr) =
      (finish_job svc L jid (add_db (DbJobStatus jid Complete) (complete_fields jid "Scrape completed" st3)),
       [W_Discover] ++ map W_Page (seq 0 (length (p0 :: ps))) ++ map W_Extract (seq 0 6) ++
       [W_Done])) by (rewrite <- E; reflexivity).
    injection Hfin as -> ->. clear E.
    destruct Hf3 as (Q1 & Q2 & Q3 & Q4 & Q5 & Q6 & j3 & Hj3 & Hd3).
    assert (Hq4 : jid ∉ queue_ids (add_db (DbJobStatus jid Complete) (complete_fields jid "Scrape completed" st3))).
    { unfold queue_ids in *. simpl. rewrite Q1, Q2, Q3. done. }
    destruct (finish_job_facts svc L jid _ Hq4) as (R1 & R2 & R3 & R4).
    destruct Hid as [Hid|Hid]; rewrite Hid; split_and!; try done.
    all: try (rewrite R1; simpl; rewrite lookup_alter_eq, Hj3; simpl; eexists; split_and!; done).
    all: rewrite R4; simpl; by rewrite Q6.
Qed.

Lemma one_extractor_failure_isolated_witness :
  let svc := ex_one_fail_svc in
  let pcs := pages_with_content ex_pages (contents_of svc ex_pages) in
  let r := assemble_results "www.J.com" 2 (outs_of svc pcs extractor_order) in
  let res := run_worker svc 1 (length ex_pages + 9) "J" (mkLocals (Some 7) [] [] []) W_Discover
               ex_one_fail_start in
  snd res = [W_Discover] ++ map W_Page (seq 0 2) ++ map W_Extract (seq 0 6) ++
            [W_StoreData r; W_Done] ∧
  jpath [section_key ColorEx] r = Some (section_default "www.J.com" ColorEx) ∧
  (∃ j', heap (fst res) !! "J" = Some j' ∧ domain j' = "www.J.com" ∧ status j' = Complete ∧
         progress j' = 100 ∧ message j' = "Scrape completed") ∧
  ("J" ∉ activeJobs (fst res)) ∧ "J" ∈ completedJobs (fst res) ∧
  db (fst res) = db ex_one_fail_start ++
                 (if query_update_data_ok svc 7 r then [DbDomainData 7 r] else [])
                 ++ [DbJobStatus "J" Complete].
Proof.
  assert (Hj : heap ex_one_fail_start !! "J" =
    Some (mkJob "J" "www.J.com" 1 Normal None Processing 10 "Discovering pages")) by (vm_compute; reflexivity).
  assert (Hq : "J" ∉ queue_ids ex_one_fail_start).
  { assert (Hq : queue_ids ex_one_fail_start = []) by (vm_compute; reflexivity).
    rewrite Hq. apply not_elem_of_nil. }
  destruct (one_extractor_failure_isolated ex_one_fail_svc 1 "J"
           (mkJob "J" "www.J.com" 1 Normal None Processing 10 "Discovering pages")
           (mkLocals (Some 7) [] [] []) ex_pages ColorEx ex_one_fail_start Hj Hq eq_refl eq_refl eq_refl
           ltac:(discriminate) (fun p _ => ex_intro _ _ eq_refl) eq_refl eq_refl)
    as (H1 & H2 & _ & H4 & H5 & H6 & H7).
  split_and!; assumption.
Defined.

(** Counterexample to C1: the colour extractor throws and the general
    extractor returns [null] without throwing; J completes, and the results
    stored for J hold the default general section, not the extractor's
    output. *)
Lemma falsy_output_replaced_by_default :
  let pcs := pages_with_content ex_pages (contents_of ex_null_svc ex_pages) in
  extract ex_null_svc ColorEx pcs = None ∧
  extract ex_null_svc GeneralEx pcs = Some JNull ∧
  option_map (fun j => (status j, progress j)) (heap ex_null_run !! "J") = Some (Complete, 100) ∧
  completedJobs ex_null_run = ["J"] ∧
  omap (fun o => match o with DbDomainData _ r => jpath ["general"] r | _ => None end) (db ex_null_run) =
    [default_general "www.J.com"].
Proof. vm_compute. split_and!; reflexivity. Qed.

(** * Further properties of the scrape manager *)

(** ** Dispatch, read without the invariant *)

Lemma pop_next_rest st jid st1 :
  pop_next st = Some (jid, st1) ->
  completedJobs st1 = completedJobs st ∧ db st1 = db st ∧ logs st1 = logs st.
Proof.
  unfold pop_next. destruct (q_high st), (q_normal st), (q_low st); intros H; inversion H; done.
Qed.

Lemma processNextJob_fuel_sub L f st :
  (∀ k, k ∈ activeJobs (processNextJob_fuel L f st) -> k ∈ activeJobs st ∨ k ∈ queue_ids st) ∧
  (∀ k, k ∈ queue_ids (processNextJob_fuel L f st) -> k ∈ queue_ids st) ∧
  completedJobs (processNextJob_fuel L f st) = completedJobs st ∧
  (∀ k, is_Some (heap st !! k) -> is_Some (heap (processNextJob_fuel L f st) !! k)) ∧
  (length (queue_ids st) < f ->
   L <= length (activeJobs (processNextJob_fuel L f st)) ∨ queue_ids (processNextJob_fuel L f st) = []).
Proof.
  revert st. induction f as [|f IH]; intros st.
  { simpl. split_and!; auto. lia. }
  rewrite processNextJob_fuel_S.
  destruct (L <=? length (activeJobs st)) eqn:Hcap.
  { apply Nat.leb_le in Hcap. split_and!; auto. }
  apply Nat.leb_gt in Hcap.
  destruct (pop_next st) as [[jid st1]|] eqn:Hp.
  2:{ split_and!; auto. intros _. right. unfold queue_ids.
    destruct (pop_next_None st Hp) as (-> & -> & ->). done. }
  pose proof (pop_next_queue_ids _ _ _ Hp) as Hq.
  destruct (pop_next_Some _ _ _ Hp) as (Ha1 & Hh1 & _ & _).
  destruct (pop_next_rest _ _ _ Hp) as (Hc1 & _ & _).
  set (st2 := processJob_start jid st1).
  assert (A2 : ∀ k, k ∈ activeJobs st2 -> k ∈ activeJobs st ∨ k ∈ queue_ids st).
  { intros k. subst st2. rewrite processJob_start_active, Ha1. unfold map_set.
    case_bool_decide; [by left|]. rewrite elem_of_app, list_elem_of_singleton.
    intros [?| ->]; [by left|]. right. rewrite Hq. by left. }
  assert (Q2 : queue_ids st2 = queue_ids st1).
  { unfold queue_ids. subst st2. destruct (processJob_start_queues jid st1) as (-> & -> & ->). done. }
  assert (C2 : completedJobs st2 = completedJobs st) by (subst st2; simpl; done).
  assert (H2 : ∀ k, is_Some (heap st !! k) -> is_Some (heap st2 !! k)).
  { intros k Hk. subst st2. simpl. rewrite Hh1. by apply lookup_alter_is_Some. }
  destruct (length (activeJobs st2) <? L) eqn:Hlt.
  - destruct (IH st2) as (I1 & I2 & I3 & I4 & I5). split_and!.
    + intros k Hk. destruct (I1 k Hk) as [Ha|Ha]; [by apply A2|].
      right. rewrite Hq. right. by rewrite <- Q2.
    + intros k Hk. rewrite Hq. right. rewrite <- Q2. by apply I2.
    + by rewrite I3.
    + intros k Hk. by apply I4, H2.
    + intros Hf. apply I5. rewrite Q2. rewrite Hq in Hf. simpl in Hf. lia.
  - apply Nat.ltb_ge in Hlt. split_and!; auto.
    intros k Hk. rewrite Hq. right. by rewrite <- Q2.
Qed.

Lemma processNextJob_fills L st :
  L <= length (activeJobs (processNextJob L st)) ∨ queue_ids (processNextJob L st) = [].
Proof.
  unfold processNextJob.
  destruct (processNextJob_fuel_sub L (S (length (queue_ids st))) st) as (_ & _ & _ & _ & H). apply H. lia.
Qed.

Lemma cancelJob_active svc jid st : activeJobs (cancelJob svc jid st) = activeJobs st.
Proof.
  unfold cancelJob, cancel_write. case_bool_decide; [done|].
  repeat (case_match; try done); simpl; repeat case_match; done.
Qed.

Ltac fills :=
  match goal with
  | H : length (activeJobs (processNextJob ?L ?x)) < _ |- _ =>
      destruct (processNextJob_fills L x) as [?|?]; [lia|done]
  end.

Lemma wc_step svc L st st' :
  step svc L st st' ->
  (length (activeJobs st) < L -> queue_ids st = []) ->
  length (activeJobs st') < L -> queue_ids st' = [].
Proof.
  intros Hs Hwc. destruct Hs as [j st Hst Hf|jid st|i st Hi].
  - unfold queueJob. destruct (saveJob_ok svc j); simpl; [|exact Hwc].
    set (st3 := push_tier _ _ _).
    assert (Ha3 : activeJobs st3 = activeJobs st) by (subst st3; by destruct (priority j)).
    destruct (length (activeJobs st3) <? L) eqn:Hlt.
    + intros Hl. destruct (processNextJob_fills L st3) as [?|?]; [lia|done].
    + apply Nat.ltb_ge in Hlt. lia.
  - rewrite cancelJob_active. intros Hl. specialize (Hwc Hl).
    unfold queue_ids in Hwc. apply app_eq_nil in Hwc as [Hh Hnl]. apply app_eq_nil in Hnl as [Hn Hl'].
    unfold cancelJob. case_bool_decide.
    + unfold queue_ids. simpl. by rewrite Hh, Hn, Hl'.
    + rewrite Hh, Hn, Hl'. simpl. unfold cancel_write, queue_ids.
      destruct (updateJobStatus_ok svc jid Cancelled); simpl; by rewrite Hh, Hn, Hl'.
  - unfold run_thread. destruct (threads st !! i) as [t|]; [|done].
    set (st0 := with_threads (delete i (threads st)) st).
    assert (Hwc0 : length (activeJobs st0) < L -> queue_ids st0 = []) by exact Hwc.
    destruct t as [jid l s|jid]; simpl.
    + destruct (resume_worker_cases svc L jid l s st0) as [[Hloc _]|[_ [Hn Hfin]]].
      * destruct (resume_worker svc L jid l s st0) as [st1 o]. simpl in Hloc.
        destruct Hloc as (E1 & E2 & E3 & E4 & _).
        assert (Hw1 : length (activeJobs st1) < L -> queue_ids st1 = []).
        { unfold queue_ids. rewrite E1, E2, E3, E4. exact Hwc0. }
        destruct o as [t'|]; [|exact Hw1]. destruct t'; exact Hw1.
      * destruct (resume_worker svc L jid l s st0) as [st1 o]. simpl in Hn, Hfin. subst o st1.
        unfold finish_job. intros Hl. fills.
    + unfold resume_cancel. destruct (updateJobStatus_ok svc jid Cancelled); [|exact Hwc0].
      intros Hl. fills.
Qed.

Lemma wc_rtc svc L st st' :
  rtc (step svc L) st st' ->
  (length (activeJobs st) < L -> queue_ids st = []) ->
  length (activeJobs st') < L -> queue_ids st' = [].
Proof.
  induction 1 as [|x y z Hxy Hyz IH]; [done|]. intros Hx. apply IH. by eapply wc_step.
Qed.

Lemma wc_reachable svc L st :
  reachable svc L st -> length (activeJobs st) < L -> queue_ids st = [].
Proof.
  intros (pending & _ & Hr). apply (wc_rtc svc L _ _ Hr).
  intros Hl. destruct pending; unfold init in *; fills.
Qed.

(** X1: dispatch never leaves a slot idle while a job waits: in every
    reachable state, when fewer than [MAX_CONCURRENT_JOBS] jobs are active,
    all three tiers are empty. *)
Theorem free_slot_empty_queue svc L st :
  reachable svc L st -> length (activeJobs st) < L -> queue_ids st = [].
Proof. apply wc_reachable. Qed.

Lemma free_slot_empty_queue_witness :
  reachable ex_cancel_svc 2 ex_free ∧ length (activeJobs ex_free) < 2 ∧ queue_ids ex_free = [].
Proof.
  assert (Hr : reachable ex_cancel_svc 2 ex_free).
  { unfold ex_free. exists (Some []). split; [constructor|].
    eapply rtc_l; [apply (step_submit _ _ (ex_job "J" Normal)); reflexivity|].
    apply rtc_refl. }
  assert (Hl : length (activeJobs ex_free) < 2) by (vm_compute; lia).
  split_and!; [exact Hr|exact Hl|]. exact (free_slot_empty_queue ex_cancel_svc 2 _ Hr Hl).
Defined.

(** ** The completed-job cache *)

Lemma CInv_transfer st st' :
  (∀ k, k ∈ completedJobs st' -> k ∈ completedJobs st) ->
  (∀ k, k ∈ queue_ids st' -> k ∈ queue_ids st) ->
  (∀ k, k ∈ activeJobs st' -> k ∈ activeJobs st) ->
  (∀ k, is_Some (heap st !! k) -> is_Some (heap st' !! k)) ->
  CInv st -> CInv st'.
Proof.
  intros Hc Hq Ha Hh [C1 C2 C3]. constructor.
  - intros k Hk. apply Hh, C1, Hc, Hk.
  - intros k Hk Hk'. apply (C2 k (Hc k Hk)), Hq, Hk'.
  - intros k Hk Hk'. apply (C3 k (Hc k Hk)), Ha, Hk'.
Qed.

Lemma CInv_frame st st' : frame st st' -> CInv st -> CInv st'.
Proof.
  intros (F1 & F2 & F3 & F4 & F5 & F6 & _). apply CInv_transfer.
  - by rewrite F6.
  - unfold queue_ids. by rewrite F2, F3, F4.
  - by rewrite F5.
  - by rewrite F1.
Qed.

Lemma local_present_all jid st st' k :
  local_effect jid st st' -> is_Some (heap st !! k) -> is_Some (heap st' !! k).
Proof.
  intros Hl Hk. destruct (decide (k = jid)) as [->|Hne]; [by eapply local_present|].
  destruct Hl as (_ & _ & _ & _ & _ & _ & E & _). by rewrite E.
Qed.

Lemma CInv_local jid st st' : local_effect jid st st' -> CInv st -> CInv st'.
Proof.
  intros Hl. pose proof Hl as (E1 & E2 & E3 & E4 & E5 & _). apply CInv_transfer.
  - by rewrite E5.
  - unfold queue_ids. by rewrite E1, E2, E3.
  - by rewrite E4.
  - intros k. by apply (local_present_all jid).
Qed.

Lemma CInv_processNextJob L st : CInv st -> CInv (processNextJob L st).
Proof.
  intros [C1 C2 C3]. unfold processNextJob.
  destruct (processNextJob_fuel_sub L (S (length (queue_ids st))) st) as (P1 & P2 & P3 & P4 & _).
  constructor; rewrite P3.
  - intros k Hk. by apply P4, C1.
  - intros k Hk Hk'. by apply (C2 k Hk), P2.
  - intros k Hk Hk'. destruct (P1 k Hk'); [by apply (C3 k Hk)|by apply (C2 k Hk)].
Qed.

Lemma CInv_leave jid st :
  is_Some (heap st !! jid) -> jid ∉ queue_ids st -> CInv st ->
  CInv (with_completed (map_set jid (completedJobs (with_active (map_delete jid (activeJobs st)) st)))
          (with_active (map_delete jid (activeJobs st)) st)).
Proof.
  intros Hh Hq [C1 C2 C3]. unfold map_set, map_delete.
  constructor; simpl; intros k Hk; (case_bool_decide; [|apply elem_of_app in Hk as [Hk|Hk%list_elem_of_singleton]]);
    try (subst k); auto.
  all: try (rewrite list_elem_of_filter; intros [? ?]; done).
  all: rewrite list_elem_of_filter; intros [_ ?]; by apply (C3 k).
Qed.

Lemma CInv_queueJob svc L j st :
  heap st !! jobId j = None -> CInv st -> CInv (fst (queueJob svc L j st)).
Proof.
  intros Hf HC. unfold queueJob. destruct (saveJob_ok svc j); simpl.
  2:{ apply (CInv_frame st); [|done]. split_and!; done. }
  set (st3 := push_tier _ _ _).
  assert (HC3 : CInv st3).
  { destruct HC as [C1 C2 C3].
    assert (Hc3 : completedJobs st3 = completedJobs st) by (subst st3; by destruct (priority j)).
    assert (Ha3 : activeJobs st3 = activeJobs st) by (subst st3; by destruct (priority j)).
    assert (Hh3 : heap st3 = <[jobId j := j]> (heap st)) by (subst st3; by destruct (priority j)).
    constructor; rewrite Hc3.
    - intros k Hk. rewrite Hh3. destruct (decide (k = jobId j)) as [->|Hne].
      + by rewrite lookup_insert_eq.
      + rewrite lookup_insert_ne by congruence. by apply C1.
    - intros k Hk. subst st3. rewrite push_tier_queue_ids. simpl.
      rewrite elem_of_cons. intros [->|Hk']; [|by apply (C2 k Hk)].
      destruct (C1 _ Hk) as [x Hx]. simpl in Hf. congruence.
    - intros k Hk. rewrite Ha3. by apply C3. }
  destruct (_ <? L); [by apply CInv_processNextJob|done].
Qed.

Lemma cancel_write_frame svc jid st :
  heap (cancel_write svc jid st) = heap st ∧ queue_ids (cancel_write svc jid st) = queue_ids st ∧
  activeJobs (cancel_write svc jid st) = activeJobs st ∧
  completedJobs (cancel_write svc jid st) = completedJobs st ∧
  db (cancel_write svc jid st) = db st ++
    (if updateJobStatus_ok svc jid Cancelled then [DbJobStatus jid Cancelled] else []).
Proof.
  unfold cancel_write. destruct (updateJobStatus_ok svc jid Cancelled); simpl;
    rewrite ?app_nil_r; done.
Qed.

Lemma cancelJob_sub svc jid st :
  completedJobs (cancelJob svc jid st) = completedJobs st ∧
  (∀ k, k ∈ queue_ids (cancelJob svc jid st) -> k ∈ queue_ids st) ∧
  (∀ k, is_Some (heap st !! k) -> is_Some (heap (cancelJob svc jid st) !! k)).
Proof.
  unfold cancelJob. case_bool_decide.
  - split_and!; try done. intros k Hk. simpl. by apply lookup_alter_is_Some.
  - assert (G : ∀ st', (∀ k, k ∈ queue_ids st' -> k ∈ queue_ids st) -> heap st' = heap st ->
              completedJobs st' = completedJobs st ->
              completedJobs (cancel_write svc jid st') = completedJobs st ∧
              (∀ k, k ∈ queue_ids (cancel_write svc jid st') -> k ∈ queue_ids st) ∧
              (∀ k, is_Some (heap st !! k) -> is_Some (heap (cancel_write svc jid st') !! k))).
    { intros st' Hq Hh Hc. destruct (cancel_write_frame svc jid st') as (F1 & F2 & _ & F4 & _).
      rewrite F1, F2, F4, Hh. split_and!; auto. }
    unfold queue_ids.
    destruct (remove_first jid (q_high st)) as [qh|] eqn:E1.
    { apply G; [|done|done]. unfold queue_ids. simpl. intros k.
      rewrite !elem_of_app. intros [Hk|Hk]; [|auto]. left.
      eapply elem_of_sublist; [exact Hk|]. by eapply remove_first_sublist. }
    destruct (remove_first jid (q_normal st)) as [qn|] eqn:E2.
    { apply G; [|done|done]. unfold queue_ids. simpl. intros k.
      rewrite !elem_of_app. intros [Hk|[Hk|Hk]]; auto. right. left.
      eapply elem_of_sublist; [exact Hk|]. by eapply remove_first_sublist. }
    destruct (remove_first jid (q_low st)) as [ql|] eqn:E3.
    { apply G; [|done|done]. unfold queue_ids. simpl. intros k.
      rewrite !elem_of_app. intros [Hk|[Hk|Hk]]; auto. right. right.
      eapply elem_of_sublist; [exact Hk|]. by eapply remove_first_sublist. }
    apply G; auto.
Qed.

Lemma CInv_cancelJob svc jid st : CInv st -> CInv (cancelJob svc jid st).
Proof.
  destruct (cancelJob_sub svc jid st) as (S1 & S2 & S3). apply CInv_transfer; auto.
  - by rewrite S1.
  - by rewrite cancelJob_active.
Qed.

Lemma CInv_run_thread svc L i st : Inv L st -> CInv st -> CInv (run_thread svc L i st).
Proof.
  intros HI HC. unfold run_thread.
  destruct (threads st !! i) as [t|] eqn:Ht; [|done].
  assert (Htin : t ∈ threads st) by (eapply list_elem_of_lookup_2; eauto).
  set (st0 := with_threads (delete i (threads st)) st).
  assert (HC0 : CInv st0) by (apply (CInv_transfer st); auto).
  pose proof (inv_thread_heap _ _ HI t Htin) as Hth.
  pose proof (inv_thread_queue _ _ HI t Htin) as Htq.
  destruct t as [jid l s|jid]; simpl in *.
  - destruct (resume_worker_cases svc L jid l s st0) as [[Hloc _]|[_ [Hn Hf]]].
    + assert (HC1 : CInv (resume_worker svc L jid l s st0).1) by (eapply CInv_local; eauto).
      destruct (resume_worker svc L jid l s st0) as [st1 [t'|]]; simpl in *; [|done].
      apply (CInv_transfer st1); auto.
    + destruct (resume_worker svc L jid l s st0) as [st1 o] eqn:E.
      simpl in Hn, Hf. subst o st1. unfold finish_job.
      destruct (emit_job_update_frame svc jid (add_db (DbJobStatus jid Complete) st0))
        as (F1 & F2 & F3 & F4 & _).
      apply CInv_processNextJob, CInv_leave.
      * rewrite F1. exact Hth.
      * unfold queue_ids. rewrite F2, F3, F4. exact Htq.
      * eapply CInv_frame; [apply emit_job_update_frame|].
        apply (CInv_transfer st0); auto.
  - unfold resume_cancel. destruct (updateJobStatus_ok svc jid Cancelled).
    + apply CInv_processNextJob, CInv_leave; [exact Hth|exact Htq|].
      apply (CInv_transfer st0); auto.
    + apply (CInv_transfer st0); auto.
Qed.

Lemma enqueue_all_completed js st :
  completedJobs (foldl enqueue_pending st js) = completedJobs st.
Proof.
  revert st. induction js as [|j js IH]; intros st; [done|]. simpl. rewrite IH.
  unfold enqueue_pending. by destruct (priority (normalize_pending j)).
Qed.

Lemma CInv_init L pending : CInv (init L pending).
Proof.
  assert (G : ∀ st, completedJobs st = [] -> CInv st)
    by (intros st Hc; constructor; rewrite Hc; intros k Hk; set_solver).
  destruct pending as [js|]; unfold init; apply CInv_processNextJob, G; [|done].
  by rewrite enqueue_all_completed.
Qed.

Lemma CInv_reachable svc L st : reachable svc L st -> Inv L st ∧ CInv st.
Proof.
  intros (pending & Hnd & Hr). pose proof (Inv_init L pending Hnd) as HI.
  pose proof (CInv_init L pending) as HC. revert HI HC.
  induction Hr as [|x y z Hxy Hyz IH]; [done|]. intros HI HC. apply IH; [by eapply Inv_step|].
  destruct Hxy as [j st Hj Hf|k st|i st Hi].
  - by apply CInv_queueJob.
  - by apply CInv_cancelJob.
  - by apply CInv_run_thread.
Qed.

Lemma find_worker_lt jid ts n i : find_worker jid ts n = Some i -> n <= i < n + length ts.
Proof.
  revert n. induction ts as [|t ts IH]; intros n H; simpl in H; [done|].
  destruct t as [jid' l s|jid'].
  - destruct (String.eqb jid jid'); [injection H as <-; simpl; lia|].
    apply IH in H. simpl. lia.
  - apply IH in H. simpl. lia.
Qed.

Lemma run_job_rtc svc L f jid st : rtc (step svc L) st (run_job svc L f jid st).
Proof.
  revert st. induction f as [|f IH]; intros st; simpl; [apply rtc_refl|].
  destruct (find_worker jid (threads st) 0) as [i|] eqn:E; [|apply rtc_refl].
  eapply rtc_l; [|apply IH]. apply step_resume. apply find_worker_lt in E. lia.
Qed.

Lemma completed_step svc L st st' k :
  step svc L st st' -> k ∈ completedJobs st -> k ∈ completedJobs st'.
Proof.
  assert (Hpn : ∀ L x, completedJobs (processNextJob L x) = completedJobs x).
  { intros L' x. unfold processNextJob. apply processNextJob_fuel_sub. }
  assert (Hset : ∀ jid ks, k ∈ ks -> k ∈ map_set jid ks).
  { intros jid ks Hk. unfold map_set. case_bool_decide; [done|]. apply elem_of_app. by left. }
  intros Hs Hk. destruct Hs as [j st Hj Hf|jid st|i st Hi].
  - unfold queueJob. destruct (saveJob_ok svc j); simpl; [|done].
    destruct (_ <? L); [rewrite Hpn|]; by destruct (priority j).
  - by rewrite (proj1 (cancelJob_sub svc jid st)).
  - unfold run_thread. destruct (threads st !! i) as [t|]; [|done].
    set (st0 := with_threads (delete i (threads st)) st).
    destruct t as [jid l s|jid]; simpl.
    + destruct (resume_worker_cases svc L jid l s st0) as [[Hloc _]|[_ [Hn Hfin]]].
      * destruct (resume_worker svc L jid l s st0) as [st1 o]. simpl in Hloc.
        destruct Hloc as (_ & _ & _ & _ & E5 & _).
        destruct o as [t'|]; simpl; rewrite E5; done.
      * destruct (resume_worker svc L jid l s st0) as [st1 o]. simpl in Hn, Hfin. subst o st1.
        unfold finish_job. rewrite Hpn. simpl. apply Hset.
        by rewrite (proj1 (proj2 (proj2 (proj2 (proj2 (proj2 (emit_job_update_frame _ _ _))))))).
    + unfold resume_cancel. destruct (updateJobStatus_ok svc jid Cancelled); [|done].
      rewrite Hpn. simpl. by apply Hset.
Qed.

Lemma remove_first_in jid q q' : remove_first jid q = Some q' -> jid ∈ q.
Proof. intros H. apply remove_first_perm in H. rewrite H. by left. Qed.

Lemma cancelJob_idle svc jid st :
  jid ∉ activeJobs st -> jid ∉ queue_ids st -> cancelJob svc jid st = cancel_write svc jid st.
Proof.
  intros Ha Hq. unfold cancelJob. rewrite bool_decide_eq_false_2 by done.
  unfold queue_ids in Hq. rewrite !elem_of_app in Hq.
  destruct (remove_first jid (q_high st)) eqn:E1; [apply remove_first_in in E1; tauto|].
  destruct (remove_first jid (q_normal st)) eqn:E2; [apply remove_first_in in E2; tauto|].
  destruct (remove_first jid (q_low st)) eqn:E3; [apply remove_first_in in E3; tauto|].
  done.
Qed.

Lemma ex_done_reachable : reachable ex_cancel_svc 1 ex_done.
Proof.
  unfold ex_done. exists (Some []). split; [constructor|].
  eapply rtc_l; [apply (step_submit _ _ (ex_job "J" Normal)); reflexivity|].
  apply run_job_rtc.
Qed.

Lemma ex_two_reachable : reachable ex_cancel_svc 1 ex_two.
Proof.
  unfold ex_two. exists (Some []). split; [constructor|].
  eapply rtc_l; [apply (step_submit _ _ (ex_job "J" Normal)); reflexivity|].
  eapply rtc_l; [apply (step_submit _ _ (ex_job "K" Normal)); [reflexivity|vm_compute; reflexivity]|].
  apply rtc_refl.
Qed.

(** X2: the completed-job cache is never trimmed ([MAX_COMPLETED_JOBS] is
    declared but never used): a job id in [completedJobs] stays there in
    every later state. *)
Theorem completed_never_evicted svc L st st' k :
  rtc (step svc L) st st' -> k ∈ completedJobs st -> k ∈ completedJobs st'.
Proof.
  induction 1 as [|x y z Hxy Hyz IH]; [done|]. intros Hk. apply IH. by eapply completed_step.
Qed.

Lemma completed_never_evicted_witness :
  rtc (step ex_cancel_svc 1) ex_done ex_done_next ∧ "J" ∈ completedJobs ex_done ∧
  "J" ∈ completedJobs ex_done_next.
Proof.
  assert (Hr : rtc (step ex_cancel_svc 1) ex_done ex_done_next).
  { unfold ex_done_next. eapply rtc_l; [|apply rtc_refl].
    apply (step_submit _ _ (ex_job "K" Normal)); [reflexivity|vm_compute; reflexivity]. }
  assert (Hk : "J" ∈ completedJobs ex_done) by (vm_compute; left).
  split_and!; [exact Hr|exact Hk|]. exact (completed_never_evicted _ _ _ _ _ Hr Hk).
Defined.

(** X3: a job in the completed-job cache is never run again: in every
    reachable state it is in no tier of the queue, not in [activeJobs], and
    its status is not [processing]. *)
Theorem completed_not_rerun svc L st k :
  reachable svc L st -> k ∈ completedJobs st ->
  (k ∉ queue_ids st) ∧ (k ∉ activeJobs st) ∧ ∀ j, heap st !! k = Some j -> status j ≠ Processing.
Proof.
  intros Hr Hk. destruct (CInv_reachable svc L st Hr) as [HI [C1 C2 C3]].
  split_and!; [by apply C2|by apply C3|].
  intros j Hj Hp. apply (C3 k Hk). by apply (inv_processing _ _ HI k j).
Qed.

Lemma completed_not_rerun_witness :
  reachable ex_cancel_svc 1 ex_done ∧ "J" ∈ completedJobs ex_done ∧
  ("J" ∉ queue_ids ex_done) ∧ ("J" ∉ activeJobs ex_done) ∧
  ∀ j, heap ex_done !! "J" = Some j -> status j ≠ Processing.
Proof.
  assert (Hk : "J" ∈ completedJobs ex_done) by (vm_compute; left).
  split_and!; [exact ex_done_reachable|exact Hk|..];
    apply (completed_not_rerun _ _ _ _ ex_done_reachable Hk).
Defined.

(** X4: [getJobStatus] answers a job in status [processing] from memory:
    in every reachable state such a job is in [activeJobs], so the
    repository is never consulted and the answer is the job itself. *)
Theorem getJobStatus_processing_in_memory svc L store st k j :
  reachable svc L st -> heap st !! k = Some j -> status j = Processing ->
  getJobStatus store k st = Some (Some j).
Proof.
  intros Hr Hj Hp. pose proof (Inv_reachable svc L st Hr) as HI.
  unfold getJobStatus. rewrite bool_decide_eq_true_2; [by rewrite Hj|].
  by apply (inv_processing _ _ HI k j).
Qed.

Lemma getJobStatus_processing_in_memory_witness :
  reachable ex_cancel_svc 1 ex_two ∧
  heap ex_two !! "J" = Some (mkJob "J" "www.J.com" 1 Normal None Processing 0 "") ∧
  getJobStatus (fun _ => None) "J" ex_two = Some (Some (mkJob "J" "www.J.com" 1 Normal None Processing 0 "")).
Proof.
  assert (Hj : heap ex_two !! "J" = Some (mkJob "J" "www.J.com" 1 Normal None Processing 0 ""))
    by (vm_compute; reflexivity).
  split_and!; [exact ex_two_reachable|exact Hj|].
  exact (getJobStatus_processing_in_memory _ _ _ _ _ _ ex_two_reachable Hj eq_refl).
Defined.

(** X5: [getJobStatus] answers a queued job from the repository: in every
    reachable state a queued job is neither active nor completed, so the
    in-memory job is not consulted and the answer (or the error) is the
    repository's. *)
Theorem getJobStatus_queued_from_store svc L store st k :
  reachable svc L st -> k ∈ queue_ids st -> getJobStatus store k st = store k.
Proof.
  intros Hr Hk. destruct (CInv_reachable svc L st Hr) as [HI HC].
  unfold getJobStatus.
  rewrite bool_decide_eq_false_2 by (intros Ha; exact (inv_queue_active _ _ HI k Hk Ha)).
  rewrite bool_decide_eq_false_2 by (intros Hc; exact (cinv_queue _ HC k Hc Hk)).
  done.
Qed.

Lemma getJobStatus_queued_from_store_witness :
  reachable ex_cancel_svc 1 ex_two ∧ "K" ∈ queue_ids ex_two ∧
  is_Some (heap ex_two !! "K") ∧ getJobStatus (fun _ => Some None) "K" ex_two = Some None.
Proof.
  assert (Hk : "K" ∈ queue_ids ex_two) by (vm_compute; left).
  split_and!; [exact ex_two_reachable|exact Hk|vm_compute; eexists; reflexivity|].
  exact (getJobStatus_queued_from_store _ _ (fun _ => Some None) _ _ ex_two_reachable Hk).
Defined.

(** X6: cancelling a job that has already completed does not touch the
    in-memory job, the queue, [activeJobs] or [completedJobs]; it only sends
    the repository the write [updateJobStatus(jobId, 'cancelled')], so the
    stored status becomes [cancelled] while [getJobStatus] keeps answering
    the in-memory job. *)
Theorem cancel_completed_store_only svc L store st k :
  reachable svc L st -> k ∈ completedJobs st ->
  let st' := cancelJob svc k st in
  heap st' = heap st ∧ queue_ids st' = queue_ids st ∧ activeJobs st' = activeJobs st ∧
  completedJobs st' = completedJobs st ∧
  db st' = db st ++ (if updateJobStatus_ok svc k Cancelled then [DbJobStatus k Cancelled] else []) ∧
  getJobStatus store k st' = Some (heap st !! k).
Proof.
  intros Hr Hk st'. destruct (CInv_reachable svc L st Hr) as [_ [C1 C2 C3]].
  subst st'. rewrite cancelJob_idle by auto.
  destruct (cancel_write_frame svc k st) as (F1 & F2 & F3 & F4 & F5).
  split_and!; try done. unfold getJobStatus. rewrite F3, F4, F1.
  rewrite bool_decide_eq_false_2 by auto. by rewrite bool_decide_eq_true_2.
Qed.

Lemma cancel_completed_store_only_witness :
  reachable ex_cancel_svc 1 ex_done ∧ "J" ∈ completedJobs ex_done ∧
  let st' := cancelJob ex_cancel_svc "J" ex_done in
  heap st' = heap ex_done ∧ queue_ids st' = queue_ids ex_done ∧
  activeJobs st' = activeJobs ex_done ∧ completedJobs st' = completedJobs ex_done ∧
  db st' = db ex_done ++ [DbJobStatus "J" Cancelled] ∧
  getJobStatus (fun _ => None) "J" st' = Some (heap ex_done !! "J").
Proof.
  assert (Hk : "J" ∈ completedJobs ex_done) by (vm_compute; left).
  split; [exact ex_done_reachable|]. split; [exact Hk|].
  exact (cancel_completed_store_only ex_cancel_svc 1 (fun _ => None) _ _ ex_done_reachable Hk).
Defined.

(** X7: [queueJob] with every slot taken: the job is stored, appended at
    the end of its own tier (the other tiers unchanged), nothing is started,
    and the reply carries the job's own status. *)
Theorem queueJob_when_full svc L j st :
  L <= length (activeJobs st) -> saveJob_ok svc j = true ->
  let r := queueJob svc L j st in
  snd r = QueueOk (jobId j) (status j) ∧
  heap (fst r) = <[jobId j := j]> (heap st) ∧
  activeJobs (fst r) = activeJobs st ∧ threads (fst r) = threads st ∧
  db (fst r) = db st ++ [DbSaveJob j] ∧
  (q_high (fst r), q_normal (fst r), q_low (fst r)) =
    match priority j with
    | High => (q_high st ++ [jobId j], q_normal st, q_low st)
    | Normal => (q_high st, q_normal st ++ [jobId j], q_low st)
    | Low => (q_high st, q_normal st, q_low st ++ [jobId j])
    end.
Proof.
  intros Hfull Hok r. subst r. unfold queueJob. rewrite Hok.
  set (st3 := push_tier _ _ _).
  assert (Ha3 : activeJobs st3 = activeJobs st) by (subst st3; by destruct (priority j)).
  assert (Hh3 : heap st3 = <[jobId j := j]> (heap st)) by (subst st3; by destruct (priority j)).
  assert (Hlt : (length (activeJobs st3) <? L) = false) by (apply Nat.ltb_ge; rewrite Ha3; exact Hfull).
  rewrite Hlt. simpl. rewrite Hh3, lookup_insert_eq. split_and!; try done.
  - subst st3. by destruct (priority j).
  - subst st3. by destruct (priority j).
  - subst st3. by destruct (priority j).
Qed.

Lemma queueJob_when_full_witness :
  1 <= length (activeJobs ex_two) ∧ saveJob_ok ex_cancel_svc (ex_job "M" Low) = true ∧
  let r := queueJob ex_cancel_svc 1 (ex_job "M" Low) ex_two in
  snd r = QueueOk "M" Queued ∧
  heap (fst r) = <[ "M" := ex_job "M" Low ]> (heap ex_two) ∧
  activeJobs (fst r) = activeJobs ex_two ∧ threads (fst r) = threads ex_two ∧
  db (fst r) = db ex_two ++ [DbSaveJob (ex_job "M" Low)] ∧
  (q_high (fst r), q_normal (fst r), q_low (fst r)) = (q_high ex_two, q_normal ex_two, q_low ex_two ++ ["M"]).
Proof.
  assert (H1 : 1 <= length (activeJobs ex_two)) by (vm_compute; lia).
  split_and!; [exact H1|reflexivity|].
  exact (queueJob_when_full ex_cancel_svc 1 (ex_job "M" Low) ex_two H1 eq_refl).
Defined.

(** X8: [queueJob] with a free slot, in a reachable state: the queue is
    then empty, so the new job is started at once: it joins [activeJobs],
    its status becomes [processing], its worker is suspended on the first
    status write, and the reply already says [processing]. *)
Theorem queueJob_when_free svc L j st :
  reachable svc L st -> length (activeJobs st) < L ->
  saveJob_ok svc j = true -> heap st !! jobId j = None ->
  let r := queueJob svc L j st in
  snd r = QueueOk (jobId j) Processing ∧
  activeJobs (fst r) = activeJobs st ++ [jobId j] ∧ queue_ids (fst r) = [] ∧
  heap (fst r) !! jobId j = Some (job_with_status Processing j) ∧
  threads (fst r) = threads st ++ [Worker (jobId j) locals0 W_Status].
Proof.
  intros Hr Hl Hok Hf r. subst r.
  pose proof (Inv_reachable svc L st Hr) as HI.
  pose proof (wc_reachable svc L st Hr Hl) as Hq.
  assert (Hna : jobId j ∉ activeJobs st).
  { intros Ha. destruct (inv_active_heap _ _ HI _ Ha) as [x Hx]. congruence. }
  unfold queueJob. rewrite Hok.
  set (st3 := push_tier _ _ _).
  assert (Ha3 : activeJobs st3 = activeJobs st) by (subst st3; by destruct (priority j)).
  assert (Hh3 : heap st3 = <[jobId j := j]> (heap st)) by (subst st3; by destruct (priority j)).
  assert (Ht3 : threads st3 = threads st) by (subst st3; by destruct (priority j)).
  assert (Hq3 : queue_ids st3 = [jobId j]).
  { unfold queue_ids in *. apply app_eq_nil in Hq as [Hh Hnl]. apply app_eq_nil in Hnl as [Hn Hl'].
    subst st3. destruct (priority j); simpl; rewrite Hh, Hn, Hl'; done. }
  assert (Hlt : (length (activeJobs st3) <? L) = true) by (apply Nat.ltb_lt; congruence).
  rewrite Hlt. cbn [fst snd].
  assert (Hnd : NoDup (queue_ids st3)) by (rewrite Hq3; repeat constructor; set_solver).
  assert (Hdis : ∀ k, k ∈ queue_ids st3 -> k ∉ activeJobs st3).
  { rewrite Hq3, Ha3. intros k ->%list_elem_of_singleton. done. }
  destruct (processNextJob_spec L st3 Hnd Hdis) as (P1 & P2 & P3 & P4 & P5 & P6 & _).
  set (n := L - length (activeJobs st3)) in *.
  assert (Hnpos : 0 < n) by (subst n; rewrite Ha3; lia).
  assert (Hn : take n (queue_ids st3) = [jobId j]) by (rewrite Hq3; destruct n; [lia|]; simpl; by rewrite take_nil).
  assert (Hq' : queue_ids (processNextJob L st3) = []).
  { rewrite (queue_ids_drop st3 _ n P2 P3 P4), Hq3. destruct n; [lia|]; simpl; by rewrite drop_nil. }
  assert (Hj' : heap (processNextJob L st3) !! jobId j = Some (job_with_status Processing j)).
  { rewrite P5, Hn. simpl. rewrite lookup_alter_eq, Hh3, lookup_insert_eq. done. }
  rewrite Hj'. split_and!; try done.
  - by rewrite P1, Hn, Ha3.
  - by rewrite P6, Hn, Ht3.
Qed.

Lemma queueJob_when_free_witness :
  reachable ex_cancel_svc 2 ex_free ∧ length (activeJobs ex_free) < 2 ∧
  saveJob_ok ex_cancel_svc (ex_job "M" Low) = true ∧ heap ex_free !! "M" = None ∧
  let r := queueJob ex_cancel_svc 2 (ex_job "M" Low) ex_free in
  snd r = QueueOk "M" Processing ∧
  activeJobs (fst r) = activeJobs ex_free ++ ["M"] ∧ queue_ids (fst r) = [] ∧
  heap (fst r) !! "M" = Some (job_with_status Processing (ex_job "M" Low)) ∧
  threads (fst r) = threads ex_free ++ [Worker "M" locals0 W_Status].
Proof.
  assert (Hr : reachable ex_cancel_svc 2 ex_free).
  { unfold ex_free. exists (Some []). split; [constructor|].
    eapply rtc_l; [apply (step_submit _ _ (ex_job "J" Normal)); reflexivity|].
    apply rtc_refl. }
  assert (Hl : length (activeJobs ex_free) < 2) by (vm_compute; lia).
  assert (Hf : heap ex_free !! "M" = None) by (vm_compute; reflexivity).
  split_and!; [exact Hr|exact Hl|reflexivity|exact Hf|].
  exact (queueJob_when_free ex_cancel_svc 2 (ex_job "M" Low) ex_free Hr Hl eq_refl Hf).
Defined.

(** X9: cancelling an active job whose status write throws: the job is
    marked [cancelled] (progress 0) in memory, but the rest of the active
    branch is skipped, so the job keeps its slot in [activeJobs], does not
    enter [completedJobs], and no queued job is dispatched. *)
Theorem cancel_active_write_fails svc L jid j st :
  jid ∈ activeJobs st -> heap st !! jid = Some j ->
  updateJobStatus_ok svc jid Cancelled = false ->
  let st1 := cancelJob svc jid st in
  let st2 := run_thread svc L (length (threads st)) st1 in
  threads st1 = threads st ++ [CancelActive jid] ∧
  activeJobs st2 = activeJobs st ∧ completedJobs st2 = completedJobs st ∧
  queue_ids st2 = queue_ids st ∧ threads st2 = threads st ∧
  heap st2 !! jid = Some (job_with_message "Job cancelled by user"
                            (job_with_progress 0 (job_with_status Cancelled j))) ∧
  logs st2 = logs st ++ ["Error cancelling job"].
Proof.
  intros Ha Hj Hu st1 st2.
  assert (Hst1 : st1 = spawn (CancelActive jid)
            (upd_job jid (fun j => job_with_message "Job cancelled by user"
                           (job_with_progress 0 (job_with_status Cancelled j))) st)).
  { subst st1. unfold cancelJob. by rewrite bool_decide_eq_true_2. }
  assert (Ht1 : threads st1 = threads st ++ [CancelActive jid]) by (rewrite Hst1; done).
  split; [exact Ht1|]. subst st2. unfold run_thread. rewrite Ht1.
  rewrite lookup_app_r, Nat.sub_diag by lia. simpl.
  unfold resume_cancel. rewrite Hu. simpl. rewrite Hst1. simpl.
  rewrite lookup_alter_eq, Hj. split_and!; try done.
  by rewrite delete_middle, app_nil_r.
Qed.

Lemma cancel_active_write_fails_witness :
  "J" ∈ activeJobs ex_two ∧
  heap ex_two !! "J" = Some (mkJob "J" "www.J.com" 1 Normal None Processing 0 "") ∧
  updateJobStatus_ok ex_cancel_fail_svc "J" Cancelled = false ∧
  let st1 := cancelJob ex_cancel_fail_svc "J" ex_two in
  let st2 := run_thread ex_cancel_fail_svc 1 (length (threads ex_two)) st1 in
  threads st1 = threads ex_two ++ [CancelActive "J"] ∧
  activeJobs st2 = activeJobs ex_two ∧ completedJobs st2 = completedJobs ex_two ∧
  queue_ids st2 = queue_ids ex_two ∧ threads st2 = threads ex_two ∧
  heap st2 !! "J" = Some (mkJob "J" "www.J.com" 1 Normal None Cancelled 0 "Job cancelled by user") ∧
  logs st2 = logs ex_two ++ ["Error cancelling job"].
Proof.
  assert (Ha : "J" ∈ activeJobs ex_two) by (vm_compute; left).
  assert (Hj : heap ex_two !! "J" = Some (mkJob "J" "www.J.com" 1 Normal None Processing 0 ""))
    by (vm_compute; reflexivity).
  split_and!; [exact Ha|exact Hj|reflexivity|].
  exact (cancel_active_write_fails ex_cancel_fail_svc 1 "J" _ ex_two Ha Hj eq_refl).
Defined.

(** Startup recovery: the pending jobs fill the tiers in their order, the
    normalised copy of each is stored under its id. *)
Lemma normalize_pending_priority j : priority (normalize_pending j) = priority j.
Proof. unfold normalize_pending. by case_decide. Qed.

Lemma enqueue_all_shape js st :
  let st' := foldl enqueue_pending st js in
  q_high st' = q_high st ++ map jobId (filter (λ j, priority j = High) js) ∧
  q_normal st' = q_normal st ++ map jobId (filter (λ j, priority j = Normal) js) ∧
  q_low st' = q_low st ++ map jobId (filter (λ j, priority j = Low) js) ∧
  activeJobs st' = activeJobs st ∧ threads st' = threads st ∧
  completedJobs st' = completedJobs st.
Proof.
  revert st. induction js as [|j js IH]; intros st; simpl.
  { by rewrite !app_nil_r. }
  destruct (IH (enqueue_pending st j)) as (H1 & H2 & H3 & H4 & H5 & H6).
  rewrite H1, H2, H3, H4, H5, H6. rewrite !filter_cons.
  unfold enqueue_pending. rewrite normalize_pending_priority, normalize_pending_jobId.
  destruct (priority j); simpl; rewrite <- ?app_assoc; done.
Qed.

Lemma enqueue_all_heap_notin js st k :
  k ∉ map jobId js -> heap (foldl enqueue_pending st js) !! k = heap st !! k.
Proof.
  revert st. induction js as [|j js IH]; intros st Hk; simpl; [done|].
  rewrite IH by set_solver. unfold enqueue_pending.
  rewrite normalize_pending_priority, normalize_pending_jobId.
  destruct (priority j); simpl; rewrite lookup_insert_ne; set_solver.
Qed.

Lemma enqueue_all_heap js st j :
  NoDup (map jobId js) -> j ∈ js ->
  heap (foldl enqueue_pending st js) !! jobId j = Some (normalize_pending j).
Proof.
  revert st. induction js as [|j0 js IH]; intros st Hnd Hj; simpl; [set_solver|].
  inversion Hnd as [|? ? Hn Hnd']; subst.
  apply elem_of_cons in Hj as [->|Hj]; [|by apply IH].
  rewrite enqueue_all_heap_notin by done. unfold enqueue_pending.
  rewrite normalize_pending_priority, normalize_pending_jobId.
  destruct (priority j0); simpl; by rewrite lookup_insert_eq.
Qed.

Lemma tiers_perm (js : list Job) :
  map jobId (filter (λ j, priority j = High) js) ++
  map jobId (filter (λ j, priority j = Normal) js) ++
  map jobId (filter (λ j, priority j = Low) js) ≡ₚ map jobId js.
Proof.
  induction js as [|j js IH]; [done|]. rewrite !filter_cons.
  destruct (priority j); simpl; rewrite <- IH; solve_Permutation.
Qed.

Lemma job_with_status_twice s s' j :
  job_with_status s (job_with_status s' j) = job_with_status s j.
Proof. by destruct j. Qed.

Lemma start_all_keep h ps k x :
  h !! k = Some (job_with_status Processing x) ->
  start_all h ps !! k = Some (job_with_status Processing x).
Proof.
  revert h. induction ps as [|p ps IH]; intros h Hk; simpl; [done|]. apply IH.
  destruct (decide (k = p)) as [->|Hne].
  - rewrite lookup_alter_eq, Hk; simpl; by rewrite job_with_status_twice.
  - by rewrite lookup_alter_ne.
Qed.

Lemma start_all_in h ps k x :
  k ∈ ps -> h !! k = Some x -> start_all h ps !! k = Some (job_with_status Processing x).
Proof.
  revert h. induction ps as [|p ps IH]; intros h Hin Hk; simpl; [set_solver|].
  destruct (decide (k = p)) as [->|Hne].
  - apply start_all_keep. by rewrite lookup_alter_eq, Hk.
  - apply IH; [set_solver|]. by rewrite lookup_alter_ne.
Qed.

(** X10: [init] with the pending jobs [js] (distinct ids): the first
    [MAX_CONCURRENT_JOBS] of them in tier order (high, normal, low; each
    tier in load order) are started, with one worker each and status
    [processing]; the others stay queued in that order, those saved as
    [processing] reset to [queued]. *)
Theorem init_dispatch L js :
  NoDup (map jobId js) ->
  let order := map jobId (filter (λ j, priority j = High) js) ++
               map jobId (filter (λ j, priority j = Normal) js) ++
               map jobId (filter (λ j, priority j = Low) js) in
  let st := init L (Some js) in
  activeJobs st = take L order ∧ queue_ids st = drop L order ∧
  threads st = map (λ k, Worker k locals0 W_Status) (take L order) ∧
  completedJobs st = [] ∧
  (∀ j, j ∈ js -> jobId j ∈ take L order ->
        heap st !! jobId j = Some (job_with_status Processing j)) ∧
  (∀ j, j ∈ js -> jobId j ∉ take L order -> heap st !! jobId j = Some (normalize_pending j)).
Proof.
  intros Hnd order st. subst st. unfold init.
  set (st0 := foldl enqueue_pending empty_state js).
  destruct (enqueue_all_shape js empty_state) as (H1 & H2 & H3 & H4 & H5 & H6).
  fold st0 in H1, H2, H3, H4, H5, H6. simpl in H1, H2, H3, H4, H5, H6.
  assert (Hq : queue_ids st0 = order) by (unfold queue_ids; by rewrite H1, H2, H3).
  assert (Hnd0 : NoDup (queue_ids st0)) by (rewrite Hq; subst order; by rewrite tiers_perm).
  assert (Hdj : ∀ k, k ∈ queue_ids st0 -> k ∉ activeJobs st0) by (rewrite H4; set_solver).
  destruct (processNextJob_spec L st0 Hnd0 Hdj) as (A1 & A2 & A3 & A4 & A5 & A6 & A7 & _).
  rewrite H4, Nat.sub_0_r, Hq in *. simpl in A1, A2, A3, A4, A5, A6, A7.
  split_and!.
  - done.
  - rewrite <- Hq. apply (queue_ids_drop st0); rewrite ?H4; simpl; rewrite ?Nat.sub_0_r; done.
  - by rewrite A6, H5.
  - by rewrite A7, H6.
  - intros j Hj Hin. rewrite A5.
    rewrite (start_all_in _ _ _ (normalize_pending j)); [|done|by apply enqueue_all_heap].
    unfold normalize_pending. case_decide; [by rewrite job_with_status_twice|done].
  - intros j Hj Hnin. rewrite A5, start_all_notin by done. by apply enqueue_all_heap.
Qed.

Lemma init_dispatch_witness :
  let js := [ex_job "A" Low; mkJob "B" "www.B.com" 1 High None Processing 0 "";
             ex_job "C" Normal; ex_job "D" High] in
  NoDup (map jobId js) ∧
  let order := map jobId (filter (λ j, priority j = High) js) ++
               map jobId (filter (λ j, priority j = Normal) js) ++
               map jobId (filter (λ j, priority j = Low) js) in
  let st := init 2 (Some js) in
  activeJobs st = take 2 order ∧ queue_ids st = drop 2 order ∧
  threads st = map (λ k, Worker k locals0 W_Status) (take 2 order) ∧
  completedJobs st = [] ∧
  (∀ j, j ∈ js -> jobId j ∈ take 2 order ->
        heap st !! jobId j = Some (job_with_status Processing j)) ∧
  (∀ j, j ∈ js -> jobId j ∉ take 2 order -> heap st !! jobId j = Some (normalize_pending j)).
Proof.
  intros js. assert (Hnd : NoDup (map jobId js)) by (subst js; simpl; apply (bool_decide_unpack (NoDup _)); vm_compute; reflexivity).
  split; [exact Hnd|]. exact (init_dispatch 2 js Hnd).
Defined.

(** The id bookkeeping of every reachable state. *)
Lemma Inv_ids L st :
  Inv L st ->
  NoDup (queue_ids st ++ activeJobs st) ∧
  (∀ k, k ∈ queue_ids st ++ activeJobs st -> is_Some (heap st !! k)).
Proof.
  intros HI. split.
  - apply NoDup_app. split_and!; [apply HI| |apply HI]. apply (inv_queue_active _ _ HI).
  - intros k Hk. apply elem_of_app in Hk as [Hk|Hk];
      [by apply (inv_queue_heap _ _ HI)|by apply (inv_active_heap _ _ HI)].
Qed.

(** X11: in every reachable state a job id occurs at most once across the
    three queue tiers and [activeJobs] together (never queued twice, never
    queued and running at once, never running twice), and every queued or
    active id has its job object in memory. *)
Theorem job_ids_unique svc L st :
  reachable svc L st ->
  NoDup (queue_ids st ++ activeJobs st) ∧
  (∀ k, k ∈ queue_ids st ++ activeJobs st -> is_Some (heap st !! k)).
Proof. intros Hr. apply (Inv_ids L). exact (Inv_reachable svc L st Hr). Qed.

Lemma job_ids_unique_witness :
  reachable ex_cancel_svc 1 ex_two ∧
  NoDup (queue_ids ex_two ++ activeJobs ex_two) ∧
  (∀ k, k ∈ queue_ids ex_two ++ activeJobs ex_two -> is_Some (heap ex_two !! k)).
Proof.
  split; [exact ex_two_reachable|].
  exact (job_ids_unique ex_cancel_svc 1 ex_two ex_two_reachable).
Defined.

(** X12: when [processJob] has no [domain_info] id (the [SELECT] threw,
    or it found no row and the [INSERT] threw, or the id is [0]), the six
    extractors run, the
    [UPDATE domain_info] is skipped, and the job is still completed: the
    only repository write left is the [complete] status, so the combined
    results are never persisted, while the job ends [complete] at 100 and
    moves to [completedJobs]. *)
Theorem results_dropped_without_domain_id svc L jid j l st :
  heap st !! jid = Some j -> jid ∉ queue_ids st ->
  (l_domainInfoId l = None ∨ l_domainInfoId l = Some 0) ->
  updateJobStatus_ok svc jid Complete = true ->
  let res := run_worker svc L 7 jid l (W_Extract 0) st in
  snd res = map W_Extract (seq 0 6) ++ [W_Done] ∧
  db (fst res) = db st ++ [DbJobStatus jid Complete] ∧
  (∃ j', heap (fst res) !! jid = Some j' ∧ status j' = Complete ∧
         progress j' = 100 ∧ message j' = "Scrape completed") ∧
  (jid ∉ activeJobs (fst res)) ∧ jid ∈ completedJobs (fst res).
Proof.
  intros Hj Hq Hid Hu res. subst res.
  assert (Hs : stage_frame jid (domain j) st st) by (split_and!; try done; by exists j).
  do 5 extract_unroll.
  rewrite run_worker_S.
  lazymatch goal with
  | |- context [resume_worker ?svc ?L ?jid ?l (W_Extract 5) ?s5] =>
      destruct (resume_extract_last_norow svc L jid (domain j) l st s5 H1 Hid)
        as (sx & Hfs & Hr1 & Hr2);
      destruct (resume_worker svc L jid l (W_Extract 5) s5) as [s6 o6];
      cbn [fst snd] in Hr1, Hr2; subst s6 o6; cbn iota beta
  end.
  destruct Hfs as (Q1 & Q2 & Q3 & Q4 & Q5 & Q6 & j5 & Hj5 & _).
  rewrite run_worker_S. unfold resume_worker.
  assert (Hc : heap (complete_fields jid "Scrape completed" sx) !! jid =
               Some (job_with_message "Scrape completed" (job_with_progress 100 (job_with_status Complete j5))))
    by (simpl; by rewrite lookup_alter_eq, Hj5).
  rewrite Hc. cbn iota beta. rewrite Hu. cbn iota beta.
  set (s7 := add_db (DbJobStatus jid Complete) (complete_fields jid "Scrape completed" sx)).
  assert (Hq7 : jid ∉ queue_ids s7) by (unfold queue_ids in *; simpl; rewrite Q1, Q2, Q3; done).
  destruct (finish_job_facts svc L jid s7 Hq7) as (R1 & R2 & R3 & R4).
  cbn [fst snd add_trace app]. split_and!; try done.
  - rewrite R4. simpl. by rewrite Q6.
  - rewrite R1. change (heap s7) with (heap (complete_fields jid "Scrape completed" sx)). rewrite Hc. eexists. split_and!; done.
Qed.

Lemma results_dropped_without_domain_id_witness :
  let l := mkLocals None ex_pages [None; None] [] in
  heap ex_free !! "J" = Some (mkJob "J" "www.J.com" 1 Normal None Processing 0 "") ∧
  let res := run_worker ex_cancel_svc 2 7 "J" l (W_Extract 0) ex_free in
  snd res = map W_Extract (seq 0 6) ++ [W_Done] ∧
  db (fst res) = db ex_free ++ [DbJobStatus "J" Complete] ∧
  (∃ j', heap (fst res) !! "J" = Some j' ∧ status j' = Complete ∧
         progress j' = 100 ∧ message j' = "Scrape completed") ∧
  ("J" ∉ activeJobs (fst res)) ∧ "J" ∈ completedJobs (fst res).
Proof.
  intros l. assert (Hj : heap ex_free !! "J" = Some (mkJob "J" "www.J.com" 1 Normal None Processing 0 ""))
    by (vm_compute; reflexivity).
  split; [exact Hj|].
  apply (results_dropped_without_domain_id ex_cancel_svc 2 "J" _ l ex_free Hj).
  - assert (Hq : queue_ids ex_free = []) by (vm_compute; reflexivity).
    rewrite Hq. apply not_elem_of_nil.
  - left. reflexivity.
  - reflexivity.
Defined.

(** ** [extractContent] *)

Lemma extractContent_ce_run {P} (run : ContentExtractor -> P -> option json) d p es :
  extractContent run d p es = ce_run run p es ce_order [("domain", JStr d)].
Proof. reflexivity. Qed.

Lemma includes_spec es x : includes es x = true <-> x ∈ es.
Proof.
  unfold includes. rewrite existsb_exists, list_elem_of_In. split.
  - intros (y & Hy & E). apply String.eqb_eq in E. by subst.
  - intros Hx. exists x. split; [done|]. apply String.eqb_refl.
Qed.

Lemma ce_step_ext {P} (run run' : ContentExtractor -> P -> option json) p es r ce :
  (ce_requested es ce = true -> run ce p = run' ce p) ->
  ce_step run p es r ce = ce_step run' p es r ce.
Proof.
  intros H. unfold ce_step. destruct (ce_requested es ce) eqn:G; [|done].
  destruct ce; rewrite (H eq_refl); reflexivity.
Qed.

Lemma ce_run_ext {P} (run run' : ContentExtractor -> P -> option json) p es ces r :
  (∀ ce, ce_requested es ce = true -> run ce p = run' ce p) ->
  ce_run run p es ces r = ce_run run' p es ces r.
Proof.
  intros H. revert r. induction ces as [|ce ces IH]; intros r; [done|]. simpl.
  rewrite (ce_step_ext run run') by auto.
  destruct (ce_step run' p es r ce); simpl; auto.
Qed.

Lemma ce_in_order ce : ce ∈ ce_order.
Proof. apply list_elem_of_In. destruct ce; simpl; tauto. Qed.

Lemma ce_run_None {P} (run : ContentExtractor -> P -> option json) p es ce ces r :
  ce ∈ ces -> (∀ r', ce_step run p es r' ce = None) -> ce_run run p es ces r = None.
Proof.
  intros Hin Hs. revert r. induction ces as [|ce0 ces IH]; intros r; [set_solver|]. simpl.
  apply elem_of_cons in Hin as [->|Hin]; [by rewrite Hs|].
  destruct (ce_step run p es r ce0); simpl; [by apply IH|done].
Qed.

Lemma jprop_defined k v : v ≠ JNull -> ∃ x, jprop k v = Some x.
Proof. destruct v; simpl; eauto. done. Qed.

Lemma ce_step_ok {P} (run : ContentExtractor -> P -> option json) p es r ce :
  (ce_requested es ce = true -> ∃ v, run ce p = Some v ∧ (ce = CE_isbn -> v ≠ JNull)) ->
  ∃ r', ce_step run p es r ce = Some r' ∧
    map fst r' = map fst r ++ (if ce_requested es ce then ce_keys ce else []) ∧
    (∀ kv, kv ∈ r -> kv ∈ r') ∧
    (ce ≠ CE_isbn -> ce_requested es ce = true -> ∀ v, run ce p = Some v -> (ce_key ce, v) ∈ r').
Proof.
  intros Hok. unfold ce_step. destruct (ce_requested es ce) eqn:G.
  - destruct (Hok eq_refl) as (v & Hv & Hnn).
    destruct ce; rewrite Hv; simpl;
      try (eexists; split_and!; [reflexivity|by rewrite map_app|set_solver|];
           intros _ _ v' Hv'; injection Hv' as <-; set_solver).
    destruct (jprop_defined "isbns" v (Hnn eq_refl)) as [a Ha].
    destruct (jprop_defined "images" v (Hnn eq_refl)) as [b Hb].
    rewrite Ha. simpl. rewrite Hb. simpl.
    eexists. split_and!; [reflexivity|by rewrite map_app|set_solver|done].
  - exists r. rewrite app_nil_r. split_and!; [done|done|done|]. intros _ Hc. discriminate.
Qed.

Lemma ce_run_ok {P} (run : ContentExtractor -> P -> option json) p es ces r :
  (∀ ce, ce ∈ ces -> ce_requested es ce = true ->
         ∃ v, run ce p = Some v ∧ (ce = CE_isbn -> v ≠ JNull)) ->
  ∃ fs, ce_run run p es ces r = Some (JObj fs) ∧
    map fst fs = map fst r ++ concat (map (λ ce, if ce_requested es ce then ce_keys ce else []) ces) ∧
    (∀ kv, kv ∈ r -> kv ∈ fs) ∧
    (∀ ce v, ce ∈ ces -> ce ≠ CE_isbn -> ce_requested es ce = true -> run ce p = Some v ->
             (ce_key ce, v) ∈ fs).
Proof.
  revert r. induction ces as [|ce ces IH]; intros r Hok.
  - exists r. rewrite app_nil_r. split_and!; [done|done|done|]. intros ce v Hin. set_solver.
  - destruct (ce_step_ok run p es r ce) as (r1 & E1 & K1 & M1 & V1).
    { apply Hok. set_solver. }
    destruct (IH r1) as (fs & E2 & K2 & M2 & V2).
    { intros ce' Hin. apply Hok. set_solver. }
    exists fs. simpl. rewrite E1. simpl. split_and!; [done| |auto|].
    + rewrite K2, K1. by rewrite <- app_assoc.
    + intros ce' v Hin Hne Hreq Hv. apply elem_of_cons in Hin as [->|Hin]; [|by apply V2].
      apply M2. by apply V1.
Qed.

(** X13: [extractContent] reads its [extractors] list only through
    [includes]: two lists with the same members (in any order, with any
    repetitions) give the same outcome. *)
Theorem extractContent_membership_only {P} (run : ContentExtractor -> P -> option json)
  domain pages es es' :
  (∀ x, x ∈ es <-> x ∈ es') ->
  extractContent run domain pages es = extractContent run domain pages es'.
Proof.
  intros H.
  assert (Hi : ∀ x, includes es x = includes es' x).
  { intros x. destruct (includes es x) eqn:E1, (includes es' x) eqn:E2; try done.
    - apply includes_spec, H, includes_spec in E1. congruence.
    - apply includes_spec, H, includes_spec in E2. congruence. }
  unfold extractContent. rewrite !Hi. reflexivity.
Qed.

Lemma extractContent_membership_only_witness :
  let run := fun (ce : ContentExtractor) (_ : unit) => Some (JStr (ce_key ce)) in
  (∀ x, x ∈ ["blog"; "general"; "blog"] <-> x ∈ ["general"; "blog"]) ∧
  extractContent run "a.example" tt ["blog"; "general"; "blog"] =
  extractContent run "a.example" tt ["general"; "blog"].
Proof.
  intros run. assert (H : ∀ x, x ∈ ["blog"; "general"; "blog"] <-> x ∈ ["general"; "blog"])
    by (intros x; set_solver).
  split; [exact H|]. exact (extractContent_membership_only run "a.example" tt _ _ H).
Defined.

(** X14: an extractor module that the [extractors] list does not ask for
    is never called: its behaviour has no influence on the outcome. *)
Theorem extractContent_unrequested_ignored {P} (run run' : ContentExtractor -> P -> option json)
  domain pages es :
  (∀ ce, ce_requested es ce = true -> run ce pages = run' ce pages) ->
  extractContent run domain pages es = extractContent run' domain pages es.
Proof. intros H. rewrite !extractContent_ce_run. by apply ce_run_ext. Qed.

Lemma extractContent_unrequested_ignored_witness :
  let run := fun (ce : ContentExtractor) (_ : unit) => Some (JStr (ce_key ce)) in
  let run' := fun (ce : ContentExtractor) (u : unit) =>
                match ce with CE_video => None | _ => run ce u end in
  (∀ ce, ce_requested ["rss"; "blog"] ce = true -> run ce tt = run' ce tt) ∧
  extractContent run "a.example" tt ["rss"; "blog"] =
  extractContent run' "a.example" tt ["rss"; "blog"].
Proof.
  intros run run'.
  assert (H : ∀ ce, ce_requested ["rss"; "blog"] ce = true -> run ce tt = run' ce tt)
    by (intros ce; destruct ce; try reflexivity; discriminate).
  split; [exact H|]. exact (extractContent_unrequested_ignored run run' "a.example" tt _ H).
Defined.

(** X15: all or nothing: when one requested extractor throws, or the ISBN
    extractor answers [null] (its [isbns] cannot be read), the whole
    [extractContent] call throws and the other outputs are lost. *)
Theorem extractContent_throws {P} (run : ContentExtractor -> P -> option json)
  domain pages es ce :
  ce_requested es ce = true ->
  run ce pages = None ∨ (ce = CE_isbn ∧ run ce pages = Some JNull) ->
  extractContent run domain pages es = None.
Proof.
  intros G Hn. rewrite extractContent_ce_run. apply (ce_run_None run pages es ce); [apply ce_in_order|].
  intros r'. unfold ce_step. rewrite G.
  destruct Hn as [Hn|[-> Hn]]; [destruct ce; rewrite Hn; reflexivity|rewrite Hn; reflexivity].
Qed.

Lemma extractContent_throws_witness :
  let run := fun (ce : ContentExtractor) (_ : unit) =>
               match ce with CE_color => None | _ => Some (JStr (ce_key ce)) end in
  ce_requested ["general"; "colors"; "apps"] CE_color = true ∧
  (run CE_color tt = None ∨ (CE_color = CE_isbn ∧ run CE_color tt = Some JNull)) ∧
  extractContent run "a.example" tt ["general"; "colors"; "apps"] = None.
Proof.
  intros run.
  assert (G : ce_requested ["general"; "colors"; "apps"] CE_color = true) by reflexivity.
  assert (Hn : run CE_color tt = None ∨ (CE_color = CE_isbn ∧ run CE_color tt = Some JNull))
    by (left; reflexivity).
  split_and!; [exact G|exact Hn|exact (extractContent_throws run "a.example" tt _ CE_color G Hn)].
Defined.

(** X16: when every requested extractor returns (the ISBN one with a
    non-null value), [extractContent] returns an object whose keys are
    ["domain"] followed by the keys of the requested modules in the fixed
    order general, blog, images, colors, socialMedia, videos,
    isbnData/isbnImages, apps, podcastInfo, whatever the order of the
    request; each requested section other than ISBN holds its extractor's
    output. *)
Theorem extractContent_success {P} (run : ContentExtractor -> P -> option json)
  domain pages es :
  (∀ ce, ce_requested es ce = true -> ∃ v, run ce pages = Some v ∧ (ce = CE_isbn -> v ≠ JNull)) ->
  ∃ fs, extractContent run domain pages es = Some (JObj fs) ∧
    map fst fs = "domain" :: concat (map (λ ce, if ce_requested es ce then ce_keys ce else [])
                                         ce_order) ∧
    ("domain", JStr domain) ∈ fs ∧
    (∀ ce v, ce ≠ CE_isbn -> ce_requested es ce = true -> run ce pages = Some v ->
             (ce_key ce, v) ∈ fs).
Proof.
  intros Hok. rewrite extractContent_ce_run.
  destruct (ce_run_ok run pages es ce_order [("domain", JStr domain)]) as (fs & E & K & M & V).
  { intros ce _. apply Hok. }
  exists fs. split_and!; [done|done|apply M; set_solver|].
  intros ce v. apply V, ce_in_order.
Qed.

Lemma extractContent_success_witness :
  let run := fun (ce : ContentExtractor) (_ : unit) => Some (JObj [("of", JStr (ce_key ce))]) in
  let es := ["podcast"; "isbn"; "blog"] in
  (∀ ce, ce_requested es ce = true -> ∃ v, run ce tt = Some v ∧ (ce = CE_isbn -> v ≠ JNull)) ∧
  ∃ fs, extractContent run "a.example" tt es = Some (JObj fs) ∧
    map fst fs = "domain" :: concat (map (λ ce, if ce_requested es ce then ce_keys ce else [])
                                         ce_order) ∧
    ("domain", JStr "a.example") ∈ fs ∧
    (∀ ce v, ce ≠ CE_isbn -> ce_requested es ce = true -> run ce tt = Some v ->
             (ce_key ce, v) ∈ fs).
Proof.
  intros run es.
  assert (H : ∀ ce, ce_requested es ce = true -> ∃ v, run ce tt = Some v ∧ (ce = CE_isbn -> v ≠ JNull))
    by (intros ce _; eexists; split; [reflexivity|discriminate]).
  split; [exact H|]. exact (extractContent_success run "a.example" tt es H).
Defined.

(** ** Progress during the page loop *)

(** X17: one turn of the page loop of [processJob] (page [i] of [n]
    fetched) sets the job's progress to
    [min(30 + floor(k * 30 / n), 60)] with [k] the number of contents
    collected, or to 60 after the last page: it stays between 30 and 60,
    and it never goes down from one page to the next. *)
Theorem page_step_progress svc L jid j l i p c st :
  heap st !! jid = Some j -> l_pages l !! i = Some p -> extractPageContent svc (url p) = Some c ->
  let n := length (l_pages l) in
  let pg k := Nat.min (30 + (k * 30) / n) 60 in
  ∃ j', heap (fst (resume_worker svc L jid l (W_Page i) st)) !! jid = Some j' ∧
    30 <= progress j' <= 60 ∧
    (S i < n -> progress j' = pg (S (length (l_contents l)))) ∧
    (n <= S i -> progress j' = 60) ∧
    (progress j = pg (length (l_contents l)) -> progress j <= progress j').
Proof.
  intros Hj Hp Hc n pg.
  assert (Hn : i < n) by (apply lookup_lt_is_Some_1; eauto).
  assert (Hmono : pg (length (l_contents l)) <= pg (S (length (l_contents l)))).
  { subst pg. cbn beta. apply Nat.min_le_compat_r, Nat.add_le_mono_l, Nat.Div0.div_le_mono. lia. }
  assert (Hband : ∀ k, 30 <= pg k <= 60) by (intros k; subst pg; cbn beta; lia).
  unfold resume_worker. rewrite Hj, Hp, Hc. cbn zeta. rewrite length_app. simpl (length [c]).
  replace (length (l_contents l) + 1) with (S (length (l_contents l))) by lia.
  fold n. destruct (S i <? n) eqn:Hlt; cbn [fst].
  - apply Nat.ltb_lt in Hlt.
    eexists. split; [rewrite (proj1 (emit_job_update_msg_frame svc jid _ _)); simpl;
                     rewrite lookup_alter_eq, Hj; reflexivity|].
    cbn [progress job_with_progress].
    split_and!; [apply (Hband (S (length (l_contents l))))|apply (Hband (S (length (l_contents l))))
                |done|lia|intros ->; exact Hmono].
  - apply Nat.ltb_ge in Hlt.
    eexists. split.
    + rewrite (proj1 (emit_job_update_frame svc jid _)). simpl.
      rewrite lookup_alter_eq, (proj1 (emit_job_update_msg_frame svc jid _ _)). simpl.
      rewrite lookup_alter_eq, Hj. reflexivity.
    + cbn [progress job_with_progress job_with_message].
      split_and!; [lia|lia|lia|done|]. intros ->. apply Hband.
Qed.

Lemma page_step_progress_witness :
  let l := mkLocals None ex_pages [] [] in
  heap ex_free !! "J" = Some (mkJob "J" "www.J.com" 1 Normal None Processing 0 "") ∧
  l_pages l !! 0 = Some (mkPage "https://a.example/" None) ∧
  extractPageContent ex_cancel_svc "https://a.example/" = Some (Some "<html></html>") ∧
  let n := length (l_pages l) in
  let pg k := Nat.min (30 + (k * 30) / n) 60 in
  ∃ j', heap (fst (resume_worker ex_cancel_svc 2 "J" l (W_Page 0) ex_free)) !! "J" = Some j' ∧
    30 <= progress j' <= 60 ∧
    (1 < n -> progress j' = pg (S (length (l_contents l)))) ∧
    (n <= 1 -> progress j' = 60) ∧
    (0 = pg (length (l_contents l)) -> 0 <= progress j').
Proof.
  intros l.
  assert (Hj : heap ex_free !! "J" = Some (mkJob "J" "www.J.com" 1 Normal None Processing 0 ""))
    by (vm_compute; reflexivity).
  assert (Hp : l_pages l !! 0 = Some (mkPage "https://a.example/" None)) by reflexivity.
  assert (Hc : extractPageContent ex_cancel_svc "https://a.example/" = Some (Some "<html></html>"))
    by reflexivity.
  split_and!; [exact Hj|exact Hp|exact Hc|].
  exact (page_step_progress ex_cancel_svc 2 "J" _ l 0 _ _ ex_free Hj Hp Hc).
Defined.
